(** * CacheMaster: the cache engine and its replacement policies

    A shallow embedding of
      - backend/src/cache/eviction-policies/{lru,lfu,fifo}.ts
      - backend/src/cache/statistics.ts
      - backend/src/cache/engine.ts
    and the properties the specification states about them.

    Modelling conventions.
      - JavaScript numbers that the engine computes with for its own
        bookkeeping (sizes, timestamps, counters) are integers in every run
        considered here and are modelled by [Z] (counters by [nat]).
        [Math.floor (x * 0.9)] is [x * 9 / 10] on [Z].
      - The numbers that the cache stores as values, and the amounts of
        INCREMENT, are arbitrary JavaScript numbers: IEEE 754 binary64
        numbers, here Rocq's primitive [float], with [PrimFloat.add] for
        [+] (rounding to nearest, ties to even, one NaN).
      - Values are JSON data (what the HTTP API stores: null, booleans,
        numbers, strings, arrays and plain objects with their own
        enumerable properties), [undefined], and the primitive values of the
        remaining types (symbols and bigints, [VOther]).  Functions and
        objects with accessors, frozen properties or a prototype of their own
        are not values of the embedding.
      - A string is the sequence of its UTF-8 bytes, so that
        [Buffer.byteLength (s, 'utf8')] is [String.length].
      - A JavaScript [Map] is an association list with unique keys in
        insertion order ([JSMap]); a [Map] that is never iterated is a [gmap].
      - A doubly linked list of nodes with an index [Map<K, Node>] from keys to
        nodes is the list of its keys from head to tail; unlinking the node of
        a key removes that key.  That the keys of such a list are pairwise
        distinct is proved below as a representation invariant.
      - The policies store, next to each key, a reference to the engine's
        entry object.  The engine never reads it back, therefore the policies
        of the embedding keep keys only and [get] answers whether the key was
        found.  The method [keys] of the policies, which nothing calls, is
        left out.
      - [Date.now ()] is an oracle: its n-th call returns [clock n].  The
        number of calls made so far is part of the [World].

    Contents: the embedding; the definitions used in the statements; facts
    about [JSMap] and about the three policies; the invariant of the engine
    and its preservation by every operation; the memory bound (C1);
    INCREMENT, null values and batches (C7, C10, C9); the victim of LRU (C8);
    the runs on which the code departs from the specification (C2 to C6);
    further properties of the code: round trips of SET, GET, DELETE, EXISTS,
    UPDATE-TTL and CLEAR, the sweep and the batches, what the statistics
    count, the capacity of the policies and the key limit of the engine, the
    victims of FIFO and LFU, the memory account, the window of the
    statistics, and INCREMENT as a counter (X1 to X20). *)

From stdpp Require Import gmap strings list.
From Stdlib Require Import ZArith Lia PrimFloat.

Set Warnings "-register-all".
Local Open Scope Z_scope.

(** ** Values and their estimated size *)

Inductive JSValue : Type :=
| VNull
| VUndefined
| VBoolean (b : bool)
| VNumber (n : float)
| VString (s : string)
| VArray (items : list JSValue)
| VObject (fields : list (string * JSValue))
| VOther.

Definition byteLength (s : string) : Z := Z.of_nat (String.length s).

(** [CacheEngine.estimateValueSize] *)
Fixpoint estimateValueSize (value : JSValue) : Z :=
  match value with
  | VNull | VUndefined => 8
  | VBoolean _ => 1
  | VNumber _ => 8
  | VString s => byteLength s
  | VArray items =>
      fold_left (fun size item => size + estimateValueSize item) items 16
  | VObject fields =>
      fold_left
        (fun size kv => size + (byteLength (fst kv) + estimateValueSize (snd kv)))
        fields 16
  | VOther => 16
  end.

(** Induction on values, through the lists of arrays and objects. *)
Section JSValueInduction.
Variable P : JSValue → Prop.
Hypothesis Hnull : P VNull.
Hypothesis Hundefined : P VUndefined.
Hypothesis Hboolean : ∀ b, P (VBoolean b).
Hypothesis Hnumber : ∀ n, P (VNumber n).
Hypothesis Hstring : ∀ s, P (VString s).
Hypothesis Harray : ∀ items, Forall P items → P (VArray items).
Hypothesis Hobject : ∀ fields, Forall (fun kv => P (snd kv)) fields → P (VObject fields).
Hypothesis Hother : P VOther.

Fixpoint JSValue_nested_ind (v : JSValue) : P v :=
  match v with
  | VNull => Hnull
  | VUndefined => Hundefined
  | VBoolean b => Hboolean b
  | VNumber n => Hnumber n
  | VString s => Hstring s
  | VArray items =>
      Harray items
        ((fix go (l : list JSValue) : Forall P l :=
            match l with
            | [] => @List.Forall_nil _ P
            | x :: r => @List.Forall_cons _ P x r (JSValue_nested_ind x) (go r)
            end) items)
  | VObject fields =>
      Hobject fields
        ((fix go (l : list (string * JSValue)) : Forall (fun kv => P (snd kv)) l :=
            match l with
            | [] => @List.Forall_nil _ (fun kv => P (snd kv))
            | kv :: r =>
                @List.Forall_cons _ (fun kv => P (snd kv)) kv r
                  (JSValue_nested_ind (snd kv)) (go r)
            end) fields)
  | VOther => Hother
  end.
End JSValueInduction.

(** [CacheEngine.calculateEntrySize] *)
Definition calculateEntrySize (key : string) (value : JSValue) : Z :=
  let keySize := byteLength key in
  let valueSize := estimateValueSize value in
  let overhead := 64 in
  keySize + valueSize + overhead.

(** Truthiness of a string ([if (evictedKey)]) and of a number
    ([options.ttl ? ... : ...], [entry.expiresAt && ...]). *)
Definition truthy_string (s : string) : bool := negb (bool_decide (s = EmptyString)).
Definition truthy_number (n : Z) : bool := negb (n =? 0).

(** ** JavaScript [Map]: unique keys, insertion order *)

Module JSMap.
Section Ops.
Context {V : Type}.

Fixpoint get (key : string) (m : list (string * V)) : option V :=
  match m with
  | [] => None
  | (k, v) :: rest => if decide (k = key) then Some v else get key rest
  end.

Definition has (key : string) (m : list (string * V)) : bool :=
  match get key m with Some _ => true | None => false end.

Fixpoint set (key : string) (v : V) (m : list (string * V)) : list (string * V) :=
  match m with
  | [] => [(key, v)]
  | (k, x) :: rest =>
      if decide (k = key) then (key, v) :: rest else (k, x) :: set key v rest
  end.

Fixpoint delete (key : string) (m : list (string * V)) : list (string * V) :=
  match m with
  | [] => []
  | (k, x) :: rest =>
      if decide (k = key) then rest else (k, x) :: delete key rest
  end.

Definition keys (m : list (string * V)) : list string := map fst m.

Definition size (m : list (string * V)) : Z := Z.of_nat (length m).
End Ops.
End JSMap.

(** ** A plain object written by assignment

    [getMultiple] builds its result from [{}] by [result[key] = value].  Such
    an assignment creates or updates an own property, except at the key
    ["__proto__"]: unless the object has an own property of that name, or the
    lookup along its prototype chain meets a property of that name before
    [Object.prototype] (an object made by [JSON.parse] can have one, and a
    null prototype ends the chain), the assignment calls the setter of
    [Object.prototype.__proto__], which replaces the prototype of the object
    when the value is an object or null and does nothing for any other
    value.  [own] lists the own properties in the order of their creation;
    they are what [Object.keys] and [JSON.stringify] show. *)
Inductive Prototype : Type :=
| ObjectPrototype
| NullPrototype
| ValuePrototype (v : JSValue).

Module JSObject.
Record t := mk { own : list (string * JSValue); prototype : Prototype }.

(** [{}] *)
Definition empty : t := mk [] ObjectPrototype.

(** Whether the lookup of ["__proto__"] from the prototype on ends at the
    accessor of [Object.prototype]. *)
Definition reachesSetter (p : Prototype) : bool :=
  match p with
  | ObjectPrototype => true
  | NullPrototype => false
  | ValuePrototype (VObject fields) => negb (JSMap.has "__proto__" fields)
  | ValuePrototype _ => true
  end.

(** [o[key] = value] *)
Definition set (key : string) (value : JSValue) (o : t) : t :=
  if bool_decide (key = "__proto__") && negb (JSMap.has key (own o))
     && reachesSetter (prototype o)
  then
    match value with
    | VObject _ | VArray _ => mk (own o) (ValuePrototype value)
    | VNull => mk (own o) NullPrototype
    | _ => o
    end
  else mk (JSMap.set key value (own o)) (prototype o).
End JSObject.

(** Unlinking the node of [key] from a linked list of keys. *)
Definition removeNode (key : string) (l : list string) : list string :=
  filter (fun k => k ≠ key) l.

(** ** eviction-policies/lru.ts *)

Module LRUPolicy.
(** [order]: the list from [head] (most recently used) to [tail]. *)
Record t := mk { capacity : Z; order : list string }.

Definition new (capacity : Z) : t := mk capacity [].

Definition has (key : string) (p : t) : bool := bool_decide (key ∈ order p).

Definition size (p : t) : Z := Z.of_nat (length (order p)).

Definition addToHead (key : string) (l : list string) : list string := key :: l.

Definition moveToHead (key : string) (l : list string) : list string :=
  addToHead key (removeNode key l).

Definition evictLRU (p : t) : option string * t :=
  match last (order p) with
  | None => (None, p)
  | Some evictedKey => (Some evictedKey, mk (capacity p) (removeNode evictedKey (order p)))
  end.

Definition evict (p : t) : option string * t := evictLRU p.

Definition get (key : string) (p : t) : bool * t :=
  if has key p then (true, mk (capacity p) (moveToHead key (order p)))
  else (false, p).

Definition set (key : string) (p : t) : option string * t :=
  if has key p then (None, mk (capacity p) (moveToHead key (order p)))
  else
    let '(evictedKey, p1) :=
      if (0 <? capacity p) && (capacity p <=? size p) then evictLRU p else (None, p) in
    if capacity p =? 0 then (None, p1)
    else (evictedKey, mk (capacity p) (addToHead key (order p1))).

Definition delete (key : string) (p : t) : bool * t :=
  if has key p then (true, mk (capacity p) (removeNode key (order p)))
  else (false, p).

Definition clear (p : t) : t := mk (capacity p) [].

End LRUPolicy.

(** ** eviction-policies/fifo.ts *)

Module FIFOPolicy.
(** [order]: the list from [head] (oldest, first to evict) to [tail]. *)
Record t := mk { capacity : Z; order : list string }.

Definition new (capacity : Z) : t := mk capacity [].

Definition has (key : string) (p : t) : bool := bool_decide (key ∈ order p).

Definition size (p : t) : Z := Z.of_nat (length (order p)).

Definition addToTail (key : string) (l : list string) : list string := l ++ [key].

Definition evictFIFO (p : t) : option string * t :=
  match order p with
  | [] => (None, p)
  | evictedKey :: _ => (Some evictedKey, mk (capacity p) (removeNode evictedKey (order p)))
  end.

Definition evict (p : t) : option string * t := evictFIFO p.

Definition get (key : string) (p : t) : bool * t := (has key p, p).

Definition set (key : string) (p : t) : option string * t :=
  if has key p then (None, p)
  else
    let '(evictedKey, p1) :=
      if (0 <? capacity p) && (capacity p <=? size p) then evictFIFO p else (None, p) in
    if capacity p =? 0 then (None, p1)
    else (evictedKey, mk (capacity p) (addToTail key (order p1))).

Definition delete (key : string) (p : t) : bool * t :=
  if has key p then (true, mk (capacity p) (removeNode key (order p)))
  else (false, p).

Definition clear (p : t) : t := mk (capacity p) [].

End FIFOPolicy.

(** ** eviction-policies/lfu.ts *)

Module LFUPolicy.
(** [cache] maps a key to the [frequency] field of its node;
    [frequencyMap] maps a frequency to its list, from [head] (least
    recently touched at that frequency) to [tail]. *)
Record t := mk {
  capacity : Z;
  cache : gmap string nat;
  frequencyMap : gmap nat (list string);
  minFrequency : nat
}.

Definition new (capacity : Z) : t := mk capacity ∅ ∅ 0%nat.

Definition has (key : string) (p : t) : bool := bool_decide (is_Some (cache p !! key)).

Definition size (p : t) : Z := Z.of_nat (base.size (cache p)).

Definition addToFrequencyList (key : string) (frequency : nat)
    (fm : gmap nat (list string)) : gmap nat (list string) :=
  let freqList := default [] (fm !! frequency) in
  <[frequency := freqList ++ [key]]> fm.

Definition removeFromFrequencyList (key : string) (frequency : nat)
    (fm : gmap nat (list string)) : gmap nat (list string) :=
  match fm !! frequency with
  | None => fm
  | Some freqList =>
      match removeNode key freqList with
      | [] => base.delete frequency fm
      | l => <[frequency := l]> fm
      end
  end.

Definition increaseFrequency (key : string) (oldFrequency : nat) (p : t) : t :=
  let newFrequency := (oldFrequency + 1)%nat in
  let fm1 := removeFromFrequencyList key oldFrequency (frequencyMap p) in
  let fm2 := addToFrequencyList key newFrequency fm1 in
  let minFrequency' :=
    if bool_decide (oldFrequency = minFrequency p)
       && negb (bool_decide (is_Some (fm2 !! oldFrequency)))
    then newFrequency else minFrequency p in
  mk (capacity p) (<[key := newFrequency]> (cache p)) fm2 minFrequency'.

Definition evictLFU (p : t) : option string * t :=
  if bool_decide (minFrequency p = 0%nat) then (None, p)
  else
    match frequencyMap p !! minFrequency p with
    | None => (None, p)
    | Some [] => (None, p)
    | Some (evictedKey :: _) =>
        let frequency := default 0%nat (cache p !! evictedKey) in
        (Some evictedKey,
         mk (capacity p) (base.delete evictedKey (cache p))
            (removeFromFrequencyList evictedKey frequency (frequencyMap p))
            (minFrequency p))
    end.

Definition evict (p : t) : option string * t := evictLFU p.

Definition get (key : string) (p : t) : bool * t :=
  match cache p !! key with
  | None => (false, p)
  | Some frequency => (true, increaseFrequency key frequency p)
  end.

Definition set (key : string) (p : t) : option string * t :=
  match cache p !! key with
  | Some frequency => (None, increaseFrequency key frequency p)
  | None =>
      let '(evictedKey, p1) :=
        if (0 <? capacity p) && (capacity p <=? size p) then evictLFU p else (None, p) in
      if capacity p =? 0 then (None, p1)
      else
        let minFrequency' :=
          if bool_decide (minFrequency p1 = 0%nat) || bool_decide (1 < minFrequency p1)%nat
          then 1%nat else minFrequency p1 in
        (evictedKey,
         mk (capacity p) (<[key := 1%nat]> (cache p1))
            (addToFrequencyList key 1%nat (frequencyMap p1)) minFrequency')
  end.

Definition delete (key : string) (p : t) : bool * t :=
  match cache p !! key with
  | None => (false, p)
  | Some frequency =>
      let fm := removeFromFrequencyList key frequency (frequencyMap p) in
      let minFrequency' :=
        if bool_decide (0 < minFrequency p)%nat
           && negb (bool_decide (is_Some (fm !! minFrequency p)))
        then S (minFrequency p) else minFrequency p in
      (true, mk (capacity p) (base.delete key (cache p)) fm minFrequency')
  end.

Definition clear (p : t) : t := mk (capacity p) ∅ ∅ 0%nat.
End LFUPolicy.

(** ** eviction-policies/types.ts: the interface, and the three policies
    behind it *)

Inductive EvictionPolicy : Type :=
| PolicyLRU (p : LRUPolicy.t)
| PolicyLFU (p : LFUPolicy.t)
| PolicyFIFO (p : FIFOPolicy.t).

Module Policy.
Definition capacity (p : EvictionPolicy) : Z :=
  match p with
  | PolicyLRU q => LRUPolicy.capacity q
  | PolicyLFU q => LFUPolicy.capacity q
  | PolicyFIFO q => FIFOPolicy.capacity q
  end.

Definition get (key : string) (p : EvictionPolicy) : bool * EvictionPolicy :=
  match p with
  | PolicyLRU q => let '(r, q') := LRUPolicy.get key q in (r, PolicyLRU q')
  | PolicyLFU q => let '(r, q') := LFUPolicy.get key q in (r, PolicyLFU q')
  | PolicyFIFO q => let '(r, q') := FIFOPolicy.get key q in (r, PolicyFIFO q')
  end.

Definition set (key : string) (p : EvictionPolicy) : option string * EvictionPolicy :=
  match p with
  | PolicyLRU q => let '(r, q') := LRUPolicy.set key q in (r, PolicyLRU q')
  | PolicyLFU q => let '(r, q') := LFUPolicy.set key q in (r, PolicyLFU q')
  | PolicyFIFO q => let '(r, q') := FIFOPolicy.set key q in (r, PolicyFIFO q')
  end.

Definition delete (key : string) (p : EvictionPolicy) : bool * EvictionPolicy :=
  match p with
  | PolicyLRU q => let '(r, q') := LRUPolicy.delete key q in (r, PolicyLRU q')
  | PolicyLFU q => let '(r, q') := LFUPolicy.delete key q in (r, PolicyLFU q')
  | PolicyFIFO q => let '(r, q') := FIFOPolicy.delete key q in (r, PolicyFIFO q')
  end.

Definition has (key : string) (p : EvictionPolicy) : bool :=
  match p with
  | PolicyLRU q => LRUPolicy.has key q
  | PolicyLFU q => LFUPolicy.has key q
  | PolicyFIFO q => FIFOPolicy.has key q
  end.

Definition size (p : EvictionPolicy) : Z :=
  match p with
  | PolicyLRU q => LRUPolicy.size q
  | PolicyLFU q => LFUPolicy.size q
  | PolicyFIFO q => FIFOPolicy.size q
  end.

Definition clear (p : EvictionPolicy) : EvictionPolicy :=
  match p with
  | PolicyLRU q => PolicyLRU (LRUPolicy.clear q)
  | PolicyLFU q => PolicyLFU (LFUPolicy.clear q)
  | PolicyFIFO q => PolicyFIFO (FIFOPolicy.clear q)
  end.

Definition evict (p : EvictionPolicy) : option string * EvictionPolicy :=
  match p with
  | PolicyLRU q => let '(r, q') := LRUPolicy.evict q in (r, PolicyLRU q')
  | PolicyLFU q => let '(r, q') := LFUPolicy.evict q in (r, PolicyLFU q')
  | PolicyFIFO q => let '(r, q') := FIFOPolicy.evict q in (r, PolicyFIFO q')
  end.
End Policy.

(** ** statistics.ts *)

Module StatisticsTracker.
Record t := mk {
  hits : nat;
  misses : nat;
  evictions : nat;
  expirations : nat;
  operations : list Z
}.

Definition operationWindow : Z := 10000.

Definition new : t := mk 0 0 0 0 [].

(** [now] is the value [Date.now ()] returned inside [recordOperation]. *)
Definition recordOperation (now : Z) (s : t) : t :=
  let operations1 := operations s ++ [now] in
  let cutoff := now - operationWindow in
  mk (hits s) (misses s) (evictions s) (expirations s)
     (filter (fun time => cutoff < time) operations1).

Definition recordHit (now : Z) (s : t) : t :=
  recordOperation now
    (mk (S (hits s)) (misses s) (evictions s) (expirations s) (operations s)).

Definition recordMiss (now : Z) (s : t) : t :=
  recordOperation now
    (mk (hits s) (S (misses s)) (evictions s) (expirations s) (operations s)).

Definition recordEviction (s : t) : t :=
  mk (hits s) (misses s) (S (evictions s)) (expirations s) (operations s).

Definition recordExpiration (s : t) : t :=
  mk (hits s) (misses s) (evictions s) (S (expirations s)) (operations s).

Definition reset (s : t) : t := mk 0 0 0 0 [].
End StatisticsTracker.

(** ** engine.ts *)

Module CacheEntry.
Record t := mk { value : JSValue; expiresAt : option Z; size : Z }.
End CacheEntry.

Inductive PolicyName : Type := LRU | LFU | FIFO.

Module CacheConfig.
Record t := mk { maxMemoryMB : Z; maxKeys : Z; evictionPolicy : PolicyName }.
End CacheConfig.

Record CacheEngine := mkEngine {
  store : list (string * CacheEntry.t);
  evictionPolicy : EvictionPolicy;
  stats : StatisticsTracker.t;
  maxMemoryBytes : Z;
  currentMemoryBytes : Z;
  memoryThreshold : Z
}.

Definition with_store (f : list (string * CacheEntry.t) -> list (string * CacheEntry.t))
    (e : CacheEngine) : CacheEngine :=
  mkEngine (f (store e)) (evictionPolicy e) (stats e) (maxMemoryBytes e)
    (currentMemoryBytes e) (memoryThreshold e).

Definition with_policy (p : EvictionPolicy) (e : CacheEngine) : CacheEngine :=
  mkEngine (store e) p (stats e) (maxMemoryBytes e) (currentMemoryBytes e)
    (memoryThreshold e).

Definition with_stats (f : StatisticsTracker.t -> StatisticsTracker.t)
    (e : CacheEngine) : CacheEngine :=
  mkEngine (store e) (evictionPolicy e) (f (stats e)) (maxMemoryBytes e)
    (currentMemoryBytes e) (memoryThreshold e).

Definition with_currentMemoryBytes (f : Z -> Z) (e : CacheEngine) : CacheEngine :=
  mkEngine (store e) (evictionPolicy e) (stats e) (maxMemoryBytes e)
    (f (currentMemoryBytes e)) (memoryThreshold e).

(** [CacheEngine.createEvictionPolicy]; the [default] branch of the source is
    for names that the type ['LRU' | 'LFU' | 'FIFO'] excludes. *)
Definition createEvictionPolicy (cfg : CacheConfig.t) : EvictionPolicy :=
  let capacity := CacheConfig.maxKeys cfg in
  match CacheConfig.evictionPolicy cfg with
  | LRU => PolicyLRU (LRUPolicy.new capacity)
  | LFU => PolicyLFU (LFUPolicy.new capacity)
  | FIFO => PolicyFIFO (FIFOPolicy.new capacity)
  end.

(** The constructor. *)
Definition newCacheEngine (cfg : CacheConfig.t) : CacheEngine :=
  let maxMemoryBytes := CacheConfig.maxMemoryMB cfg * 1024 * 1024 in
  mkEngine [] (createEvictionPolicy cfg) StatisticsTracker.new
    maxMemoryBytes 0 (maxMemoryBytes * 9 / 10).

(** [CacheEngine.delete] *)
Definition delete (key : string) (e : CacheEngine) : bool * CacheEngine :=
  match JSMap.get key (store e) with
  | None => (false, e)
  | Some entry =>
      let e1 := with_currentMemoryBytes (fun b => b - CacheEntry.size entry) e in
      let e2 := with_store (JSMap.delete key) e1 in
      let e3 := with_policy (snd (Policy.delete key (evictionPolicy e2))) e2 in
      (true, e3)
  end.

(** [CacheEngine.evictOne] *)
Definition evictOne (e : CacheEngine) : option string * CacheEngine :=
  let '(keyToEvict, p) := Policy.evict (evictionPolicy e) in
  let e1 := with_policy p e in
  match keyToEvict with
  | None => (None, e1)
  | Some k =>
      if truthy_string k then
        match JSMap.get k (store e1) with
        | Some entry =>
            let e2 := with_currentMemoryBytes (fun b => b - CacheEntry.size entry) e1 in
            let e3 := with_store (JSMap.delete k) e2 in
            let e4 := with_stats StatisticsTracker.recordEviction e3 in
            (Some k, e4)
        | None => (None, e1)
        end
      else (None, e1)
  end.

(** The [while] loop of [CacheEngine.enforceMemoryLimit], unrolled [fuel]
    times. *)
Fixpoint enforceMemoryLimit_loop (fuel : nat) (requiredSpace : Z)
    (e : CacheEngine) : CacheEngine :=
  match fuel with
  | O => e
  | S fuel' =>
      if (memoryThreshold e <? currentMemoryBytes e + requiredSpace)
         && (0 <? JSMap.size (store e))
      then
        let '(evictedKey, e1) := evictOne e in
        match evictedKey with
        | None => e1
        | Some k => if truthy_string k then enforceMemoryLimit_loop fuel' requiredSpace e1 else e1
        end
      else e
  end.

(** [CacheEngine.enforceMemoryLimit]: every iteration that does not leave the
    loop removes one key from the store, so that as many iterations as the
    store has keys are enough (lemma [enforceMemoryLimit_loop_exit]). *)
Definition enforceMemoryLimit (requiredSpace : Z) (e : CacheEngine) : CacheEngine :=
  enforceMemoryLimit_loop (length (store e)) requiredSpace e.

(** [CacheEngine.clear] *)
Definition clear (e : CacheEngine) : CacheEngine :=
  let e1 := with_store (fun _ => []) e in
  let e2 := with_policy (Policy.clear (evictionPolicy e1)) e1 in
  with_currentMemoryBytes (fun _ => 0) e2.

(** [CacheEngine.keys] *)
Definition keys (e : CacheEngine) : list string := JSMap.keys (store e).

(** [CacheEngine.resetStats] *)
Definition resetStats (e : CacheEngine) : CacheEngine :=
  with_stats StatisticsTracker.reset e.

(** [CacheEngine.deleteMultiple] *)
Fixpoint deleteMultiple (keys : list string) (e : CacheEngine) : list string * CacheEngine :=
  match keys with
  | [] => ([], e)
  | key :: rest =>
      let '(deleted, e1) := delete key e in
      let '(deletedKeys, e2) := deleteMultiple rest e1 in
      (if deleted then key :: deletedKeys else deletedKeys, e2)
  end.

(** The result of [CacheEngine.increment]: the number returned, or the message
    of the [Error] thrown. *)
Inductive IncrementResult : Type :=
| Returned (n : float)
| Thrown (message : string).

(** An element of the array given to [CacheEngine.setMultiple]. *)
Module BatchEntry.
Record t := mk { key : string; value : JSValue; ttl : option Z }.
End BatchEntry.

(** [options.ttl ? now + options.ttl : undefined] *)
Definition expiresAtOf (now : Z) (ttl : option Z) : option Z :=
  match ttl with
  | Some t => if truthy_number t then Some (now + t) else None
  | None => None
  end.

(** [entry.expiresAt && now > entry.expiresAt], for a [now] already read. *)
Definition expiredAt (now : Z) (entry : CacheEntry.t) : bool :=
  match CacheEntry.expiresAt entry with
  | Some expiresAt => truthy_number expiresAt && (expiresAt <? now)
  | None => false
  end.

(** The engine together with the number of calls of [Date.now ()] so far. *)
Record World := mkWorld { engine : CacheEngine; reads : nat }.

Definition on_engine (f : CacheEngine -> CacheEngine) (w : World) : World :=
  mkWorld (f (engine w)) (reads w).

Section Engine.
(** [clock n]: what the n-th call of [Date.now ()] returns. *)
Variable clock : nat -> Z.

Definition Date_now (w : World) : Z * World :=
  (clock (reads w), mkWorld (engine w) (S (reads w))).

(** [this.stats.recordHit ()] and [this.stats.recordMiss ()]; each reads the
    clock once, in [recordOperation]. *)
Definition recordHit (w : World) : World :=
  let '(now, w1) := Date_now w in
  on_engine (with_stats (StatisticsTracker.recordHit now)) w1.

Definition recordMiss (w : World) : World :=
  let '(now, w1) := Date_now w in
  on_engine (with_stats (StatisticsTracker.recordMiss now)) w1.

(** The condition [entry.expiresAt && Date.now () > entry.expiresAt]; the
    clock is read only when [expiresAt] is truthy. *)
Definition isExpired (entry : CacheEntry.t) (w : World) : bool * World :=
  match CacheEntry.expiresAt entry with
  | None => (false, w)
  | Some expiresAt =>
      if truthy_number expiresAt then
        let '(now, w1) := Date_now w in (expiresAt <? now, w1)
      else (false, w)
  end.

(** [CacheEngine.get]; the miss sentinel [null] is [VNull]. *)
Definition get (key : string) (w : World) : JSValue * World :=
  match JSMap.get key (store (engine w)) with
  | None => (VNull, recordMiss w)
  | Some entry =>
      let '(expired, w1) := isExpired entry w in
      if expired then
        let w2 := on_engine (fun e => snd (delete key e)) w1 in
        let w3 := on_engine (with_stats StatisticsTracker.recordExpiration) w2 in
        (VNull, recordMiss w3)
      else
        let w2 :=
          on_engine (fun e => with_policy (snd (Policy.get key (evictionPolicy e))) e) w1 in
        (CacheEntry.value entry, recordHit w2)
  end.

(** [CacheEngine.set]; [ttl] is [options.ttl]. *)
Definition set (key : string) (value : JSValue) (ttl : option Z) (w : World)
    : bool * World :=
  let '(now, w1) := Date_now w in
  let expiresAt := expiresAtOf now ttl in
  let entrySize := calculateEntrySize key value in
  let e := engine w1 in
  let e1 :=
    if memoryThreshold e <? currentMemoryBytes e + entrySize
    then enforceMemoryLimit entrySize e else e in
  let e' :=
    match JSMap.get key (store e1) with
    | Some existingEntry =>
        let e2 := with_currentMemoryBytes (fun b => b - CacheEntry.size existingEntry) e1 in
        let e3 := with_store (JSMap.set key (CacheEntry.mk value expiresAt entrySize)) e2 in
        let e4 := with_currentMemoryBytes (fun b => b + entrySize) e3 in
        with_policy (snd (Policy.set key (evictionPolicy e4))) e4
    | None =>
        let entry := CacheEntry.mk value expiresAt entrySize in
        let e2 := with_store (JSMap.set key entry) e1 in
        let e3 := with_currentMemoryBytes (fun b => b + entrySize) e2 in
        let '(evictedKey, p) := Policy.set key (evictionPolicy e3) in
        let e4 := with_policy p e3 in
        match evictedKey with
        | None => e4
        | Some k =>
            if truthy_string k then
              match JSMap.get k (store e4) with
              | Some evictedEntry =>
                  let e5 :=
                    with_currentMemoryBytes (fun b => b - CacheEntry.size evictedEntry) e4 in
                  let e6 := with_store (JSMap.delete k) e5 in
                  with_stats StatisticsTracker.recordEviction e6
              | None => e4
              end
            else e4
        end
    end in
  (true, mkWorld e' (reads w1)).

(** [CacheEngine.exists] ([exists] is a keyword here) *)
Definition exists_ (key : string) (w : World) : bool * World :=
  match JSMap.get key (store (engine w)) with
  | None => (false, w)
  | Some entry =>
      let '(expired, w1) := isExpired entry w in
      if expired then
        let w2 := on_engine (fun e => snd (delete key e)) w1 in
        let w3 := on_engine (with_stats StatisticsTracker.recordExpiration) w2 in
        (false, w3)
      else (true, w1)
  end.

(** [CacheEngine.increment]; [amount] defaults to 1 at the call. *)
Definition increment (key : string) (amount : float) (w : World)
    : IncrementResult * World :=
  let '(currentValue, w1) := get key w in
  match currentValue with
  | VNull => let '(_, w2) := set key (VNumber amount) None w1 in (Returned amount, w2)
  | VNumber n =>
      let newValue := (n + amount)%float in
      let '(_, w2) := set key (VNumber newValue) None w1 in (Returned newValue, w2)
  | _ => (Thrown "Cannot increment non-numeric value", w1)
  end.

(** [CacheEngine.updateTTL] *)
Definition updateTTL (key : string) (ttl : Z) (w : World) : bool * World :=
  match JSMap.get key (store (engine w)) with
  | None => (false, w)
  | Some entry =>
      let '(now, w1) := Date_now w in
      let entry' :=
        CacheEntry.mk (CacheEntry.value entry) (Some (now + ttl)) (CacheEntry.size entry) in
      (true, on_engine (with_store (JSMap.set key entry')) w1)
  end.

(** [CacheEngine.getMultiple]; [result] is the object under construction. *)
Fixpoint getMultiple_loop (keys : list string) (result : JSObject.t)
    (w : World) : JSObject.t * World :=
  match keys with
  | [] => (result, w)
  | key :: rest =>
      let '(value, w1) := get key w in
      match value with
      | VNull => getMultiple_loop rest result w1
      | _ => getMultiple_loop rest (JSObject.set key value result) w1
      end
  end.

Definition getMultiple (keys : list string) (w : World) : JSObject.t * World :=
  getMultiple_loop keys JSObject.empty w.

(** [CacheEngine.setMultiple] *)
Fixpoint setMultiple (entries : list BatchEntry.t) (w : World) : bool * World :=
  match entries with
  | [] => (true, w)
  | entry :: rest =>
      let '(_, w1) :=
        set (BatchEntry.key entry) (BatchEntry.value entry) (BatchEntry.ttl entry) w in
      setMultiple rest w1
  end.

(** [CacheEngine.cleanup]: the loop over [this.store.entries ()] deletes
    only the entry it is visiting, so that it visits the entries the store
    had when the loop began. *)
Fixpoint cleanup_loop (now : Z) (entries : list (string * CacheEntry.t))
    (cleaned : Z) (e : CacheEngine) : Z * CacheEngine :=
  match entries with
  | [] => (cleaned, e)
  | (key, entry) :: rest =>
      if expiredAt now entry then
        let e1 := snd (delete key e) in
        let e2 := with_stats StatisticsTracker.recordExpiration e1 in
        cleanup_loop now rest (cleaned + 1) e2
      else cleanup_loop now rest cleaned e
  end.

Definition cleanup (w : World) : Z * World :=
  let '(now, w1) := Date_now w in
  let '(cleaned, e) := cleanup_loop now (store (engine w1)) 0 (engine w1) in
  (cleaned, mkWorld e (reads w1)).

(** *** Sequences of public operations *)

Inductive Op : Type :=
| OpGet (key : string)
| OpSet (key : string) (value : JSValue) (ttl : option Z)
| OpDelete (key : string)
| OpExists (key : string)
| OpIncrement (key : string) (amount : float)
| OpUpdateTTL (key : string) (ttl : Z)
| OpClear
| OpKeys
| OpResetStats
| OpGetMultiple (keys : list string)
| OpSetMultiple (entries : list BatchEntry.t)
| OpDeleteMultiple (keys : list string)
| OpCleanup.

Definition step (w : World) (op : Op) : World :=
  match op with
  | OpGet key => snd (get key w)
  | OpSet key value ttl => snd (set key value ttl w)
  | OpDelete key => on_engine (fun e => snd (delete key e)) w
  | OpExists key => snd (exists_ key w)
  | OpIncrement key amount => snd (increment key amount w)
  | OpUpdateTTL key ttl => snd (updateTTL key ttl w)
  | OpClear => on_engine clear w
  | OpKeys => w
  | OpResetStats => on_engine resetStats w
  | OpGetMultiple keys => snd (getMultiple keys w)
  | OpSetMultiple entries => snd (setMultiple entries w)
  | OpDeleteMultiple keys => on_engine (fun e => snd (deleteMultiple keys e)) w
  | OpCleanup => snd (cleanup w)
  end.

Definition run (ops : list Op) (w : World) : World := fold_left step ops w.

Definition newWorld (cfg : CacheConfig.t) : World := mkWorld (newCacheEngine cfg) 0.
End Engine.

Arguments get : simpl never.
Arguments set : simpl never.
Arguments exists_ : simpl never.
Arguments increment : simpl never.
Arguments updateTTL : simpl never.
Arguments cleanup : simpl never.
Arguments delete : simpl never.
Arguments enforceMemoryLimit : simpl never.

(** ** Definitions used to state the properties *)

(** The sum of the [size] fields of the resident entries. *)
Definition storeBytes (m : list (string * CacheEntry.t)) : Z :=
  foldr (fun kv acc => CacheEntry.size (snd kv) + acc) 0 m.

(** Representation invariants of the three policies.  For LFU: every
    frequency list has pairwise distinct keys, and a key is in the list of
    frequency [f] exactly when its node records the frequency [f]. *)
Definition LFU_member (fm : gmap nat (list string)) (f : nat) (k : string) : Prop :=
  ∃ l, fm !! f = Some l ∧ k ∈ l.

Definition LFU_wf (p : LFUPolicy.t) : Prop :=
  (∀ f l, LFUPolicy.frequencyMap p !! f = Some l → NoDup l) ∧
  (∀ f k, LFU_member (LFUPolicy.frequencyMap p) f k ↔ LFUPolicy.cache p !! k = Some f).

Definition Policy_wf (p : EvictionPolicy) : Prop :=
  match p with
  | PolicyLRU q => NoDup (LRUPolicy.order q)
  | PolicyLFU q => LFU_wf q
  | PolicyFIFO q => NoDup (FIFOPolicy.order q)
  end.

Definition resident (k : string) (e : CacheEngine) : Prop :=
  is_Some (JSMap.get k (store e)).

(** The invariant of the engine: the store has unique, non-empty keys; every
    key of the policy is a key of the store, and conversely unless the policy
    has capacity 0; the memory account is the sum of the sizes, none of which
    is negative. *)
Record Inv (e : CacheEngine) : Prop := mkInv {
  Inv_nodup : NoDup (JSMap.keys (store e));
  Inv_nonempty : JSMap.get EmptyString (store e) = None;
  Inv_wf : Policy_wf (evictionPolicy e);
  Inv_policy_store : ∀ k, Policy.has k (evictionPolicy e) = true → resident k e;
  Inv_store_policy :
    Policy.capacity (evictionPolicy e) ≠ 0 →
    ∀ k, resident k e → Policy.has k (evictionPolicy e) = true;
  Inv_bytes : currentMemoryBytes e = storeBytes (store e);
  Inv_sizes : ∀ k entry, JSMap.get k (store e) = Some entry → 0 ≤ CacheEntry.size entry
}.

(** The part of [Inv] that is about the store, for a key set [P] of the
    policy and its capacity [cap]. *)
Record StoreInv (m : list (string * CacheEntry.t)) (bytes : Z)
    (P : string → Prop) (cap : Z) : Prop := mkStoreInv {
  SI_nodup : NoDup (JSMap.keys m);
  SI_nonempty : JSMap.get EmptyString m = None;
  SI_policy_store : ∀ k, P k → is_Some (JSMap.get k m);
  SI_store_policy : cap ≠ 0 → ∀ k, is_Some (JSMap.get k m) → P k;
  SI_bytes : bytes = storeBytes m;
  SI_sizes : ∀ k entry, JSMap.get k m = Some entry → 0 ≤ CacheEntry.size entry
}.

(** What no operation changes: the policy in use, its capacity and the two
    memory bounds. *)
Definition policyName (p : EvictionPolicy) : PolicyName :=
  match p with
  | PolicyLRU _ => LRU
  | PolicyLFU _ => LFU
  | PolicyFIFO _ => FIFO
  end.

Definition frame (e : CacheEngine) : PolicyName * Z * Z * Z :=
  (policyName (evictionPolicy e), Policy.capacity (evictionPolicy e),
   maxMemoryBytes e, memoryThreshold e).

(** The configurations for which the memory bound is proved: LRU or FIFO, a
    capacity other than 0, and a threshold that is not above the maximum. *)
Definition boundable (e : CacheEngine) : Prop :=
  policyName (evictionPolicy e) ≠ LFU ∧
  Policy.capacity (evictionPolicy e) ≠ 0 ∧
  memoryThreshold e ≤ maxMemoryBytes e.

Definition Good (e : CacheEngine) : Prop :=
  Inv e ∧ (boundable e → currentMemoryBytes e ≤ maxMemoryBytes e).

(** The value a caller can observe under [key] when the clock shows [now]:
    none for an absent or an expired entry. *)
Definition liveValue (now : Z) (key : string) (e : CacheEngine) : option JSValue :=
  match JSMap.get key (store e) with
  | None => None
  | Some entry => if expiredAt now entry then None else Some (CacheEntry.value entry)
  end.

(** Operations with the keys the API accepts (at least one byte), for the
    operations that insert. *)
Definition valid_op (op : Op) : Prop :=
  match op with
  | OpSet key _ _ => key ≠ EmptyString
  | OpIncrement key _ => key ≠ EmptyString
  | OpSetMultiple entries => Forall (fun entry => BatchEntry.key entry ≠ EmptyString) entries
  | _ => True
  end.

(** Operations none of whose entries is larger than [maxBytes]. *)
Definition fits (maxBytes : Z) (op : Op) : Prop :=
  match op with
  | OpSet key value _ => calculateEntrySize key value ≤ maxBytes
  | OpIncrement key _ => calculateEntrySize key (VNumber 0) ≤ maxBytes
  | OpSetMultiple entries =>
      Forall (fun entry =>
                calculateEntrySize (BatchEntry.key entry) (BatchEntry.value entry) ≤ maxBytes)
        entries
  | _ => True
  end.

(** What an operation that leads from [e] to [e'] keeps, provided that what
    it inserts fits ([fit]). *)
Definition Preserved (fit : Prop) (e e' : CacheEngine) : Prop :=
  Inv e' ∧ frame e' = frame e ∧
  (boundable e → fit → currentMemoryBytes e ≤ maxMemoryBytes e →
   currentMemoryBytes e' ≤ maxMemoryBytes e').

(** Sequences of operations on a policy, through its interface. *)
Inductive PolicyOp : Type :=
| PGet (key : string)
| PSet (key : string)
| PDelete (key : string)
| PEvict
| PClear.

Definition Policy_step (p : EvictionPolicy) (op : PolicyOp) : EvictionPolicy :=
  match op with
  | PGet key => snd (Policy.get key p)
  | PSet key => snd (Policy.set key p)
  | PDelete key => snd (Policy.delete key p)
  | PEvict => snd (Policy.evict p)
  | PClear => Policy.clear p
  end.

Definition Policy_run (ops : list PolicyOp) (p : EvictionPolicy) : EvictionPolicy :=
  fold_left Policy_step ops p.

(** [lastAccess ops k]: the position, counted from 1, of the last [get] or
    [set] of [k] in [ops]; 0 when there is none.  For a key that is resident
    after [ops] this is the time of its last access: a [get] of a key that is
    not resident does not make it resident, so that the last [get] or [set] of
    a resident key is its insertion or a later successful access. *)
Definition accesses (op : PolicyOp) (k : string) : bool :=
  match op with
  | PGet key | PSet key => bool_decide (key = k)
  | _ => false
  end.

Fixpoint lastAccess_from (position found : nat) (ops : list PolicyOp) (k : string) : nat :=
  match ops with
  | [] => found
  | op :: rest =>
      lastAccess_from (S position) (if accesses op k then S position else found) rest k
  end.

Definition lastAccess (ops : list PolicyOp) (k : string) : nat :=
  lastAccess_from 0 0 ops k.

(** A list of keys in strictly descending order of their stamps. *)
Fixpoint descending (stamp : string → nat) (l : list string) : Prop :=
  match l with
  | [] => True
  | x :: rest => (∀ y, y ∈ rest → (stamp y < stamp x)%nat) ∧ descending stamp rest
  end.

(** The number of GETs that an operation makes. *)
Definition countGets (op : Op) : nat :=
  match op with
  | OpGet _ => 1
  | OpIncrement _ _ => 1
  | OpGetMultiple keys => length keys
  | _ => 0
  end.

(** Hits and misses counted so far. *)
Definition accesses_counted (e : CacheEngine) : nat :=
  (StatisticsTracker.hits (stats e) + StatisticsTracker.misses (stats e))%nat.

(** The entries that the sweep at [now] keeps. *)
Definition unexpired (now : Z) (m : list (string * CacheEntry.t)) : list (string * CacheEntry.t) :=
  filter (fun kv => expiredAt now (snd kv) = false) m.

(** What keeps a policy within its capacity.  For LFU the count alone is
    not preserved: at full capacity the next insertion must find a victim,
    that is, [minFrequency] must name a list with a key in it. *)
Definition LFU_evictable (p : LFUPolicy.t) : Prop :=
  LFUPolicy.minFrequency p ≠ 0%nat ∧
  ∃ v l, LFUPolicy.frequencyMap p !! LFUPolicy.minFrequency p = Some (v :: l).

Definition Policy_bounded (p : EvictionPolicy) : Prop :=
  Policy.size p ≤ Policy.capacity p ∧
  match p with
  | PolicyLFU q =>
      LFUPolicy.size q = LFUPolicy.capacity q → 0 < LFUPolicy.capacity q → LFU_evictable q
  | _ => True
  end.

(** [p'] is reached from [p] by calls of the interface of the policy. *)
Definition via_interface (p p' : EvictionPolicy) : Prop :=
  ∃ pops, p' = Policy_run pops p.

(** [insertedAt p0 ops k]: the position, counted from 1, of the last [set]
    of [k] in [ops] that found [k] not resident, when [ops] is applied to
    [p0]; 0 when there is none.  For a key that is resident after [ops] this
    is the time of its insertion. *)
Definition inserts (p : EvictionPolicy) (op : PolicyOp) (k : string) : bool :=
  match op with
  | PSet key => bool_decide (key = k) && negb (Policy.has k p)
  | _ => false
  end.

Fixpoint insertedAt_from (position found : nat) (p : EvictionPolicy)
    (ops : list PolicyOp) (k : string) : nat :=
  match ops with
  | [] => found
  | op :: rest =>
      insertedAt_from (S position) (if inserts p op k then S position else found)
        (Policy_step p op) rest k
  end.

Definition insertedAt (p0 : EvictionPolicy) (ops : list PolicyOp) (k : string) : nat :=
  insertedAt_from 0 0 p0 ops k.

(** A list of keys in strictly ascending order of their stamps. *)
Fixpoint ascending (stamp : string → nat) (l : list string) : Prop :=
  match l with
  | [] => True
  | x :: rest => (∀ y, y ∈ rest → (stamp x < stamp y)%nat) ∧ ascending stamp rest
  end.

(** [useCount p0 ops k]: for a key that is resident after [ops] applied to
    [p0], the number of its uses since its insertion, the insertion included:
    a [set] that finds [k] not resident starts the count at 1, a [get] or a
    [set] that finds it resident adds 1. *)
Definition uses (p : EvictionPolicy) (op : PolicyOp) (k : string) (count : nat) : nat :=
  match op with
  | PGet key => if bool_decide (key = k) && Policy.has k p then S count else count
  | PSet key =>
      if bool_decide (key = k) then (if Policy.has k p then S count else 1%nat) else count
  | _ => count
  end.

Fixpoint useCount_from (count : nat) (p : EvictionPolicy) (ops : list PolicyOp)
    (k : string) : nat :=
  match ops with
  | [] => count
  | op :: rest => useCount_from (uses p op k count) (Policy_step p op) rest k
  end.

Definition useCount (p0 : EvictionPolicy) (ops : list PolicyOp) (k : string) : nat :=
  useCount_from 0 p0 ops k.

(** The invariant of the LFU policy with respect to a count [c] and a time
    stamp [s] of the keys: the frequency of a resident key is its count, no
    frequency is below [minFrequency] or below 1, and every frequency list is
    in ascending order of the stamps. *)
Definition LFU_tracks (c s : string → nat) (q : LFUPolicy.t) : Prop :=
  LFU_wf q ∧
  (∀ k f, LFUPolicy.cache q !! k = Some f →
          f = c k ∧ (LFUPolicy.minFrequency q ≤ f)%nat ∧ (1 ≤ f)%nat) ∧
  (∀ f l, LFUPolicy.frequencyMap q !! f = Some l → ascending s l).

(** The bytes that the estimate gives to the entries of a store, from their
    keys and values alone, and the stores whose entries record that
    estimate in their [size] field. *)
Definition contentBytes (m : list (string * CacheEntry.t)) : Z :=
  foldr (fun kv acc => calculateEntrySize (fst kv) (CacheEntry.value (snd kv)) + acc) 0 m.

Definition sized (kv : string * CacheEntry.t) : Prop :=
  CacheEntry.size (snd kv) = calculateEntrySize (fst kv) (CacheEntry.value (snd kv)).

(** A sequence of hits ([true]) and misses ([false]) recorded by a tracker,
    each with the value that [Date.now ()] returns in [recordOperation]. *)
Definition recordAll (events : list (bool * Z)) (s : StatisticsTracker.t)
    : StatisticsTracker.t :=
  fold_left
    (fun (s : StatisticsTracker.t) (ev : bool * Z) =>
       if fst ev then StatisticsTracker.recordHit (snd ev) s
       else StatisticsTracker.recordMiss (snd ev) s)
    events s.

(** The clock does not go back between the events. *)
Definition nondecreasing (times : list Z) : Prop :=
  ∀ i j a b, (i ≤ j)%nat → times !! i = Some a → times !! j = Some b → a ≤ b.

(** Successive INCREMENTs of one key, with the results in order, and the
    running sums of the amounts from a base, each the JavaScript sum of the
    previous one and the next amount. *)
Section Counters.
Variable clock : nat → Z.

Fixpoint incrementAll (key : string) (amounts : list float) (w : World)
    : list IncrementResult * World :=
  match amounts with
  | [] => ([], w)
  | amount :: rest =>
      let '(r, w1) := increment clock key amount w in
      let '(rs, w2) := incrementAll key rest w1 in
      (r :: rs, w2)
  end.
End Counters.

Fixpoint runningSums (base : float) (amounts : list float) : list float :=
  match amounts with
  | [] => []
  | amount :: rest => (base + amount)%float :: runningSums (base + amount) rest
  end.

(** ** Facts about [JSMap] *)

Section JSMapFacts.
Context {V : Type}.
Implicit Types (m : list (string * V)) (k : string) (v : V).

Lemma JSMap_get_set_eq k v m : JSMap.get k (JSMap.set k v m) = Some v.
Proof.
  induction m as [|[k' x] m IH]; simpl.
  - by rewrite decide_True.
  - destruct (decide (k' = k)) as [->|Hne]; simpl.
    + by rewrite decide_True.
    + by rewrite decide_False.
Qed.

Lemma JSMap_get_set_ne k k' v m :
  k ≠ k' → JSMap.get k' (JSMap.set k v m) = JSMap.get k' m.
Proof.
  intros Hne. induction m as [|[k0 x] m IH]; simpl.
  - by rewrite decide_False.
  - destruct (decide (k0 = k)) as [->|Hne0]; simpl.
    + by rewrite !decide_False.
    + by rewrite IH.
Qed.

Lemma JSMap_get_elem_of k m : is_Some (JSMap.get k m) ↔ k ∈ JSMap.keys m.
Proof.
  unfold JSMap.keys. induction m as [|[k' x] m IH]; simpl.
  - rewrite elem_of_nil. split; [intros [? ?]; discriminate | tauto].
  - rewrite elem_of_cons. destruct (decide (k' = k)) as [->|Hne].
    + split; eauto.
    + rewrite IH. split; [tauto | intros [?|?]; congruence].
Qed.

Lemma JSMap_get_None k m : JSMap.get k m = None ↔ k ∉ JSMap.keys m.
Proof.
  rewrite <- JSMap_get_elem_of. destruct (JSMap.get k m); split; intros H.
  - discriminate.
  - exfalso. apply H. eauto.
  - intros [? ?]; discriminate.
  - done.
Qed.

Lemma JSMap_get_delete_ne k k' m :
  k ≠ k' → JSMap.get k' (JSMap.delete k m) = JSMap.get k' m.
Proof.
  intros Hne. induction m as [|[k0 x] m IH]; simpl; [done|].
  destruct (decide (k0 = k)) as [->|Hne0]; simpl.
  - by rewrite decide_False.
  - by rewrite IH.
Qed.

Lemma JSMap_get_delete_eq k m :
  NoDup (JSMap.keys m) → JSMap.get k (JSMap.delete k m) = None.
Proof.
  induction m as [|[k0 x] m IH]; simpl; [done|].
  rewrite NoDup_cons. intros [Hnotin Hnd].
  destruct (decide (k0 = k)) as [->|Hne0]; simpl.
  - by apply JSMap_get_None.
  - rewrite decide_False by done. auto.
Qed.

Lemma JSMap_keys_set_present k v m :
  is_Some (JSMap.get k m) → JSMap.keys (JSMap.set k v m) = JSMap.keys m.
Proof.
  unfold JSMap.keys. induction m as [|[k0 x] m IH]; simpl.
  - intros [? ?]; discriminate.
  - destruct (decide (k0 = k)) as [->|Hne0]; simpl; [done|].
    intros H. by rewrite IH.
Qed.

Lemma JSMap_keys_set_absent k v m :
  JSMap.get k m = None → JSMap.keys (JSMap.set k v m) = JSMap.keys m ++ [k].
Proof.
  unfold JSMap.keys. induction m as [|[k0 x] m IH]; simpl; [done|].
  destruct (decide (k0 = k)) as [->|Hne0]; simpl; [discriminate|].
  intros H. by rewrite IH.
Qed.

Lemma JSMap_NoDup_set k v m :
  NoDup (JSMap.keys m) → NoDup (JSMap.keys (JSMap.set k v m)).
Proof.
  intros Hnd. destruct (JSMap.get k m) eqn:Hget.
  - rewrite JSMap_keys_set_present; eauto.
  - rewrite JSMap_keys_set_absent by done.
    apply NoDup_app. split_and!; [done| |apply NoDup_singleton].
    intros x Hx. rewrite list_elem_of_singleton. intros ->.
    by apply JSMap_get_None in Hget.
Qed.

Lemma JSMap_elem_of_delete k k' m :
  k' ∈ JSMap.keys (JSMap.delete k m) → k' ∈ JSMap.keys m.
Proof.
  unfold JSMap.keys. induction m as [|[k0 x] m IH]; simpl; [done|].
  destruct (decide (k0 = k)) as [->|Hne0]; simpl; rewrite !elem_of_cons; tauto.
Qed.

Lemma JSMap_NoDup_delete k m :
  NoDup (JSMap.keys m) → NoDup (JSMap.keys (JSMap.delete k m)).
Proof.
  induction m as [|[k0 x] m IH]; simpl; [done|].
  rewrite NoDup_cons. intros [Hnotin Hnd].
  destruct (decide (k0 = k)) as [->|Hne0]; simpl; [done|].
  apply NoDup_cons. split; [|auto].
  intros Hin. apply Hnotin. by eapply JSMap_elem_of_delete.
Qed.

Lemma JSMap_length_delete k m :
  is_Some (JSMap.get k m) → length m = S (length (JSMap.delete k m)).
Proof.
  induction m as [|[k0 x] m IH]; simpl.
  - intros [? ?]; discriminate.
  - destruct (decide (k0 = k)) as [->|Hne0]; simpl; [done|].
    intros H. by rewrite <- IH.
Qed.

Lemma JSMap_get_nil_inv m : (∀ k, JSMap.get k m = None) → m = [].
Proof.
  destruct m as [|[k x] m]; [done|].
  intros H. specialize (H k). simpl in H. by rewrite decide_True in H.
Qed.
End JSMapFacts.

Lemma storeBytes_set_present k entry old m :
  JSMap.get k m = Some old →
  storeBytes (JSMap.set k entry m)
  = storeBytes m - CacheEntry.size old + CacheEntry.size entry.
Proof.
  induction m as [|[k0 x] m IH]; simpl; [done|].
  destruct (decide (k0 = k)) as [->|Hne0]; simpl.
  - intros [= ->]. lia.
  - intros H. rewrite IH by done. lia.
Qed.

Lemma storeBytes_set_absent k entry m :
  JSMap.get k m = None →
  storeBytes (JSMap.set k entry m) = storeBytes m + CacheEntry.size entry.
Proof.
  induction m as [|[k0 x] m IH]; simpl; [intros; lia|].
  destruct (decide (k0 = k)) as [->|Hne0]; simpl; [discriminate|].
  intros H. rewrite IH by done. lia.
Qed.

Lemma storeBytes_delete k old m :
  JSMap.get k m = Some old →
  storeBytes (JSMap.delete k m) = storeBytes m - CacheEntry.size old.
Proof.
  induction m as [|[k0 x] m IH]; simpl; [done|].
  destruct (decide (k0 = k)) as [->|Hne0]; simpl.
  - intros [= ->]. lia.
  - intros H. rewrite IH by done. lia.
Qed.

(** ** Facts about the policies: how each operation changes the key set *)

Lemma removeNode_elem_of k k' l : k' ∈ removeNode k l ↔ k' ≠ k ∧ k' ∈ l.
Proof. unfold removeNode. by rewrite list_elem_of_filter. Qed.

Lemma removeNode_NoDup k l : NoDup l → NoDup (removeNode k l).
Proof. apply NoDup_filter. Qed.

Lemma removeNode_absent k l : k ∉ l → removeNode k l = l.
Proof.
  unfold removeNode. induction l as [|x l IH]; [done|].
  rewrite not_elem_of_cons. intros [Hne Hnotin].
  rewrite filter_cons_True by done. by rewrite IH.
Qed.

Lemma removeNode_snoc k l : k ∉ l → removeNode k (l ++ [k]) = l.
Proof.
  intros Hnotin. unfold removeNode. rewrite filter_app.
  fold (removeNode k l). rewrite removeNode_absent by done.
  rewrite filter_cons_False by (intros H; by apply H).
  by rewrite filter_nil, app_nil_r.
Qed.

Lemma removeNode_head k l : k ∉ l → removeNode k (k :: l) = l.
Proof.
  intros Hnotin. unfold removeNode.
  rewrite filter_cons_False by (intros H; by apply H).
  by apply removeNode_absent.
Qed.

Ltac has_iff :=
  unfold LRUPolicy.has, FIFOPolicy.has, LFUPolicy.has;
  rewrite ?bool_decide_eq_true, ?bool_decide_eq_false.

Section LRUFacts.
Import LRUPolicy.

Lemma LRU_has_true k p : has k p = true ↔ k ∈ order p.
Proof. by has_iff. Qed.

Lemma LRU_evict_spec p ev p' :
  NoDup (order p) → evictLRU p = (ev, p') →
  NoDup (order p') ∧ capacity p' = capacity p ∧
  match ev with
  | Some v => has v p = true ∧ ∀ k, has k p' = true ↔ has k p = true ∧ k ≠ v
  | None => order p = [] ∧ p' = p
  end.
Proof.
  intros Hnd. unfold evictLRU. destruct (last (order p)) as [v|] eqn:Hlast.
  - intros [= <- <-]. simpl. split_and!; [by apply removeNode_NoDup|done| |].
    + apply LRU_has_true. by apply last_Some_elem_of.
    + intros k. rewrite !LRU_has_true. simpl. rewrite removeNode_elem_of. tauto.
  - intros [= <- <-]. split_and!; try done. by apply last_None.
Qed.

Lemma LRU_get_spec key p r p' :
  NoDup (order p) → get key p = (r, p') →
  NoDup (order p') ∧ capacity p' = capacity p ∧ ∀ k, has k p' = true ↔ has k p = true.
Proof.
  intros Hnd. unfold get. destruct (has key p) eqn:Hhas; intros [= <- <-]; [|done].
  apply LRU_has_true in Hhas. simpl. split_and!; [|done|].
  - unfold moveToHead, addToHead. apply NoDup_cons. split.
    + rewrite removeNode_elem_of. tauto.
    + by apply removeNode_NoDup.
  - intros k. rewrite !LRU_has_true. simpl. unfold moveToHead, addToHead.
    rewrite elem_of_cons, removeNode_elem_of.
    destruct (decide (k = key)) as [->|]; tauto.
Qed.

Lemma LRU_delete_spec key p r p' :
  NoDup (order p) → delete key p = (r, p') →
  NoDup (order p') ∧ capacity p' = capacity p ∧
  ∀ k, has k p' = true ↔ has k p = true ∧ k ≠ key.
Proof.
  intros Hnd. unfold delete. destruct (has key p) eqn:Hhas; intros [= <- <-].
  - simpl. split_and!; [by apply removeNode_NoDup|done|].
    intros k. rewrite !LRU_has_true. simpl. rewrite removeNode_elem_of. tauto.
  - split_and!; try done. intros k. split; [|tauto].
    intros Hk. split; [done|]. intros ->. congruence.
Qed.

Lemma LRU_set_spec key p ev p' :
  NoDup (order p) → set key p = (ev, p') →
  NoDup (order p') ∧ capacity p' = capacity p ∧
  (has key p = true ∨ capacity p = 0 →
     ev = None ∧ ∀ k, has k p' = true ↔ has k p = true) ∧
  (has key p = false → capacity p ≠ 0 →
     match ev with
     | Some v => has v p = true ∧ ∀ k, has k p' = true ↔ k = key ∨ (has k p = true ∧ k ≠ v)
     | None => ∀ k, has k p' = true ↔ k = key ∨ has k p = true
     end).
Proof.
  intros Hnd. unfold set. destruct (has key p) eqn:Hhas.
  - intros [= <- <-].
    destruct (LRU_get_spec key p true (mk (capacity p) (moveToHead key (order p))) Hnd)
      as (Hnd' & Hcap & Hsame).
    { unfold get. by rewrite Hhas. }
    split_and!; try done.
  - destruct (if (0 <? capacity p) && (capacity p <=? size p) then evictLRU p else (None, p))
      as [ev1 p1] eqn:Hev.
    assert (NoDup (order p1) ∧ capacity p1 = capacity p ∧
            match ev1 with
            | Some v => has v p = true ∧ ∀ k, has k p1 = true ↔ has k p = true ∧ k ≠ v
            | None => p1 = p
            end) as (Hnd1 & Hcap1 & Hev1).
    { destruct ((0 <? capacity p) && (capacity p <=? size p)).
      - destruct (LRU_evict_spec p ev1 p1 Hnd Hev) as (? & ? & Hm).
        split_and!; try done. destruct ev1; [done|]. by destruct Hm.
      - by injection Hev as <- <-. }
    destruct (capacity p =? 0) eqn:Hzero; intros [= <- <-].
    + apply Z.eqb_eq in Hzero. rewrite Hzero in Hev. simpl in Hev.
      injection Hev as <- <-. by split_and!.
    + apply Z.eqb_neq in Hzero. simpl.
      assert (key ∉ order p) as Hnotin by (by rewrite <- LRU_has_true, Hhas).
      split_and!; try done.
      * unfold addToHead. apply NoDup_cons. split; [|done].
        destruct ev1 as [v|].
        -- destruct Hev1 as [_ Hk]. rewrite <- LRU_has_true, Hk, LRU_has_true. tauto.
        -- by subst p1.
      * intros [?|?]; congruence.
      * intros _ _. destruct ev1 as [v|].
        -- destruct Hev1 as [Hv Hk]. split; [done|]. intros k.
           rewrite LRU_has_true. simpl. unfold addToHead.
           rewrite elem_of_cons, <- LRU_has_true, Hk. tauto.
        -- subst p1. intros k. rewrite !LRU_has_true. simpl. unfold addToHead.
           by rewrite elem_of_cons.
Qed.
End LRUFacts.

Section FIFOFacts.
Import FIFOPolicy.

Lemma FIFO_has_true k p : has k p = true ↔ k ∈ order p.
Proof. by has_iff. Qed.

Lemma FIFO_evict_spec p ev p' :
  NoDup (order p) → evictFIFO p = (ev, p') →
  NoDup (order p') ∧ capacity p' = capacity p ∧
  match ev with
  | Some v => has v p = true ∧ ∀ k, has k p' = true ↔ has k p = true ∧ k ≠ v
  | None => order p = [] ∧ p' = p
  end.
Proof.
  intros Hnd. unfold evictFIFO. destruct (order p) as [|v l] eqn:Horder.
  - intros [= <- <-]. by rewrite Horder.
  - intros [= <- <-]. simpl. split_and!; [by apply removeNode_NoDup|done| |].
    + apply FIFO_has_true. rewrite Horder. apply elem_of_cons. by left.
    + intros k. rewrite !FIFO_has_true. simpl. rewrite removeNode_elem_of, Horder. tauto.
Qed.

Lemma FIFO_get_spec key p r p' :
  NoDup (order p) → get key p = (r, p') →
  NoDup (order p') ∧ capacity p' = capacity p ∧ ∀ k, has k p' = true ↔ has k p = true.
Proof. intros Hnd [= <- <-]. done. Qed.

Lemma FIFO_delete_spec key p r p' :
  NoDup (order p) → delete key p = (r, p') →
  NoDup (order p') ∧ capacity p' = capacity p ∧
  ∀ k, has k p' = true ↔ has k p = true ∧ k ≠ key.
Proof.
  intros Hnd. unfold delete. destruct (has key p) eqn:Hhas; intros [= <- <-].
  - simpl. split_and!; [by apply removeNode_NoDup|done|].
    intros k. rewrite !FIFO_has_true. simpl. rewrite removeNode_elem_of. tauto.
  - split_and!; try done. intros k. split; [|tauto].
    intros Hk. split; [done|]. intros ->. congruence.
Qed.

Lemma FIFO_set_spec key p ev p' :
  NoDup (order p) → set key p = (ev, p') →
  NoDup (order p') ∧ capacity p' = capacity p ∧
  (has key p = true ∨ capacity p = 0 →
     ev = None ∧ ∀ k, has k p' = true ↔ has k p = true) ∧
  (has key p = false → capacity p ≠ 0 →
     match ev with
     | Some v => has v p = true ∧ ∀ k, has k p' = true ↔ k = key ∨ (has k p = true ∧ k ≠ v)
     | None => ∀ k, has k p' = true ↔ k = key ∨ has k p = true
     end).
Proof.
  intros Hnd. unfold set. destruct (has key p) eqn:Hhas.
  - intros [= <- <-]. split_and!; try done.
  - destruct (if (0 <? capacity p) && (capacity p <=? size p) then evictFIFO p else (None, p))
      as [ev1 p1] eqn:Hev.
    assert (NoDup (order p1) ∧ capacity p1 = capacity p ∧
            match ev1 with
            | Some v => has v p = true ∧ ∀ k, has k p1 = true ↔ has k p = true ∧ k ≠ v
            | None => p1 = p
            end) as (Hnd1 & Hcap1 & Hev1).
    { destruct ((0 <? capacity p) && (capacity p <=? size p)).
      - destruct (FIFO_evict_spec p ev1 p1 Hnd Hev) as (? & ? & Hm).
        split_and!; try done. destruct ev1; [done|]. by destruct Hm.
      - by injection Hev as <- <-. }
    destruct (capacity p =? 0) eqn:Hzero; intros [= <- <-].
    + apply Z.eqb_eq in Hzero. rewrite Hzero in Hev. simpl in Hev.
      injection Hev as <- <-. by split_and!.
    + apply Z.eqb_neq in Hzero. simpl.
      assert (key ∉ order p) as Hnotin by (by rewrite <- FIFO_has_true, Hhas).
      assert (key ∉ order p1) as Hnotin1.
      { destruct ev1 as [v|].
        - destruct Hev1 as [_ Hk]. rewrite <- FIFO_has_true, Hk, FIFO_has_true. tauto.
        - by subst p1. }
      split_and!; try done.
      * unfold addToTail. apply NoDup_app. split_and!; [done| |apply NoDup_singleton].
        intros x Hx. rewrite list_elem_of_singleton. by intros ->.
      * intros [?|?]; congruence.
      * intros _ _. destruct ev1 as [v|].
        -- destruct Hev1 as [Hv Hk]. split; [done|]. intros k.
           rewrite FIFO_has_true. simpl. unfold addToTail.
           rewrite elem_of_app, list_elem_of_singleton, <- FIFO_has_true, Hk. tauto.
        -- subst p1. intros k. rewrite !FIFO_has_true. simpl. unfold addToTail.
           rewrite elem_of_app, list_elem_of_singleton. tauto.
Qed.
End FIFOFacts.

Section LFUFacts.
Import LFUPolicy.

Lemma LFU_has_true k p : has k p = true ↔ is_Some (cache p !! k).
Proof. by has_iff. Qed.

Lemma LFU_member_remove key f fm f' k :
  LFU_member (removeFromFrequencyList key f fm) f' k
  ↔ LFU_member fm f' k ∧ ¬ (f' = f ∧ k = key).
Proof.
  unfold removeFromFrequencyList, LFU_member. destruct (fm !! f) as [l|] eqn:E.
  - destruct (removeNode key l) as [|x l'] eqn:R.
    + split.
      * intros (l0 & Hl0 & Hin). apply lookup_delete_Some in Hl0 as [Hne Hl0].
        split; [eauto|]. intros [-> _]. done.
      * intros [(l0 & Hl0 & Hin) Hnot]. destruct (decide (f' = f)) as [->|Hne].
        -- rewrite E in Hl0. injection Hl0 as <-.
           assert (k ∈ removeNode key l) as Hk.
           { apply removeNode_elem_of. split; [|done]. intros ->. by apply Hnot. }
           rewrite R in Hk. by apply elem_of_nil in Hk.
        -- exists l0. by rewrite lookup_delete_ne.
    + rewrite <- R. split.
      * intros (l0 & Hl0 & Hin). apply lookup_insert_Some in Hl0 as [[<- <-]|[Hne Hl0]].
        -- apply removeNode_elem_of in Hin as [? ?]. split; [eauto|]. by intros [_ ->].
        -- split; [eauto|]. by intros [-> _].
      * intros [(l0 & Hl0 & Hin) Hnot]. destruct (decide (f' = f)) as [->|Hne].
        -- rewrite E in Hl0. injection Hl0 as <-. exists (removeNode key l).
           rewrite lookup_insert_eq. split; [done|]. apply removeNode_elem_of.
           split; [|done]. intros ->. by apply Hnot.
        -- exists l0. by rewrite lookup_insert_ne.
  - split; [|tauto]. intros (l0 & Hl0 & Hin). split; [eauto|]. intros [-> _]. congruence.
Qed.

Lemma LFU_member_add key f fm f' k :
  LFU_member (addToFrequencyList key f fm) f' k
  ↔ LFU_member fm f' k ∨ (f' = f ∧ k = key).
Proof.
  unfold addToFrequencyList, LFU_member. split.
  - intros (l0 & Hl0 & Hin). apply lookup_insert_Some in Hl0 as [[<- <-]|[Hne Hl0]].
    + apply elem_of_app in Hin as [Hin|Hin].
      * left. destruct (fm !! f) as [l|]; simpl in Hin; [eauto|]. by apply elem_of_nil in Hin.
      * right. by apply list_elem_of_singleton in Hin.
    + left. eauto.
  - intros [(l0 & Hl0 & Hin)|[-> ->]].
    + destruct (decide (f' = f)) as [->|Hne].
      * eexists. rewrite lookup_insert_eq. split; [done|].
        rewrite Hl0. simpl. apply elem_of_app. by left.
      * exists l0. by rewrite lookup_insert_ne.
    + eexists. rewrite lookup_insert_eq. split; [done|].
      apply elem_of_app. right. by apply list_elem_of_singleton.
Qed.

Lemma LFU_NoDup_remove key f fm :
  (∀ g l, fm !! g = Some l → NoDup l) →
  ∀ g l, removeFromFrequencyList key f fm !! g = Some l → NoDup l.
Proof.
  intros Hnd g l. unfold removeFromFrequencyList.
  destruct (fm !! f) as [l0|] eqn:E; [|by apply Hnd].
  destruct (removeNode key l0) as [|x l'] eqn:R.
  - intros Hl. apply lookup_delete_Some in Hl as [_ Hl]. by eapply Hnd.
  - intros Hl. apply lookup_insert_Some in Hl as [[<- <-]|[_ Hl]]; [|by eapply Hnd].
    rewrite <- R. apply removeNode_NoDup. by eapply Hnd.
Qed.

Lemma LFU_NoDup_add key f fm :
  (∀ g l, fm !! g = Some l → NoDup l) →
  ¬ LFU_member fm f key →
  ∀ g l, addToFrequencyList key f fm !! g = Some l → NoDup l.
Proof.
  intros Hnd Hnot g l. unfold addToFrequencyList.
  intros Hl. apply lookup_insert_Some in Hl as [[<- <-]|[_ Hl]]; [|by eapply Hnd].
  apply NoDup_app. split_and!; [| |apply NoDup_singleton].
  - destruct (fm !! f) as [l0|] eqn:E; simpl; [by eapply Hnd|apply NoDup_nil_2].
  - intros x Hx. rewrite list_elem_of_singleton. intros ->. apply Hnot.
    destruct (fm !! f) as [l0|] eqn:E; simpl in Hx.
    + by exists l0.
    + by apply elem_of_nil in Hx.
Qed.

Lemma LFU_increaseFrequency_spec key f p :
  LFU_wf p → cache p !! key = Some f →
  LFU_wf (increaseFrequency key f p) ∧
  capacity (increaseFrequency key f p) = capacity p ∧
  ∀ k, has k (increaseFrequency key f p) = true ↔ has k p = true.
Proof.
  intros [Hnd Hmem] Hkey. split_and!; [split| |]; simpl.
  - apply LFU_NoDup_add; [by apply LFU_NoDup_remove|].
    rewrite LFU_member_remove, Hmem, Hkey. intros [[=] _]. lia.
  - intros g k. rewrite LFU_member_add, LFU_member_remove, Hmem.
    destruct (decide (k = key)) as [->|Hne].
    + rewrite lookup_insert_eq, Hkey. split.
      * intros [[[= ->] Hnot]|[-> _]]; [|done]. exfalso. by apply Hnot.
      * intros [= <-]. by right.
    + rewrite lookup_insert_ne by done. split; [|intros ?; left; split; [done|]]; tauto.
  - done.
  - intros k. rewrite !LFU_has_true. simpl.
    destruct (decide (k = key)) as [->|Hne].
    + rewrite lookup_insert_eq, Hkey. split; eauto.
    + by rewrite lookup_insert_ne.
Qed.

Lemma LFU_remove_node_wf key f p fm' m :
  LFU_wf p → cache p !! key = Some f →
  fm' = removeFromFrequencyList key f (frequencyMap p) →
  LFU_wf (mk (capacity p) (base.delete key (cache p)) fm' m).
Proof.
  intros [Hnd Hmem] Hkey ->. split; simpl.
  - by apply LFU_NoDup_remove.
  - intros g k. rewrite LFU_member_remove, Hmem, lookup_delete_Some. split.
    + intros [Hk Hnot]. split; [|done]. intros ->. apply Hnot. split; [|done]. congruence.
    + intros [Hne Hk]. split; [done|]. intros [_ ->]. done.
Qed.

Lemma LFU_evict_spec p ev p' :
  LFU_wf p → evictLFU p = (ev, p') →
  LFU_wf p' ∧ capacity p' = capacity p ∧
  match ev with
  | Some v => has v p = true ∧ ∀ k, has k p' = true ↔ has k p = true ∧ k ≠ v
  | None => p' = p
  end.
Proof.
  intros Hwf. unfold evictLFU.
  destruct (bool_decide (minFrequency p = 0%nat)); [by intros [= <- <-]|].
  destruct (frequencyMap p !! minFrequency p) as [[|v l]|] eqn:E;
    try by intros [= <- <-].
  intros [= <- <-].
  assert (cache p !! v = Some (minFrequency p)) as Hv.
  { apply Hwf. exists (v :: l). split; [done|]. apply elem_of_cons. by left. }
  rewrite Hv. simpl. split_and!.
  - by eapply LFU_remove_node_wf.
  - done.
  - apply LFU_has_true. eauto.
  - intros k. rewrite !LFU_has_true. simpl. unfold is_Some.
    setoid_rewrite lookup_delete_Some. split.
    + intros (x & Hne & Hk). eauto.
    + intros [[x Hk] Hne]. eauto.
Qed.

Lemma LFU_get_spec key p r p' :
  LFU_wf p → get key p = (r, p') →
  LFU_wf p' ∧ capacity p' = capacity p ∧ ∀ k, has k p' = true ↔ has k p = true.
Proof.
  intros Hwf. unfold get. destruct (cache p !! key) as [f|] eqn:Hkey; intros [= <- <-].
  - by apply LFU_increaseFrequency_spec.
  - done.
Qed.

Lemma LFU_delete_spec key p r p' :
  LFU_wf p → delete key p = (r, p') →
  LFU_wf p' ∧ capacity p' = capacity p ∧
  ∀ k, has k p' = true ↔ has k p = true ∧ k ≠ key.
Proof.
  intros Hwf. unfold delete. destruct (cache p !! key) as [f|] eqn:Hkey; intros [= <- <-].
  - split_and!; [by eapply LFU_remove_node_wf|done|].
    intros k. rewrite !LFU_has_true. simpl. unfold is_Some.
    setoid_rewrite lookup_delete_Some. split.
    + intros (x & Hne & Hk). eauto.
    + intros [[x Hk] Hne]. eauto.
  - split_and!; try done. intros k. rewrite LFU_has_true. split; [|tauto].
    intros Hk. split; [done|]. intros ->. rewrite Hkey in Hk. by destruct Hk.
Qed.

Lemma LFU_set_spec key p ev p' :
  LFU_wf p → set key p = (ev, p') →
  LFU_wf p' ∧ capacity p' = capacity p ∧
  (has key p = true ∨ capacity p = 0 →
     ev = None ∧ ∀ k, has k p' = true ↔ has k p = true) ∧
  (has key p = false → capacity p ≠ 0 →
     match ev with
     | Some v => has v p = true ∧ ∀ k, has k p' = true ↔ k = key ∨ (has k p = true ∧ k ≠ v)
     | None => ∀ k, has k p' = true ↔ k = key ∨ has k p = true
     end).
Proof.
  intros Hwf. unfold set. destruct (cache p !! key) as [f|] eqn:Hkey.
  - intros [= <- <-].
    destruct (LFU_increaseFrequency_spec key f p Hwf Hkey) as (Hwf' & Hcap & Hsame).
    split_and!; try done.
    intros Hfalse. exfalso. apply bool_decide_eq_false in Hfalse. apply Hfalse.
    rewrite Hkey. eauto.
  - assert (has key p = false) as Hhas.
    { apply bool_decide_eq_false. rewrite Hkey. by intros [? ?]. }
    destruct (if (0 <? capacity p) && (capacity p <=? size p) then evictLFU p else (None, p))
      as [ev1 p1] eqn:Hev.
    assert (LFU_wf p1 ∧ capacity p1 = capacity p ∧
            match ev1 with
            | Some v => has v p = true ∧ ∀ k, has k p1 = true ↔ has k p = true ∧ k ≠ v
            | None => p1 = p
            end) as (Hwf1 & Hcap1 & Hev1).
    { destruct ((0 <? capacity p) && (capacity p <=? size p)).
      - by apply LFU_evict_spec.
      - by injection Hev as <- <-. }
    destruct (capacity p =? 0) eqn:Hzero; intros [= <- <-].
    + apply Z.eqb_eq in Hzero. rewrite Hzero in Hev. simpl in Hev.
      injection Hev as <- <-. by split_and!.
    + apply Z.eqb_neq in Hzero. simpl.
      assert (cache p1 !! key = None) as Hkey1.
      { destruct ev1 as [v|]; [|by subst p1]. destruct Hev1 as [_ Hk].
        specialize (Hk key). rewrite Hhas in Hk.
        destruct (cache p1 !! key) eqn:Hc; [|done]. exfalso.
        assert (has key p1 = true) as H1 by (apply LFU_has_true; eauto).
        by apply Hk in H1 as [? _]. }
      assert (∀ k, has k (mk (capacity p) (<[key:=1%nat]> (cache p1))
                     (addToFrequencyList key 1%nat (frequencyMap p1))
                     (if bool_decide (minFrequency p1 = 0%nat)
                         || bool_decide (1 < minFrequency p1)%nat
                      then 1%nat else minFrequency p1)) = true
                   ↔ k = key ∨ has k p1 = true) as Hnew.
      { intros k. rewrite !LFU_has_true. simpl.
        destruct (decide (k = key)) as [->|Hne].
        - rewrite lookup_insert_eq. split; eauto.
        - rewrite lookup_insert_ne by done. split; [tauto|]. by intros [?|?]. }
      destruct Hwf1 as [Hnd1 Hmem1].
      split_and!; [split| | |]; simpl.
      * apply LFU_NoDup_add; [done|]. rewrite Hmem1, Hkey1. done.
      * intros g k. rewrite LFU_member_add, Hmem1.
        destruct (decide (k = key)) as [->|Hne].
        -- rewrite lookup_insert_eq, Hkey1. split.
           ++ intros [?|[-> _]]; done.
           ++ intros [= <-]. by right.
        -- rewrite lookup_insert_ne by done. split; [|tauto]. intros [?|[_ ?]]; done.
      * done.
      * intros [?|?]; congruence.
      * intros _ _. destruct ev1 as [v|].
        -- destruct Hev1 as [Hv Hk]. split; [done|]. intros k. by rewrite Hnew, Hk.
        -- subst p1. apply Hnew.
Qed.
End LFUFacts.

(** The same facts behind the interface. *)

Lemma Policy_get_spec key p r p' :
  Policy_wf p → Policy.get key p = (r, p') →
  Policy_wf p' ∧ Policy.capacity p' = Policy.capacity p ∧ policyName p' = policyName p ∧
  ∀ k, Policy.has k p' = true ↔ Policy.has k p = true.
Proof.
  destruct p as [q|q|q]; simpl; intros Hwf.
  - destruct (LRUPolicy.get key q) as [r0 q'] eqn:E. intros [= <- <-]. simpl.
    destruct (LRU_get_spec _ _ _ _ Hwf E) as (? & ? & ?). done.
  - destruct (LFUPolicy.get key q) as [r0 q'] eqn:E. intros [= <- <-]. simpl.
    destruct (LFU_get_spec _ _ _ _ Hwf E) as (? & ? & ?). done.
  - destruct (FIFOPolicy.get key q) as [r0 q'] eqn:E. intros [= <- <-]. simpl.
    destruct (FIFO_get_spec _ _ _ _ Hwf E) as (? & ? & ?). done.
Qed.

Lemma Policy_delete_spec key p r p' :
  Policy_wf p → Policy.delete key p = (r, p') →
  Policy_wf p' ∧ Policy.capacity p' = Policy.capacity p ∧ policyName p' = policyName p ∧
  ∀ k, Policy.has k p' = true ↔ Policy.has k p = true ∧ k ≠ key.
Proof.
  destruct p as [q|q|q]; simpl; intros Hwf.
  - destruct (LRUPolicy.delete key q) as [r0 q'] eqn:E. intros [= <- <-]. simpl.
    destruct (LRU_delete_spec _ _ _ _ Hwf E) as (? & ? & ?). done.
  - destruct (LFUPolicy.delete key q) as [r0 q'] eqn:E. intros [= <- <-]. simpl.
    destruct (LFU_delete_spec _ _ _ _ Hwf E) as (? & ? & ?). done.
  - destruct (FIFOPolicy.delete key q) as [r0 q'] eqn:E. intros [= <- <-]. simpl.
    destruct (FIFO_delete_spec _ _ _ _ Hwf E) as (? & ? & ?). done.
Qed.

Lemma Policy_evict_spec p ev p' :
  Policy_wf p → Policy.evict p = (ev, p') →
  Policy_wf p' ∧ Policy.capacity p' = Policy.capacity p ∧ policyName p' = policyName p ∧
  match ev with
  | Some v => Policy.has v p = true ∧ ∀ k, Policy.has k p' = true ↔ Policy.has k p = true ∧ k ≠ v
  | None => p' = p ∧ (policyName p ≠ LFU → ∀ k, Policy.has k p = false)
  end.
Proof.
  destruct p as [q|q|q]; simpl; intros Hwf.
  - destruct (LRUPolicy.evict q) as [r0 q'] eqn:E. intros [= <- <-]. simpl.
    destruct (LRU_evict_spec _ _ _ Hwf E) as (? & ? & Hm). split_and!; try done.
    destruct r0; [done|]. destruct Hm as [Hnil ->]. split; [done|]. intros _ k.
    apply bool_decide_eq_false. rewrite Hnil. apply not_elem_of_nil.
  - destruct (LFUPolicy.evict q) as [r0 q'] eqn:E. intros [= <- <-]. simpl.
    destruct (LFU_evict_spec _ _ _ Hwf E) as (? & ? & Hm). split_and!; try done.
    destruct r0; [done|]. by subst q'.
  - destruct (FIFOPolicy.evict q) as [r0 q'] eqn:E. intros [= <- <-]. simpl.
    destruct (FIFO_evict_spec _ _ _ Hwf E) as (? & ? & Hm). split_and!; try done.
    destruct r0; [done|]. destruct Hm as [Hnil ->]. split; [done|]. intros _ k.
    apply bool_decide_eq_false. rewrite Hnil. apply not_elem_of_nil.
Qed.

Lemma Policy_set_spec key p ev p' :
  Policy_wf p → Policy.set key p = (ev, p') →
  Policy_wf p' ∧ Policy.capacity p' = Policy.capacity p ∧ policyName p' = policyName p ∧
  (Policy.has key p = true ∨ Policy.capacity p = 0 →
     ev = None ∧ ∀ k, Policy.has k p' = true ↔ Policy.has k p = true) ∧
  (Policy.has key p = false → Policy.capacity p ≠ 0 →
     match ev with
     | Some v =>
         Policy.has v p = true ∧
         ∀ k, Policy.has k p' = true ↔ k = key ∨ (Policy.has k p = true ∧ k ≠ v)
     | None => ∀ k, Policy.has k p' = true ↔ k = key ∨ Policy.has k p = true
     end).
Proof.
  destruct p as [q|q|q]; simpl; intros Hwf.
  - destruct (LRUPolicy.set key q) as [r0 q'] eqn:E. intros [= <- <-]. simpl.
    destruct (LRU_set_spec _ _ _ _ Hwf E) as (? & ? & ? & ?). done.
  - destruct (LFUPolicy.set key q) as [r0 q'] eqn:E. intros [= <- <-]. simpl.
    destruct (LFU_set_spec _ _ _ _ Hwf E) as (? & ? & ? & ?). done.
  - destruct (FIFOPolicy.set key q) as [r0 q'] eqn:E. intros [= <- <-]. simpl.
    destruct (FIFO_set_spec _ _ _ _ Hwf E) as (? & ? & ? & ?). done.
Qed.

Lemma Policy_clear_spec p :
  Policy_wf (Policy.clear p) ∧ Policy.capacity (Policy.clear p) = Policy.capacity p ∧
  policyName (Policy.clear p) = policyName p ∧ ∀ k, Policy.has k (Policy.clear p) = false.
Proof.
  destruct p as [q|q|q]; simpl; split_and!; try done; try apply NoDup_nil_2.
  split; cbn.
  - intros f l Hl. by rewrite lookup_empty in Hl.
  - intros f k. unfold LFU_member. split.
    + intros (l & Hl & _). by rewrite lookup_empty in Hl.
    + intros Hk. by rewrite lookup_empty in Hk.
Qed.

Lemma Policy_create_spec cfg :
  Policy_wf (createEvictionPolicy cfg) ∧
  Policy.capacity (createEvictionPolicy cfg) = CacheConfig.maxKeys cfg ∧
  policyName (createEvictionPolicy cfg) = CacheConfig.evictionPolicy cfg ∧
  ∀ k, Policy.has k (createEvictionPolicy cfg) = false.
Proof.
  unfold createEvictionPolicy, LRUPolicy.new, LFUPolicy.new, FIFOPolicy.new.
  destruct (CacheConfig.evictionPolicy cfg); simpl; split_and!; try done;
    try apply NoDup_nil_2.
  split; cbn.
  - intros f l Hl. by rewrite lookup_empty in Hl.
  - intros f k. unfold LFU_member. split.
    + intros (l & Hl & _). by rewrite lookup_empty in Hl.
    + intros Hk. by rewrite lookup_empty in Hk.
Qed.

(** ** The engine: every operation keeps the invariant *)

Lemma JSMap_get_delete {V} k k' (m : list (string * V)) :
  NoDup (JSMap.keys m) →
  JSMap.get k' (JSMap.delete k m) = if decide (k' = k) then None else JSMap.get k' m.
Proof.
  intros Hnd. destruct (decide (k' = k)) as [->|Hne].
  - by apply JSMap_get_delete_eq.
  - by apply JSMap_get_delete_ne.
Qed.

Ltac unfold_with :=
  unfold with_policy, with_store, with_currentMemoryBytes, with_stats, on_engine in *;
  simpl in *.

Lemma Inv_new cfg : Inv (newCacheEngine cfg).
Proof.
  destruct (Policy_create_spec cfg) as (Hwf & Hcap & Hname & Hhas).
  split; simpl; try done.
  - apply NoDup_nil_2.
  - intros k Hk. by rewrite Hhas in Hk.
  - intros _ k [? ?]. done.
Qed.

(** Removing a resident key from the store and from the policy, as
    [delete], [evictOne] and the eviction branch of [set] do. *)
Lemma Inv_remove key entry e p' st :
  Inv e → JSMap.get key (store e) = Some entry →
  Policy_wf p' → Policy.capacity p' = Policy.capacity (evictionPolicy e) →
  (∀ k, Policy.has k p' = true ↔ Policy.has k (evictionPolicy e) = true ∧ k ≠ key) →
  Inv (mkEngine (JSMap.delete key (store e)) p' st (maxMemoryBytes e)
         (currentMemoryBytes e - CacheEntry.size entry) (memoryThreshold e)).
Proof.
  intros [Hnd Hne Hwf Hps Hsp Hbytes Hsizes] Hget Hwf' Hcap Hhas.
  split; simpl; try done.
  - by apply JSMap_NoDup_delete.
  - rewrite JSMap_get_delete by done. case_decide; done.
  - intros k Hk. apply Hhas in Hk as [Hk Hkne]. unfold resident. simpl.
    rewrite JSMap_get_delete, decide_False by done. by apply Hps.
  - rewrite Hcap. intros Hc k Hk. unfold resident in Hk. simpl in Hk.
    rewrite JSMap_get_delete in Hk by done. case_decide; [by destruct Hk|].
    apply Hhas. split; [|done]. by apply Hsp.
  - erewrite storeBytes_delete by done. lia.
  - intros k x. rewrite JSMap_get_delete by done. case_decide; [done|]. apply Hsizes.
Qed.

Lemma delete_spec key e r e' :
  Inv e → delete key e = (r, e') →
  Inv e' ∧ frame e' = frame e ∧ stats e' = stats e ∧
  currentMemoryBytes e' ≤ currentMemoryBytes e ∧
  (∀ k, JSMap.get k (store e') = if decide (k = key) then None else JSMap.get k (store e)).
Proof.
  intros HInv. unfold delete. destruct (JSMap.get key (store e)) as [entry|] eqn:Hget.
  - intros [= <- <-]. unfold_with.
    destruct (Policy.delete key (evictionPolicy e)) as [r p'] eqn:Hdel.
    destruct (Policy_delete_spec _ _ _ _ (Inv_wf _ HInv) Hdel) as (Hwf' & Hcap & Hname & Hhas).
    simpl. split_and!.
    + by apply Inv_remove.
    + unfold frame. simpl. by rewrite Hcap, Hname.
    + done.
    + pose proof (Inv_sizes _ HInv _ _ Hget). lia.
    + intros k. apply JSMap_get_delete, HInv.
  - intros [= <- <-]. split_and!; try done; try lia.
    intros k. case_decide; [by subst|done].
Qed.

Lemma evictOne_spec e ev e' :
  Inv e → evictOne e = (ev, e') →
  Inv e' ∧ frame e' = frame e ∧
  currentMemoryBytes e' ≤ currentMemoryBytes e ∧
  (∀ k, JSMap.get k (store e') = None ∨ JSMap.get k (store e') = JSMap.get k (store e)) ∧
  match ev with
  | Some v => v ≠ EmptyString ∧ length (store e) = S (length (store e'))
  | None =>
      store e' = store e ∧
      (policyName (evictionPolicy e) ≠ LFU → Policy.capacity (evictionPolicy e) ≠ 0 →
       store e = [])
  end.
Proof.
  intros HInv. unfold evictOne.
  destruct (Policy.evict (evictionPolicy e)) as [keyToEvict p'] eqn:Hev.
  destruct (Policy_evict_spec _ _ _ (Inv_wf _ HInv) Hev) as (Hwf' & Hcap & Hname & Hm).
  destruct keyToEvict as [v|].
  - destruct Hm as [Hv Hhas].
    destruct (Inv_policy_store _ HInv v Hv) as [entry Hget].
    assert (v ≠ EmptyString) as Hvne.
    { intros ->. pose proof (Inv_nonempty _ HInv). congruence. }
    unfold truthy_string. rewrite bool_decide_eq_false_2 by done. simpl.
    unfold_with. rewrite Hget. intros [= <- <-]. simpl. split_and!.
    + by apply (Inv_remove v entry e p').
    + unfold frame. simpl. by rewrite Hcap, Hname.
    + pose proof (Inv_sizes _ HInv _ _ Hget). lia.
    + intros k. rewrite JSMap_get_delete by apply HInv. case_decide; auto.
    + done.
    + apply JSMap_length_delete. eauto.
  - destruct Hm as [-> Hempty]. intros [= <- <-]. unfold_with.
    assert (mkEngine (store e) (evictionPolicy e) (stats e) (maxMemoryBytes e)
              (currentMemoryBytes e) (memoryThreshold e) = e) as -> by (by destruct e).
    split_and!; try done; try lia; [auto|].
    intros Hlfu Hcap0. apply JSMap_get_nil_inv. intros k.
    destruct (JSMap.get k (store e)) eqn:Hk; [|done].
    assert (Policy.has k (evictionPolicy e) = true) as Hhas.
    { apply (Inv_store_policy _ HInv); [done|]. unfold resident. eauto. }
    by rewrite Hempty in Hhas.
Qed.

(** With as much fuel as the store has keys, the loop of
    [enforceMemoryLimit] has left through its condition or its [break]: one
    more unrolling changes nothing. *)
Lemma enforceMemoryLimit_loop_exit fuel requiredSpace e :
  (length (store e) ≤ fuel)%nat →
  enforceMemoryLimit_loop (S fuel) requiredSpace e
  = enforceMemoryLimit_loop fuel requiredSpace e.
Proof.
  revert e. induction fuel as [|fuel IH]; intros e Hlen.
  - destruct (store e) eqn:Hstore; [|simpl in Hlen; lia].
    simpl. unfold JSMap.size. rewrite Hstore. simpl. by rewrite andb_false_r.
  - change (enforceMemoryLimit_loop (S (S fuel)) requiredSpace e) with
      (if (memoryThreshold e <? currentMemoryBytes e + requiredSpace)
          && (0 <? JSMap.size (store e))
       then
         let '(evictedKey, e1) := evictOne e in
         match evictedKey with
         | None => e1
         | Some k =>
             if truthy_string k then enforceMemoryLimit_loop (S fuel) requiredSpace e1 else e1
         end
       else e).
    change (enforceMemoryLimit_loop (S fuel) requiredSpace e) with
      (if (memoryThreshold e <? currentMemoryBytes e + requiredSpace)
          && (0 <? JSMap.size (store e))
       then
         let '(evictedKey, e1) := evictOne e in
         match evictedKey with
         | None => e1
         | Some k =>
             if truthy_string k then enforceMemoryLimit_loop fuel requiredSpace e1 else e1
         end
       else e).
    destruct ((memoryThreshold e <? currentMemoryBytes e + requiredSpace)
              && (0 <? JSMap.size (store e))); [|done].
    destruct (evictOne e) as [[k|] e1] eqn:Hev; [|done].
    destruct (truthy_string k); [|done].
    apply IH. revert Hev. unfold evictOne.
    destruct (Policy.evict (evictionPolicy e)) as [[v|] p']; [|by intros [= ]].
    destruct (truthy_string v); [|by intros [= ]]. unfold_with.
    destruct (JSMap.get v (store e)) as [entry|] eqn:Hget; [|by intros [= ]].
    intros [= <- <-]. simpl.
    assert (length (store e) = S (length (JSMap.delete v (store e)))) as Hl.
    { apply JSMap_length_delete. eauto. }
    lia.
Qed.

Lemma enforceMemoryLimit_loop_spec fuel requiredSpace e :
  Inv e →
  let e' := enforceMemoryLimit_loop fuel requiredSpace e in
  Inv e' ∧ frame e' = frame e ∧
  currentMemoryBytes e' ≤ currentMemoryBytes e ∧
  (∀ k, JSMap.get k (store e') = None ∨ JSMap.get k (store e') = JSMap.get k (store e)) ∧
  ((length (store e) ≤ fuel)%nat →
   policyName (evictionPolicy e) ≠ LFU → Policy.capacity (evictionPolicy e) ≠ 0 →
   currentMemoryBytes e' + requiredSpace ≤ memoryThreshold e' ∨ store e' = []).
Proof.
  revert e. induction fuel as [|fuel IH]; intros e HInv; simpl.
  - split_and!; [done|done|lia|auto|].
    intros Hlen _ _. right. destruct (store e); [done|simpl in Hlen; lia].
  - destruct (memoryThreshold e <? currentMemoryBytes e + requiredSpace) eqn:Hthr; simpl.
    2:{ apply Z.ltb_ge in Hthr. split_and!; [done|done|lia|auto|].
        intros _ _ _. left. lia. }
    destruct (0 <? JSMap.size (store e)) eqn:Hsize.
    2:{ split_and!; [done|done|lia|auto|]. intros _ _ _. right.
        apply Z.ltb_ge in Hsize. unfold JSMap.size in Hsize.
        destruct (store e); [done|simpl in Hsize; lia]. }
    destruct (evictOne e) as [[v|] e1] eqn:Hev.
    + destruct (evictOne_spec _ _ _ HInv Hev) as (HInv1 & Hframe1 & Hcur1 & Hst1 & Hvne & Hlen1).
      unfold truthy_string. rewrite bool_decide_eq_false_2 by done. simpl.
      destruct (IH e1 HInv1) as (HInv' & Hframe' & Hcur' & Hst' & Hexit).
      split_and!; try done.
      * by rewrite Hframe'.
      * lia.
      * intros k. destruct (Hst' k) as [?|Hk]; [auto|]. rewrite Hk. apply Hst1.
      * intros Hlen Hlfu Hcap. injection Hframe1 as Hn Hc _ _.
        apply Hexit; [lia|by rewrite Hn|by rewrite Hc].
    + destruct (evictOne_spec _ _ _ HInv Hev) as (HInv1 & Hframe1 & Hcur1 & Hst1 & Hstore & Hempty).
      split_and!; try done. intros _ Hlfu Hcap. right. rewrite Hstore. by apply Hempty.
Qed.

Lemma enforceMemoryLimit_spec requiredSpace e :
  Inv e →
  let e' := enforceMemoryLimit requiredSpace e in
  Inv e' ∧ frame e' = frame e ∧
  currentMemoryBytes e' ≤ currentMemoryBytes e ∧
  (∀ k, JSMap.get k (store e') = None ∨ JSMap.get k (store e') = JSMap.get k (store e)) ∧
  (policyName (evictionPolicy e) ≠ LFU → Policy.capacity (evictionPolicy e) ≠ 0 →
   currentMemoryBytes e' + requiredSpace ≤ memoryThreshold e' ∨ store e' = []).
Proof.
  intros HInv. unfold enforceMemoryLimit.
  destruct (enforceMemoryLimit_loop_spec (length (store e)) requiredSpace e HInv)
    as (? & ? & ? & ? & Hexit).
  split_and!; try done. intros. by apply Hexit.
Qed.

(** *** Sizes are never negative *)

Lemma byteLength_nonneg s : 0 ≤ byteLength s.
Proof. unfold byteLength. lia. Qed.

Lemma estimateValueSize_nonneg v : 0 ≤ estimateValueSize v.
Proof.
  induction v as [| | | | |items IH|fields IH|] using JSValue_nested_ind; simpl; try lia.
  - apply byteLength_nonneg.
  - assert (∀ acc, 0 ≤ acc →
       0 ≤ fold_left (fun size item => size + estimateValueSize item) items acc) as H.
    { induction IH as [|x r Hx _ IHr]; intros acc Hacc; simpl; [done|].
      apply IHr. lia. }
    apply H. lia.
  - assert (∀ acc, 0 ≤ acc →
       0 ≤ fold_left
             (fun size kv => size + (byteLength (fst kv) + estimateValueSize (snd kv)))
             fields acc) as H.
    { induction IH as [|x r Hx _ IHr]; intros acc Hacc; simpl; [done|].
      apply IHr. pose proof (byteLength_nonneg (fst x)). lia. }
    apply H. lia.
Qed.

Lemma calculateEntrySize_pos key value : 64 ≤ calculateEntrySize key value.
Proof.
  unfold calculateEntrySize.
  pose proof (byteLength_nonneg key). pose proof (estimateValueSize_nonneg value). lia.
Qed.

(** *** The store part of the invariant *)

Lemma Inv_StoreInv e :
  Inv e ↔
  Policy_wf (evictionPolicy e) ∧
  StoreInv (store e) (currentMemoryBytes e)
    (fun k => Policy.has k (evictionPolicy e) = true) (Policy.capacity (evictionPolicy e)).
Proof.
  split.
  - intros [? ? ? ? ? ? ?]. by split.
  - intros [? [? ? ? ? ? ?]]. by split.
Qed.

Lemma StoreInv_ext m bytes (P Q : string → Prop) cap :
  (∀ k, P k ↔ Q k) → StoreInv m bytes P cap → StoreInv m bytes Q cap.
Proof.
  intros HPQ [? ? Hps Hsp ? ?]. split; try done.
  - intros k Hk. apply Hps. by apply HPQ.
  - intros Hc k Hk. apply HPQ. by apply Hsp.
Qed.

Lemma StoreInv_remove m bytes P cap key entry :
  StoreInv m bytes P cap → JSMap.get key m = Some entry →
  StoreInv (JSMap.delete key m) (bytes - CacheEntry.size entry)
    (fun k => P k ∧ k ≠ key) cap.
Proof.
  intros [Hnd Hne Hps Hsp Hbytes Hsizes] Hget. split.
  - by apply JSMap_NoDup_delete.
  - rewrite JSMap_get_delete by done. by case_decide.
  - intros k [Hk Hkne]. rewrite JSMap_get_delete, decide_False by done. by apply Hps.
  - intros Hc k. rewrite JSMap_get_delete by done. case_decide; [by intros [? ?]|].
    intros Hk. split; [|done]. by apply Hsp.
  - erewrite storeBytes_delete by done. lia.
  - intros k x. rewrite JSMap_get_delete by done. case_decide; [done|]. apply Hsizes.
Qed.

Lemma JSMap_get_set {V} k k' (v : V) m :
  JSMap.get k' (JSMap.set k v m) = if decide (k' = k) then Some v else JSMap.get k' m.
Proof.
  destruct (decide (k' = k)) as [->|Hne].
  - apply JSMap_get_set_eq.
  - by apply JSMap_get_set_ne.
Qed.

Lemma JSObject_own_set key value o k v :
  JSMap.get k (JSObject.own (JSObject.set key value o)) = Some v →
  (k = key ∧ v = value) ∨ JSMap.get k (JSObject.own o) = Some v.
Proof.
  unfold JSObject.set.
  destruct (bool_decide (key = "__proto__") && negb (JSMap.has key (JSObject.own o))
            && JSObject.reachesSetter (JSObject.prototype o)).
  - destruct value; simpl; auto.
  - simpl. rewrite JSMap_get_set. case_decide as Hk; [|auto].
    intros [= <-]. by left.
Qed.



Lemma StoreInv_insert m bytes P cap key entry :
  StoreInv m bytes P cap → JSMap.get key m = None → key ≠ EmptyString →
  0 ≤ CacheEntry.size entry →
  StoreInv (JSMap.set key entry m) (bytes + CacheEntry.size entry)
    (fun k => k = key ∨ P k) cap.
Proof.
  intros [Hnd Hne Hps Hsp Hbytes Hsizes] Hget Hkey Hsize. split.
  - by apply JSMap_NoDup_set.
  - rewrite JSMap_get_set. by rewrite decide_False.
  - intros k Hk. rewrite JSMap_get_set. case_decide; [eauto|].
    destruct Hk as [?|Hk]; [done|]. by apply Hps.
  - intros Hc k. rewrite JSMap_get_set. case_decide; [by left|].
    intros Hk. right. by apply Hsp.
  - rewrite storeBytes_set_absent by done. lia.
  - intros k x. rewrite JSMap_get_set. case_decide; [by intros [= <-]|]. apply Hsizes.
Qed.

Lemma StoreInv_insert_unlisted m bytes P key entry :
  StoreInv m bytes P 0 → JSMap.get key m = None → key ≠ EmptyString →
  0 ≤ CacheEntry.size entry →
  StoreInv (JSMap.set key entry m) (bytes + CacheEntry.size entry) P 0.
Proof.
  intros [Hnd Hne Hps Hsp Hbytes Hsizes] Hget Hkey Hsize. split.
  - by apply JSMap_NoDup_set.
  - rewrite JSMap_get_set. by rewrite decide_False.
  - intros k Hk. rewrite JSMap_get_set. case_decide; [eauto|]. by apply Hps.
  - done.
  - rewrite storeBytes_set_absent by done. lia.
  - intros k x. rewrite JSMap_get_set. case_decide; [by intros [= <-]|]. apply Hsizes.
Qed.

Lemma StoreInv_update m bytes P cap key old entry :
  StoreInv m bytes P cap → JSMap.get key m = Some old →
  0 ≤ CacheEntry.size entry →
  StoreInv (JSMap.set key entry m) (bytes - CacheEntry.size old + CacheEntry.size entry)
    P cap.
Proof.
  intros [Hnd Hne Hps Hsp Hbytes Hsizes] Hget Hsize.
  assert (key ≠ EmptyString) as Hkey by (intros ->; congruence).
  split.
  - by apply JSMap_NoDup_set.
  - rewrite JSMap_get_set. by rewrite decide_False.
  - intros k Hk. rewrite JSMap_get_set. case_decide; [eauto|]. by apply Hps.
  - intros Hc k. rewrite JSMap_get_set. case_decide as Hk; [|by apply Hsp].
    intros _. apply Hsp; [done|]. rewrite Hk, Hget. eauto.
  - erewrite storeBytes_set_present by done. lia.
  - intros k x. rewrite JSMap_get_set. case_decide; [by intros [= <-]|]. apply Hsizes.
Qed.

Lemma boundable_frame e e' : frame e' = frame e → boundable e' ↔ boundable e.
Proof. unfold frame, boundable. intros [= -> -> -> ->]. done. Qed.

Lemma frame_inv e e' :
  frame e' = frame e →
  policyName (evictionPolicy e') = policyName (evictionPolicy e) ∧
  Policy.capacity (evictionPolicy e') = Policy.capacity (evictionPolicy e) ∧
  maxMemoryBytes e' = maxMemoryBytes e ∧ memoryThreshold e' = memoryThreshold e.
Proof. unfold frame. by intros [= -> -> -> ->]. Qed.

Lemma engine_eta e :
  mkEngine (store e) (evictionPolicy e) (stats e) (maxMemoryBytes e)
    (currentMemoryBytes e) (memoryThreshold e) = e.
Proof. by destruct e. Qed.

Section EngineFacts.
Variable clock : nat → Z.

Lemma set_spec key value ttl w :
  key ≠ EmptyString → Inv (engine w) →
  let e := engine w in
  let w' := snd (set clock key value ttl w) in
  let e' := engine w' in
  fst (set clock key value ttl w) = true ∧
  reads w' = S (reads w) ∧
  Inv e' ∧ frame e' = frame e ∧
  JSMap.get key (store e')
  = Some (CacheEntry.mk value (expiresAtOf (clock (reads w)) ttl)
            (calculateEntrySize key value)) ∧
  (boundable e → calculateEntrySize key value ≤ maxMemoryBytes e →
   currentMemoryBytes e' ≤ maxMemoryBytes e').
Proof.
  intros Hkey HInv e. unfold set. simpl. fold e.
  set (size := calculateEntrySize key value).
  set (entry := CacheEntry.mk value (expiresAtOf (clock (reads w)) ttl) size).
  pose proof (calculateEntrySize_pos key value) as Hsize. fold size in Hsize.
  set (e1 := if memoryThreshold e <? currentMemoryBytes e + size
             then enforceMemoryLimit size e else e).
  assert (Inv e1 ∧ frame e1 = frame e ∧
          (boundable e → currentMemoryBytes e1 + size ≤ memoryThreshold e1 ∨ store e1 = []))
    as (HInv1 & Hframe1 & Hexit1).
  { subst e1. destruct (memoryThreshold e <? currentMemoryBytes e + size) eqn:Hthr.
    - destruct (enforceMemoryLimit_spec size e HInv) as (? & ? & ? & ? & Hexit).
      split_and!; try done. intros (Hn & Hc & _). by apply Hexit.
    - apply Z.ltb_ge in Hthr. split_and!; try done. intros _. left. lia. }
  clearbody e1.
  pose proof HInv1 as HI. apply Inv_StoreInv in HI as [Hwf1 HS1].
  destruct (JSMap.get key (store e1)) as [existingEntry|] eqn:Hget.
  - (* the key is resident: its entry is overwritten *)
    unfold_with.
    destruct (Policy.set key (evictionPolicy e1)) as [ev p'] eqn:Hset.
    destruct (Policy_set_spec _ _ _ _ Hwf1 Hset) as (Hwf' & Hcap & Hname & Hsame & _).
    destruct Hsame as [_ Hsame].
    { destruct (decide (Policy.capacity (evictionPolicy e1) = 0)); [by right|left].
      apply (Inv_store_policy _ HInv1); [done|]. unfold resident. rewrite Hget. eauto. }
    simpl. split_and!; try done.
    + apply Inv_StoreInv. simpl. split; [done|]. rewrite Hcap.
      eapply StoreInv_ext; [intros k; symmetry; apply Hsame|].
      apply (StoreInv_update _ _ _ _ _ existingEntry entry); [done|done|simpl; lia].
    + rewrite <- Hframe1. unfold frame. simpl. by rewrite Hcap, Hname.
    + apply JSMap_get_set_eq.
    + intros Hb Hfit. destruct (Hexit1 Hb) as [Hle|Hnil]; [|by rewrite Hnil in Hget].
      pose proof (Inv_sizes _ HInv1 _ _ Hget).
      apply (boundable_frame e1 e) in Hb as (_ & _ & Hthr); [|done]. lia.
  - (* the key is new *)
    unfold_with.
    destruct (Policy.set key (evictionPolicy e1)) as [ev p'] eqn:Hset.
    destruct (Policy_set_spec _ _ _ _ Hwf1 Hset) as (Hwf' & Hcap & Hname & Hzero & Hnew).
    assert (Policy.has key (evictionPolicy e1) = false) as Hhas.
    { destruct (Policy.has key (evictionPolicy e1)) eqn:Hh; [|done].
      apply (Inv_policy_store _ HInv1) in Hh as [? Hh]. congruence. }
    assert (frame (mkEngine (JSMap.set key entry (store e1)) p' (stats e1)
                     (maxMemoryBytes e1) (currentMemoryBytes e1 + size) (memoryThreshold e1))
            = frame e) as Hframe4.
    { rewrite <- Hframe1. unfold frame. simpl. by rewrite Hcap, Hname. }
    assert (boundable e → size ≤ maxMemoryBytes e →
            currentMemoryBytes e1 + size ≤ maxMemoryBytes e1) as Hbound.
    { intros Hb Hfit. destruct (frame_inv _ _ Hframe1) as (_ & _ & Hmax & _).
      destruct (Hexit1 Hb) as [Hle|Hnil].
      - apply (boundable_frame e1 e) in Hb as (_ & _ & Hthr); [|done]. lia.
      - rewrite (Inv_bytes _ HInv1), Hnil. simpl. lia. }
    destruct (decide (Policy.capacity (evictionPolicy e1) = 0)) as [Hc0|Hc0].
    + destruct Hzero as [-> Hsame]; [by right|]. simpl. split_and!; try done.
      * apply Inv_StoreInv. simpl. split; [done|]. rewrite Hcap, Hc0.
        eapply StoreInv_ext; [intros k; symmetry; apply Hsame|].
        rewrite Hc0 in HS1.
        apply (StoreInv_insert_unlisted _ _ _ key entry); [done|done|done|simpl; lia].
      * apply JSMap_get_set_eq.
    + specialize (Hnew Hhas Hc0). destruct ev as [v|].
      * destruct Hnew as [Hv Hk].
        destruct (Inv_policy_store _ HInv1 v Hv) as [evictedEntry Hgetv].
        assert (v ≠ key) as Hvkey by (intros ->; congruence).
        assert (v ≠ EmptyString) as Hvne.
        { intros ->. pose proof (Inv_nonempty _ HInv1). congruence. }
        unfold truthy_string. rewrite bool_decide_eq_false_2 by done. simpl.
        rewrite JSMap_get_set_ne, Hgetv by done. simpl. split_and!; try done.
        -- apply Inv_StoreInv. simpl. split; [done|]. rewrite Hcap.
           assert (0 ≤ CacheEntry.size entry) as Hsz by (simpl; lia).
           pose proof (StoreInv_insert _ _ _ _ key entry HS1 Hget Hkey Hsz) as HS3.
           assert (JSMap.get v (JSMap.set key entry (store e1)) = Some evictedEntry)
             as Hgetv3 by (by rewrite JSMap_get_set_ne).
           pose proof (StoreInv_remove _ _ _ _ v evictedEntry HS3 Hgetv3) as HS4.
           eapply StoreInv_ext; [|exact HS4].
           intros k. simpl. rewrite Hk. split.
           ++ intros [[->|?] ?]; [by left|by right].
           ++ intros [->|[? ?]]; [split; [by left|done]|split; [by right|done]].
        -- rewrite JSMap_get_delete_ne by done. apply JSMap_get_set_eq.
        -- intros Hb Hfit. specialize (Hbound Hb Hfit).
           pose proof (Inv_sizes _ HInv1 _ _ Hgetv). lia.
      * simpl. split_and!; try done.
        -- apply Inv_StoreInv. simpl. split; [done|]. rewrite Hcap.
           eapply StoreInv_ext; [intros k; symmetry; apply Hnew|].
           apply (StoreInv_insert _ _ _ _ key entry); [done|done|done|simpl; lia].
        -- apply JSMap_get_set_eq.
Qed.

Lemma Inv_stats e st :
  Inv e →
  Inv (mkEngine (store e) (evictionPolicy e) st (maxMemoryBytes e)
         (currentMemoryBytes e) (memoryThreshold e)).
Proof. by rewrite !Inv_StoreInv. Qed.

Lemma isExpired_spec entry w :
  fst (isExpired clock entry w) = expiredAt (clock (reads w)) entry ∧
  engine (snd (isExpired clock entry w)) = engine w.
Proof.
  unfold isExpired, expiredAt. destruct (CacheEntry.expiresAt entry) as [x|]; [|done].
  destruct (truthy_number x); done.
Qed.

Lemma get_spec key w :
  Inv (engine w) →
  let e := engine w in
  let e' := engine (snd (get clock key w)) in
  fst (get clock key w)
  = default VNull (liveValue (clock (reads w)) key e) ∧
  Inv e' ∧ frame e' = frame e ∧
  currentMemoryBytes e' ≤ currentMemoryBytes e ∧
  (∀ k, JSMap.get k (store e') = None ∨ JSMap.get k (store e') = JSMap.get k (store e)) ∧
  match liveValue (clock (reads w)) key e with
  | Some _ =>
      store e' = store e ∧ currentMemoryBytes e' = currentMemoryBytes e ∧
      StatisticsTracker.hits (stats e') = S (StatisticsTracker.hits (stats e)) ∧
      StatisticsTracker.misses (stats e') = StatisticsTracker.misses (stats e) ∧
      ∀ k, Policy.has k (evictionPolicy e') = true ↔ Policy.has k (evictionPolicy e) = true
  | None =>
      JSMap.get key (store e') = None ∧
      StatisticsTracker.hits (stats e') = StatisticsTracker.hits (stats e) ∧
      StatisticsTracker.misses (stats e') = S (StatisticsTracker.misses (stats e))
  end.
Proof.
  intros HInv e. unfold get, liveValue. fold e.
  destruct (JSMap.get key (store e)) as [entry|] eqn:Hget.
  - destruct (isExpired_spec entry w) as [Hexp Heng].
    destruct (isExpired clock entry w) as [expired w1]. simpl in Hexp, Heng.
    rewrite <- Hexp. destruct expired; simpl.
    + unfold recordMiss. simpl. unfold_with. rewrite Heng. fold e.
      destruct (delete key e) as [r e2] eqn:Hdel.
      destruct (delete_spec _ _ _ _ HInv Hdel) as (HInv2 & Hframe2 & Hstats2 & Hcur2 & Hst2).
      simpl. split_and!; try done.
      * by apply Inv_stats.
      * intros k. rewrite Hst2. case_decide; auto.
      * rewrite Hst2. by rewrite decide_True.
      * by rewrite Hstats2.
      * by rewrite Hstats2.
    + unfold recordHit. simpl. unfold_with. rewrite Heng. fold e.
      destruct (Policy.get key (evictionPolicy e)) as [r p'] eqn:Hpget.
      destruct (Policy_get_spec _ _ _ _ (Inv_wf _ HInv) Hpget) as (Hwf' & Hcap & Hname & Hsame).
      simpl. split_and!; try done; try lia; [| |auto].
      * apply Inv_StoreInv. simpl. split; [done|]. rewrite Hcap.
        eapply StoreInv_ext; [intros k; symmetry; apply Hsame|].
        by apply Inv_StoreInv in HInv as [_ ?].
      * unfold frame. simpl. by rewrite Hcap, Hname.
  - unfold recordMiss. simpl. unfold_with. fold e. split_and!; try done; try lia; [|auto].
    by apply Inv_stats.
Qed.

Lemma exists_spec key w :
  Inv (engine w) →
  let e := engine w in
  let e' := engine (snd (exists_ clock key w)) in
  fst (exists_ clock key w)
  = bool_decide (is_Some (liveValue (clock (reads w)) key e)) ∧
  Inv e' ∧ frame e' = frame e ∧
  currentMemoryBytes e' ≤ currentMemoryBytes e ∧
  (liveValue (clock (reads w)) key e = None → JSMap.get key (store e') = None).
Proof.
  intros HInv e. unfold exists_, liveValue. fold e.
  destruct (JSMap.get key (store e)) as [entry|] eqn:Hget.
  - destruct (isExpired_spec entry w) as [Hexp Heng].
    destruct (isExpired clock entry w) as [expired w1]. simpl in Hexp, Heng.
    rewrite <- Hexp. destruct expired; simpl.
    + unfold_with. rewrite Heng. fold e.
      destruct (delete key e) as [r e2] eqn:Hdel.
      destruct (delete_spec _ _ _ _ HInv Hdel) as (HInv2 & Hframe2 & Hstats2 & Hcur2 & Hst2).
      simpl. split_and!; try done.
      * by apply Inv_stats.
      * intros _. rewrite Hst2. by rewrite decide_True.
    + rewrite Heng. fold e. split_and!; try done; try lia.
  - split_and!; try done; try lia.
Qed.

Lemma updateTTL_spec key ttl w :
  Inv (engine w) →
  let e := engine w in
  let e' := engine (snd (updateTTL clock key ttl w)) in
  Inv e' ∧ frame e' = frame e ∧ currentMemoryBytes e' = currentMemoryBytes e.
Proof.
  intros HInv e. unfold updateTTL. fold e.
  destruct (JSMap.get key (store e)) as [entry|] eqn:Hget; [|done].
  simpl. unfold_with. fold e. split_and!; try done.
  apply Inv_StoreInv. simpl. split; [apply HInv|].
  apply Inv_StoreInv in HInv as [_ HS].
  set (entry' := CacheEntry.mk (CacheEntry.value entry) (Some (clock (reads w) + ttl))
                   (CacheEntry.size entry)).
  pose proof (StoreInv_update _ _ _ _ key entry entry' HS Hget) as HS'.
  replace (currentMemoryBytes (engine w) - CacheEntry.size entry + CacheEntry.size entry')
    with (currentMemoryBytes e) in HS' by (subst e; simpl; lia).
  apply HS'. simpl. by apply (SI_sizes _ _ _ _ HS key).
Qed.

Lemma clear_spec e :
  Inv e → Inv (clear e) ∧ frame (clear e) = frame e ∧ currentMemoryBytes (clear e) = 0.
Proof.
  intros HInv. unfold clear. unfold_with.
  destruct (Policy_clear_spec (evictionPolicy e)) as (Hwf & Hcap & Hname & Hhas).
  split_and!; try done.
  - split; simpl; try done.
    + apply NoDup_nil_2.
    + intros k Hk. by rewrite Hhas in Hk.
    + intros _ k [? ?]. done.
  - unfold frame. simpl. by rewrite Hcap, Hname.
Qed.

Lemma increment_spec key amount w :
  key ≠ EmptyString → Inv (engine w) →
  let e := engine w in
  let e' := engine (snd (increment clock key amount w)) in
  Inv e' ∧ frame e' = frame e ∧
  (boundable e → calculateEntrySize key (VNumber 0) ≤ maxMemoryBytes e →
   currentMemoryBytes e ≤ maxMemoryBytes e → currentMemoryBytes e' ≤ maxMemoryBytes e').
Proof.
  intros Hkey HInv e. unfold increment.
  destruct (get_spec key w HInv) as (_ & HInv1 & Hframe1 & Hcur1 & _).
  destruct (get clock key w) as [currentValue w1]. simpl in HInv1, Hframe1, Hcur1.
  fold e in Hframe1, Hcur1.
  assert (∀ n,
    let e' := engine (snd (set clock key (VNumber n) None w1)) in
    Inv e' ∧ frame e' = frame e ∧
    (boundable e → calculateEntrySize key (VNumber 0) ≤ maxMemoryBytes e →
     currentMemoryBytes e ≤ maxMemoryBytes e → currentMemoryBytes e' ≤ maxMemoryBytes e'))
    as Hset.
  { intros n.
    destruct (set_spec key (VNumber n) None w1 Hkey HInv1) as (_ & _ & HInv2 & Hframe2 & _ & Hb).
    split_and!; [done|by rewrite Hframe2|].
    intros Hbd Hfit _. destruct (frame_inv _ _ Hframe1) as (_ & _ & Hmax & _).
    apply Hb; [by apply (boundable_frame _ e)|by rewrite Hmax]. }
  assert (Inv (engine w1) ∧ frame (engine w1) = frame e ∧
    (boundable e → calculateEntrySize key (VNumber 0) ≤ maxMemoryBytes e →
     currentMemoryBytes e ≤ maxMemoryBytes e →
     currentMemoryBytes (engine w1) ≤ maxMemoryBytes (engine w1))) as Hthrown.
  { split_and!; try done. intros _ _ Hle.
    destruct (frame_inv _ _ Hframe1) as (_ & _ & Hmax & _). lia. }
  destruct currentValue; try exact Hthrown.
  - specialize (Hset amount).
    destruct (set clock key (VNumber amount) None w1). exact Hset.
  - specialize (Hset (n + amount)%float).
    destruct (set clock key (VNumber (n + amount)) None w1). exact Hset.
Qed.

Lemma storeBytes_nonneg m :
  NoDup (JSMap.keys m) →
  (∀ k entry, JSMap.get k m = Some entry → 0 ≤ CacheEntry.size entry) →
  0 ≤ storeBytes m.
Proof.
  induction m as [|[k0 x0] m IH]; simpl; [lia|].
  rewrite NoDup_cons. intros [Hnotin Hnd] Hsizes.
  assert (0 ≤ CacheEntry.size x0) by (apply (Hsizes k0); by rewrite decide_True).
  assert (0 ≤ storeBytes m); [|lia].
  apply IH; [done|]. intros k entry Hk. apply (Hsizes k).
  rewrite decide_False; [done|]. intros ->. apply Hnotin.
  apply JSMap_get_elem_of. eauto.
Qed.

Lemma Inv_bytes_nonneg e : Inv e → 0 ≤ currentMemoryBytes e.
Proof.
  intros HInv. rewrite (Inv_bytes _ HInv). apply storeBytes_nonneg; apply HInv.
Qed.

Lemma Preserved_refl fit e : Inv e → Preserved fit e e.
Proof. intros. unfold Preserved. by split_and!. Qed.

Lemma Preserved_le fit e e' :
  Inv e' → frame e' = frame e → currentMemoryBytes e' ≤ currentMemoryBytes e →
  Preserved fit e e'.
Proof.
  intros HInv Hframe Hle. split_and!; try done. intros _ _ Hmax.
  destruct (frame_inv _ _ Hframe) as (_ & _ & -> & _). lia.
Qed.

Lemma Preserved_trans (f1 f2 : Prop) e e1 e2 :
  Preserved f1 e e1 → Preserved f2 e1 e2 → Preserved (f1 ∧ f2) e e2.
Proof.
  intros (HInv1 & Hframe1 & Hb1) (HInv2 & Hframe2 & Hb2). split_and!; try done.
  - by rewrite Hframe2.
  - intros Hbd [Hf1 Hf2] Hle. apply Hb2; [by apply (boundable_frame _ e)|done|].
    by apply Hb1.
Qed.

Lemma Preserved_weaken (f1 f2 : Prop) e e' :
  (f2 → f1) → Preserved f1 e e' → Preserved f2 e e'.
Proof. intros Himp (? & ? & Hb). split_and!; try done. intros. apply Hb; auto. Qed.

Lemma deleteMultiple_spec keys e :
  Inv e →
  let e' := snd (deleteMultiple keys e) in
  Inv e' ∧ frame e' = frame e ∧ currentMemoryBytes e' ≤ currentMemoryBytes e.
Proof.
  revert e. induction keys as [|key rest IH]; intros e HInv; simpl; [by split_and!|].
  destruct (delete key e) as [deleted e1] eqn:Hdel.
  destruct (delete_spec _ _ _ _ HInv Hdel) as (HInv1 & Hframe1 & _ & Hcur1 & _).
  specialize (IH e1 HInv1). destruct (deleteMultiple rest e1) as [deletedKeys e2].
  simpl in *. destruct IH as (? & ? & ?). split_and!; [done|congruence|lia].
Qed.

Lemma getMultiple_loop_spec keys result w :
  Inv (engine w) →
  let e' := engine (snd (getMultiple_loop clock keys result w)) in
  Inv e' ∧ frame e' = frame (engine w) ∧
  currentMemoryBytes e' ≤ currentMemoryBytes (engine w).
Proof.
  revert result w. induction keys as [|key rest IH]; intros result w HInv; simpl;
    [by split_and!|].
  destruct (get_spec key w HInv) as (_ & HInv1 & Hframe1 & Hcur1 & _).
  destruct (get clock key w) as [value w1]. simpl in HInv1, Hframe1, Hcur1.
  assert (∀ result',
    let e' := engine (snd (getMultiple_loop clock rest result' w1)) in
    Inv e' ∧ frame e' = frame (engine w) ∧
    currentMemoryBytes e' ≤ currentMemoryBytes (engine w)) as Hrest.
  { intros result'. destruct (IH result' w1 HInv1) as (? & ? & ?).
    split_and!; [done|congruence|lia]. }
  destruct value; apply Hrest.
Qed.

Lemma setMultiple_spec entries w :
  Forall (fun entry => BatchEntry.key entry ≠ EmptyString) entries →
  Inv (engine w) →
  Preserved
    (Forall (fun entry =>
               calculateEntrySize (BatchEntry.key entry) (BatchEntry.value entry)
               ≤ maxMemoryBytes (engine w)) entries)
    (engine w) (engine (snd (setMultiple clock entries w))).
Proof.
  revert w. induction entries as [|entry rest IH]; intros w Hvalid HInv; cbn [setMultiple].
  - by apply Preserved_refl.
  - apply Forall_cons in Hvalid as [Hkey Hrest].
    destruct (set_spec (BatchEntry.key entry) (BatchEntry.value entry)
                (BatchEntry.ttl entry) w Hkey HInv) as (_ & _ & HInv1 & Hframe1 & _ & Hb1).
    destruct (set clock (BatchEntry.key entry) (BatchEntry.value entry)
                (BatchEntry.ttl entry) w) as [r w1].
    simpl in HInv1, Hframe1, Hb1.
    specialize (IH w1 Hrest HInv1).
    destruct (frame_inv _ _ Hframe1) as (_ & _ & Hmax & _).
    rewrite Hmax in IH.
    eapply Preserved_weaken; [|eapply Preserved_trans; [|exact IH]].
    + intros Hall. apply Forall_cons in Hall. exact Hall.
    + split_and!; try done. intros Hbd Hfit _. by apply Hb1.
Qed.

Lemma cleanup_loop_spec now entries cleaned e :
  Inv e →
  let e' := snd (cleanup_loop now entries cleaned e) in
  Inv e' ∧ frame e' = frame e ∧ currentMemoryBytes e' ≤ currentMemoryBytes e.
Proof.
  revert cleaned e. induction entries as [|[key entry] rest IH]; intros cleaned e HInv; simpl;
    [by split_and!|].
  destruct (expiredAt now entry); [|by apply IH].
  destruct (delete key e) as [r e1] eqn:Hdel.
  destruct (delete_spec _ _ _ _ HInv Hdel) as (HInv1 & Hframe1 & _ & Hcur1 & _).
  simpl. unfold_with.
  destruct (IH (cleaned + 1)
              (mkEngine (store e1) (evictionPolicy e1)
                 (StatisticsTracker.recordExpiration (stats e1)) (maxMemoryBytes e1)
                 (currentMemoryBytes e1) (memoryThreshold e1)))
    as (HInv' & Hframe' & Hcur'); [by apply Inv_stats|].
  split_and!; [done| |simpl in Hcur'; lia].
  rewrite Hframe'. rewrite <- Hframe1. done.
Qed.

Lemma cleanup_spec w :
  Inv (engine w) →
  let e' := engine (snd (cleanup clock w)) in
  Inv e' ∧ frame e' = frame (engine w) ∧
  currentMemoryBytes e' ≤ currentMemoryBytes (engine w).
Proof.
  intros HInv. unfold cleanup. simpl.
  pose proof (cleanup_loop_spec (clock (reads w)) (store (engine w)) 0 (engine w) HInv) as H.
  destruct (cleanup_loop (clock (reads w)) (store (engine w)) 0 (engine w)) as [cleaned e'].
  exact H.
Qed.

Lemma step_spec w op :
  valid_op op → Inv (engine w) →
  Preserved (fits (maxMemoryBytes (engine w)) op) (engine w) (engine (step clock w op)).
Proof.
  intros Hvalid HInv. destruct op as [key|key value ttl|key|key|key amount|key ttl| | |
                                      |keys|entries|keys|]; simpl in *.
  - destruct (get_spec key w HInv) as (_ & ? & ? & ? & _). by apply Preserved_le.
  - destruct (set_spec key value ttl w Hvalid HInv) as (_ & _ & ? & ? & _ & Hb).
    split_and!; try done. intros Hbd Hfit _. by apply Hb.
  - unfold_with. destruct (delete key (engine w)) as [r e'] eqn:Hdel.
    destruct (delete_spec _ _ _ _ HInv Hdel) as (? & ? & _ & ? & _).
    by apply Preserved_le.
  - destruct (exists_spec key w HInv) as (_ & ? & ? & ? & _). by apply Preserved_le.
  - destruct (increment_spec key amount w Hvalid HInv) as (? & ? & ?). by split_and!.
  - destruct (updateTTL_spec key ttl w HInv) as (? & ? & ?). apply Preserved_le; [done|done|lia].
  - destruct (clear_spec (engine w) HInv) as (? & ? & Hzero). split_and!; try done.
    intros _ _ Hle. pose proof (Inv_bytes_nonneg _ HInv).
    destruct (frame_inv _ _ H0) as (_ & _ & Hmax & _). lia.
  - by apply Preserved_refl.
  - unfold_with. apply Preserved_le; [by apply Inv_stats|done|simpl; lia].
  - destruct (getMultiple_loop_spec keys JSObject.empty w HInv) as (? & ? & ?). by apply Preserved_le.
  - by apply setMultiple_spec.
  - unfold_with. destruct (deleteMultiple_spec keys (engine w) HInv) as (? & ? & ?).
    by apply Preserved_le.
  - destruct (cleanup_spec w HInv) as (? & ? & ?). by apply Preserved_le.
Qed.

Lemma run_snoc ops op w : run clock (ops ++ [op]) w = step clock (run clock ops w) op.
Proof. unfold run. by rewrite fold_left_app. Qed.

Lemma run_spec ops w :
  Forall valid_op ops → Inv (engine w) →
  Preserved (Forall (fits (maxMemoryBytes (engine w))) ops)
    (engine w) (engine (run clock ops w)).
Proof.
  revert w. induction ops as [|op ops IH]; intros w Hvalid HInv.
  - by apply Preserved_refl.
  - apply Forall_cons in Hvalid as [Hop Hops].
    pose proof (step_spec w op Hop HInv) as Hstep.
    pose proof Hstep as (HInv1 & Hframe1 & _).
    specialize (IH (step clock w op) Hops HInv1).
    destruct (frame_inv _ _ Hframe1) as (_ & _ & Hmax & _). rewrite Hmax in IH.
    eapply Preserved_weaken; [|eapply Preserved_trans; [exact Hstep|exact IH]].
    intros Hall. apply Forall_cons in Hall. exact Hall.
Qed.

Lemma Good_new cfg :
  0 ≤ CacheConfig.maxMemoryMB cfg →
  Inv (newCacheEngine cfg) ∧
  currentMemoryBytes (newCacheEngine cfg) ≤ maxMemoryBytes (newCacheEngine cfg) ∧
  memoryThreshold (newCacheEngine cfg) ≤ maxMemoryBytes (newCacheEngine cfg).
Proof.
  intros Hmb. split_and!; [apply Inv_new|simpl; lia|]. simpl.
  apply Z.div_le_upper_bound; lia.
Qed.

(** C1 (as amended).  With the LRU or the FIFO policy, a key capacity other
    than 0 and a memory bound that is not negative, every sequence of public
    operations whose inserted entries are each at most [maxBytes] large (and
    have non-empty keys) leaves [currentMemoryBytes ≤ maxBytes], where
    [maxBytes = maxMemoryMB * 1048576]; and in every state so reached the
    eviction loop of SET ends with
    [currentMemoryBytes + requiredSpace ≤ threshold] or with an empty store. *)
Theorem memory_bound_when_entries_fit cfg ops :
  CacheConfig.evictionPolicy cfg ≠ LFU →
  CacheConfig.maxKeys cfg ≠ 0 →
  0 ≤ CacheConfig.maxMemoryMB cfg →
  Forall valid_op ops →
  Forall (fits (CacheConfig.maxMemoryMB cfg * 1048576)) ops →
  let e := engine (run clock ops (newWorld cfg)) in
  maxMemoryBytes e = CacheConfig.maxMemoryMB cfg * 1048576 ∧
  currentMemoryBytes e ≤ maxMemoryBytes e ∧
  ∀ requiredSpace,
    let e' := enforceMemoryLimit requiredSpace e in
    currentMemoryBytes e' + requiredSpace ≤ memoryThreshold e' ∨ store e' = [].
Proof.
  intros Hpolicy Hkeys Hmb Hvalid Hfits e.
  destruct (Good_new cfg Hmb) as (HInv0 & Hcur0 & Hthr0).
  destruct (Policy_create_spec cfg) as (_ & Hcap0 & Hname0 & _).
  assert (boundable (newCacheEngine cfg)) as Hbd0.
  { unfold boundable. simpl. by rewrite Hcap0, Hname0. }
  assert (maxMemoryBytes (newCacheEngine cfg) = CacheConfig.maxMemoryMB cfg * 1048576)
    as Hmax0 by (simpl; lia).
  destruct (run_spec ops (newWorld cfg) Hvalid HInv0) as (HInv & Hframe & Hbound).
  fold e in HInv, Hframe, Hbound.
  change (engine (newWorld cfg)) with (newCacheEngine cfg) in Hframe, Hbound.
  destruct (frame_inv _ _ Hframe) as (Hname & Hcap & Hmax & Hthr).
  rewrite Hmax0 in Hbound, Hmax. simpl in Hname, Hcap.
  split_and!.
  - done.
  - apply Hbound; [done|done|]. simpl. lia.
  - intros requiredSpace e'.
    destruct (enforceMemoryLimit_spec requiredSpace e HInv) as (_ & _ & _ & _ & Hexit).
    apply Hexit.
    + by rewrite Hname, Hname0.
    + by rewrite Hcap, Hcap0.
Qed.
End EngineFacts.

(** C1 (as stated) fails: with 1 MB, 10 keys and LRU, one SET of an array of
    256 arrays of 512 numbers (1052688 bytes of estimated size) into the empty
    engine leaves [currentMemoryBytes] above [maxBytes]. *)
Lemma oversized_entry_exceeds_maxBytes :
  let value := VArray (repeat (VArray (repeat (VNumber 0) 512)) 256) in
  let e := engine (run (fun _ => 0) [OpSet "k" value None]
                     (newWorld (CacheConfig.mk 1 10 LRU))) in
  maxMemoryBytes e = 1048576 ∧ currentMemoryBytes e = 1052753.
Proof. vm_compute. split; reflexivity. Qed.

Lemma memory_bound_when_entries_fit_witness :
  let cfg := CacheConfig.mk 1 10 FIFO in
  let ops := [OpSet "a" (VString "x") None; OpGet "a"; OpIncrement "n" 2; OpCleanup] in
  let e := engine (run (fun n => Z.of_nat n) ops (newWorld cfg)) in
  maxMemoryBytes e = 1048576 ∧
  currentMemoryBytes e ≤ maxMemoryBytes e ∧
  ∀ requiredSpace,
    let e' := enforceMemoryLimit requiredSpace e in
    currentMemoryBytes e' + requiredSpace ≤ memoryThreshold e' ∨ store e' = [].
Proof.
  apply (memory_bound_when_entries_fit (fun n => Z.of_nat n) (CacheConfig.mk 1 10 FIFO)).
  - simpl. discriminate.
  - simpl. lia.
  - simpl. lia.
  - repeat constructor; simpl; discriminate.
  - repeat constructor; vm_compute; discriminate.
Defined.

(** ** INCREMENT, null values and batches *)

Section IncrementFacts.
Variable clock : nat → Z.

Lemma reachable_Inv cfg ops :
  Forall valid_op ops → Inv (engine (run clock ops (newWorld cfg))).
Proof.
  intros Hvalid.
  destruct (run_spec clock ops (newWorld cfg) Hvalid (Inv_new cfg)) as (HInv & _). done.
Qed.

Lemma increment_cases key amount w :
  key ≠ EmptyString → Inv (engine w) →
  let e := engine w in
  let r := fst (increment clock key amount w) in
  let e' := engine (snd (increment clock key amount w)) in
  match liveValue (clock (reads w)) key e with
  | None | Some VNull =>
      r = Returned amount ∧
      JSMap.get key (store e')
      = Some (CacheEntry.mk (VNumber amount) None (calculateEntrySize key (VNumber amount)))
  | Some (VNumber n) =>
      r = Returned (n + amount) ∧
      JSMap.get key (store e')
      = Some (CacheEntry.mk (VNumber (n + amount)) None
                (calculateEntrySize key (VNumber (n + amount))))
  | Some _ =>
      r = Thrown "Cannot increment non-numeric value" ∧
      store e' = store e ∧
      currentMemoryBytes e' = currentMemoryBytes e ∧
      (∀ k, Policy.has k (evictionPolicy e') = true ↔ Policy.has k (evictionPolicy e) = true) ∧
      StatisticsTracker.hits (stats e') = S (StatisticsTracker.hits (stats e))
  end.
Proof.
  intros Hkey HInv e r e'. subst r e'. unfold increment.
  destruct (get_spec clock key w HInv) as (Hval & HInv1 & _ & _ & _ & Hcase).
  destruct (get clock key w) as [currentValue w1]. simpl in Hval, HInv1, Hcase.
  fold e in Hval, Hcase.
  assert (∀ n,
    let res := set clock key (VNumber n) None w1 in
    JSMap.get key (store (engine (snd res)))
    = Some (CacheEntry.mk (VNumber n) None (calculateEntrySize key (VNumber n)))) as Hset.
  { intros n. by destruct (set_spec clock key (VNumber n) None w1 Hkey HInv1)
      as (_ & _ & _ & _ & ? & _). }
  destruct (liveValue (clock (reads w)) key e) as [v|]; simpl in Hval; subst currentValue.
  - destruct Hcase as (Hstore & Hcur & Hhits & _ & Hhas).
    destruct v; try (simpl; by split_and!).
    + specialize (Hset amount). destruct (set clock key (VNumber amount) None w1). by split.
    + specialize (Hset (n + amount)%float).
      destruct (set clock key (VNumber (n + amount)) None w1). by split.
  - specialize (Hset amount). destruct (set clock key (VNumber amount) None w1). by split.
Qed.

(** C7 (as amended).  In every state reached by public operations,
    INCREMENT(k, a) with a non-empty key k: when k is absent, expired, or holds
    the value null, sets k = a (without expiration) and returns a; when k holds
    a live number v, sets k = v + a and returns v + a; when k holds any other
    live value, fails with the type error and leaves the store, the memory
    account and the key set of the policy as they were, the read being counted
    as one hit.  The amount a and the number v are any JavaScript numbers
    (fractions, infinities and NaN included) and v + a is their sum in
    JavaScript, the IEEE 754 binary64 addition: 2^53 + 1 is 2^53. *)
Theorem increment_by_cases cfg ops key amount :
  Forall valid_op ops → key ≠ EmptyString →
  let w := run clock ops (newWorld cfg) in
  let e := engine w in
  let r := fst (increment clock key amount w) in
  let e' := engine (snd (increment clock key amount w)) in
  match liveValue (clock (reads w)) key e with
  | None | Some VNull =>
      r = Returned amount ∧
      JSMap.get key (store e')
      = Some (CacheEntry.mk (VNumber amount) None (calculateEntrySize key (VNumber amount)))
  | Some (VNumber n) =>
      r = Returned (n + amount) ∧
      JSMap.get key (store e')
      = Some (CacheEntry.mk (VNumber (n + amount)) None
                (calculateEntrySize key (VNumber (n + amount))))
  | Some _ =>
      r = Thrown "Cannot increment non-numeric value" ∧
      store e' = store e ∧
      currentMemoryBytes e' = currentMemoryBytes e ∧
      (∀ k, Policy.has k (evictionPolicy e') = true ↔ Policy.has k (evictionPolicy e) = true) ∧
      StatisticsTracker.hits (stats e') = S (StatisticsTracker.hits (stats e))
  end.
Proof.
  intros Hvalid Hkey w. apply increment_cases; [done|]. by apply reachable_Inv.
Qed.

Lemma getMultiple_loop_omits_null key keys result w :
  Inv (engine w) →
  (∀ entry, JSMap.get key (store (engine w)) = Some entry → CacheEntry.value entry = VNull) →
  JSMap.get key (JSObject.own result) = None →
  JSMap.get key (JSObject.own (fst (getMultiple_loop clock keys result w))) = None.
Proof.
  revert result w. induction keys as [|k rest IH]; intros result w HInv Hnull Hres; simpl;
    [done|].
  destruct (get_spec clock k w HInv) as (Hval & HInv1 & _ & _ & Hst & _).
  destruct (get clock k w) as [value w1]. simpl in Hval, HInv1, Hst.
  assert (∀ entry, JSMap.get key (store (engine w1)) = Some entry →
                   CacheEntry.value entry = VNull) as Hnull1.
  { intros entry Hentry. destruct (Hst key) as [Hk|Hk]; [congruence|].
    apply Hnull. by rewrite <- Hk. }
  assert (k = key → value = VNull) as Hkey.
  { intros ->. rewrite Hval. unfold liveValue.
    destruct (JSMap.get key (store (engine w))) as [entry|] eqn:Hentry; [|done].
    destruct (expiredAt (clock (reads w)) entry); [done|]. simpl. by apply Hnull. }
  assert (∀ v, value = v → v ≠ VNull →
          JSMap.get key
            (JSObject.own (fst (getMultiple_loop clock rest (JSObject.set k v result) w1)))
          = None)
    as Hother.
  { intros v -> Hv. apply IH; [done|done|].
    destruct (JSMap.get key (JSObject.own (JSObject.set k v result))) as [x|] eqn:Hx;
      [|done].
    apply JSObject_own_set in Hx as [[Hk _]|Hx]; [|congruence].
    symmetry in Hk. by apply Hkey in Hk. }
  destruct value; try (by apply Hother); by apply IH.
Qed.

(** C10.  In every state reached by public operations, for a key whose live
    stored value is null: GET returns null, which is also what GET returns for
    any absent key; that GET is counted as a hit, not as a miss, and the key
    stays resident with its entry; batch GET leaves the key out of its result;
    and INCREMENT returns the amount and overwrites the entry with it. *)
Theorem null_value_reads_as_miss cfg ops key amount keys :
  Forall valid_op ops → key ≠ EmptyString →
  let w := run clock ops (newWorld cfg) in
  let e := engine w in
  liveValue (clock (reads w)) key e = Some VNull →
  let e1 := engine (snd (get clock key w)) in
  let e2 := engine (snd (increment clock key amount w)) in
  fst (get clock key w) = VNull ∧
  (∀ w0 k0, JSMap.get k0 (store (engine w0)) = None → fst (get clock k0 w0) = VNull) ∧
  StatisticsTracker.hits (stats e1) = S (StatisticsTracker.hits (stats e)) ∧
  StatisticsTracker.misses (stats e1) = StatisticsTracker.misses (stats e) ∧
  is_Some (JSMap.get key (store e1)) ∧ store e1 = store e ∧
  JSMap.get key (JSObject.own (fst (getMultiple clock keys w))) = None ∧
  fst (increment clock key amount w) = Returned amount ∧
  JSMap.get key (store e2)
  = Some (CacheEntry.mk (VNumber amount) None (calculateEntrySize key (VNumber amount))).
Proof.
  intros Hvalid Hkey w e Hlive e1 e2.
  pose proof (reachable_Inv cfg ops Hvalid) as HInv. fold w in HInv.
  destruct (get_spec clock key w HInv) as (Hval & _ & _ & _ & _ & Hcase).
  fold e in Hval, Hcase. rewrite Hlive in Hval, Hcase. fold e1 in Hcase.
  destruct Hcase as (Hstore & _ & Hhits & Hmisses & _).
  pose proof (increment_cases key amount w Hkey HInv) as Hinc.
  cbv zeta in Hinc. fold e in Hinc. rewrite Hlive in Hinc. destruct Hinc as [Hret Hget].
  assert (∃ entry, JSMap.get key (store e) = Some entry ∧ CacheEntry.value entry = VNull)
    as (entry & Hentry & Hnull).
  { unfold liveValue in Hlive. destruct (JSMap.get key (store e)) as [entry|]; [|done].
    destruct (expiredAt (clock (reads w)) entry); [done|]. exists entry. split; congruence. }
  split_and!; try done.
  - intros w0 k0 Habsent. unfold get. by rewrite Habsent.
  - rewrite Hstore, Hentry. eauto.
  - apply getMultiple_loop_omits_null; [done| |done].
    intros entry' Hentry'. fold e in Hentry'. congruence.
Qed.

(** C9.  BATCH-SET of a list of entries answers [true] and leaves the engine,
    together with the number of clock readings, exactly where the individual
    SETs of the same entries in the same order leave it. *)
Theorem setMultiple_is_sequence_of_sets entries w :
  setMultiple clock entries w
  = (true,
     run clock
       (map (fun entry =>
               OpSet (BatchEntry.key entry) (BatchEntry.value entry) (BatchEntry.ttl entry))
          entries) w).
Proof.
  revert w. induction entries as [|entry rest IH]; intros w; cbn [setMultiple map].
  - done.
  - unfold run. cbn [fold_left step]. fold (run clock).
    destruct (set clock (BatchEntry.key entry) (BatchEntry.value entry)
                (BatchEntry.ttl entry) w) as [r w1].
    apply IH.
Qed.
End IncrementFacts.

(** ** LRU: the victim is the least recently accessed key *)

Lemma lastAccess_from_snoc position found ops op k :
  lastAccess_from position found (ops ++ [op]) k
  = if accesses op k then S (position + length ops)
    else lastAccess_from position found ops k.
Proof.
  revert position found. induction ops as [|o ops IH]; intros position found; simpl.
  - by rewrite Nat.add_0_r.
  - rewrite IH. by rewrite Nat.add_succ_r.
Qed.

Lemma lastAccess_from_le position found ops k :
  (lastAccess_from position found ops k ≤ Nat.max found (position + length ops))%nat.
Proof.
  revert position found. induction ops as [|o ops IH]; intros position found; simpl.
  - lia.
  - specialize (IH (S position) (if accesses o k then S position else found)).
    destruct (accesses o k); lia.
Qed.

Lemma lastAccess_snoc ops op k :
  lastAccess (ops ++ [op]) k
  = if accesses op k then S (length ops) else lastAccess ops k.
Proof. unfold lastAccess. by rewrite lastAccess_from_snoc. Qed.

Lemma lastAccess_le ops k : (lastAccess ops k ≤ length ops)%nat.
Proof. unfold lastAccess. pose proof (lastAccess_from_le 0 0 ops k). lia. Qed.

Lemma descending_ext (f g : string → nat) l :
  (∀ y, y ∈ l → g y = f y) → descending f l → descending g l.
Proof.
  induction l as [|x l IH]; simpl; [done|]. intros Heq [Hx Hl]. split.
  - intros y Hy. rewrite !Heq; [by apply Hx|by left|by right].
  - apply IH; [|done]. intros y Hy. apply Heq. by right.
Qed.

Lemma descending_removeNode f k l : descending f l → descending f (removeNode k l).
Proof.
  induction l as [|x l IH]; simpl; [done|]. intros [Hx Hl].
  unfold removeNode. rewrite filter_cons. case_decide; [|by apply IH].
  simpl. split; [|by apply IH]. intros y Hy. apply Hx.
  by apply removeNode_elem_of in Hy as [_ ?].
Qed.

Lemma descending_last f l v :
  descending f l → last l = Some v → ∀ k, k ∈ l → k ≠ v → (f v < f k)%nat.
Proof.
  induction l as [|x l IH]; simpl; [done|]. intros [Hx Hl] Hlast k Hk Hkv.
  destruct l as [|x' l'].
  - simpl in Hlast. injection Hlast as <-. apply list_elem_of_singleton in Hk. done.
  - rewrite last_cons_cons in Hlast.
    apply elem_of_cons in Hk as [->|Hk].
    + apply Hx. by apply last_Some_elem_of.
    + by apply IH.
Qed.

Lemma descending_touch (f f' : string → nat) n key l :
  descending f l → (∀ y, (f y ≤ n)%nat) → f' key = S n → (∀ y, y ≠ key → f' y = f y) →
  descending f' (key :: removeNode key l).
Proof.
  intros Hl Hle Hkey Hother. simpl. split.
  - intros y Hy. apply removeNode_elem_of in Hy as [Hne _].
    rewrite Hkey, Hother by done. specialize (Hle y). lia.
  - apply (descending_ext f); [|by apply descending_removeNode].
    intros y Hy. apply removeNode_elem_of in Hy as [Hne _]. by apply Hother.
Qed.

Lemma LRU_order_descending capacity ops :
  ∃ q, Policy_run ops (PolicyLRU (LRUPolicy.new capacity)) = PolicyLRU q ∧
       NoDup (LRUPolicy.order q) ∧ descending (lastAccess ops) (LRUPolicy.order q).
Proof.
  induction ops as [|op ops IH] using rev_ind.
  - exists (LRUPolicy.new capacity). split_and!; [done|apply NoDup_nil_2|done].
  - destruct IH as (q & Hrun & Hnd & Hdesc).
    unfold Policy_run in *. rewrite fold_left_app, Hrun. simpl.
    set (f := lastAccess ops) in *. set (f' := lastAccess (ops ++ [op])).
    assert (∀ y, (f y ≤ length ops)%nat) as Hle by (intros y; apply lastAccess_le).
    assert (∀ y, accesses op y = false → f' y = f y) as Hsame.
    { intros y Hy. subst f f'. by rewrite lastAccess_snoc, Hy. }
    assert (∀ y, accesses op y = true → f' y = S (length ops)) as Htouch.
    { intros y Hy. subst f f'. by rewrite lastAccess_snoc, Hy. }
    assert (∀ key, descending f' (key :: removeNode key (LRUPolicy.order q))
                   ∨ accesses op key = false) as Hmove.
    { intros key. destruct (accesses op key) eqn:Hacc; [left|by right].
      apply (descending_touch f f' (length ops)); try done; [by apply Htouch|].
      intros y Hy. apply Hsame. destruct op; simpl in *; try done;
        apply bool_decide_eq_true in Hacc; subst; by apply bool_decide_eq_false. }
    destruct op as [key|key|key| |]; simpl.
    + (* get *)
      unfold LRUPolicy.get. destruct (LRUPolicy.has key q) eqn:Hhas.
      * eexists. split; [done|]. simpl. unfold LRUPolicy.moveToHead, LRUPolicy.addToHead.
        split.
        -- apply NoDup_cons. split; [|by apply removeNode_NoDup].
           rewrite removeNode_elem_of. tauto.
        -- destruct (Hmove key) as [?|Hacc]; [done|].
           simpl in Hacc. by rewrite bool_decide_eq_true_2 in Hacc.
      * exists q. split_and!; [done|done|].
        apply (descending_ext f); [|done]. intros y Hy. apply Hsame. simpl.
        apply bool_decide_eq_false. intros ->.
        apply bool_decide_eq_false in Hhas. done.
    + (* set *)
      destruct (LRUPolicy.set key q) as [ev q'] eqn:Hset.
      destruct (LRU_set_spec _ _ _ _ Hnd Hset) as (Hnd' & _).
      exists q'. split_and!; [done|done|]. revert Hset. unfold LRUPolicy.set.
      destruct (LRUPolicy.has key q) eqn:Hhas.
      * intros [= <- <-]. simpl. unfold LRUPolicy.moveToHead, LRUPolicy.addToHead.
        destruct (Hmove key) as [?|Hacc]; [done|].
        simpl in Hacc. by rewrite bool_decide_eq_true_2 in Hacc.
      * apply bool_decide_eq_false in Hhas.
        assert (∀ l, (∀ y, y ∈ l → y ∈ LRUPolicy.order q) → descending f l →
                     descending f' (key :: l)) as Hadd.
        { intros l Hsub Hl.
          assert (key ∉ l) as Hnotin by (intros Hin; by apply Hhas, Hsub).
          rewrite <- (removeNode_absent key l) by done.
          apply (descending_touch f f' (length ops)); try done.
          - apply Htouch. simpl. by apply bool_decide_eq_true.
          - intros y Hy. apply Hsame. simpl. by apply bool_decide_eq_false. }
        assert (∀ l, (∀ y, y ∈ l → y ∈ LRUPolicy.order q) → descending f l →
                     descending f' l) as Hkeep.
        { intros l Hsub Hl. apply (descending_ext f); [|done].
          intros y Hy. apply Hsame. simpl. apply bool_decide_eq_false.
          intros ->. by apply Hhas, Hsub. }
        destruct ((0 <? LRUPolicy.capacity q) && (LRUPolicy.capacity q <=? LRUPolicy.size q)).
        -- unfold LRUPolicy.evictLRU.
           destruct (last (LRUPolicy.order q)) as [v|];
             destruct (LRUPolicy.capacity q =? 0); intros [= <- <-]; simpl.
           ++ apply Hkeep; [|by apply descending_removeNode].
              intros y Hy. by apply removeNode_elem_of in Hy as [_ ?].
           ++ apply Hadd; [|by apply descending_removeNode].
              intros y Hy. by apply removeNode_elem_of in Hy as [_ ?].
           ++ by apply Hkeep.
           ++ by apply Hadd.
        -- destruct (LRUPolicy.capacity q =? 0); intros [= <- <-]; simpl.
           ++ by apply Hkeep.
           ++ by apply Hadd.
    + (* delete *)
      unfold LRUPolicy.delete. destruct (LRUPolicy.has key q).
      * eexists. split; [done|]. simpl. split; [by apply removeNode_NoDup|].
        apply (descending_ext f); [|by apply descending_removeNode].
        intros y _. by apply Hsame.
      * exists q. split_and!; [done|done|].
        apply (descending_ext f); [|done]. intros y _. by apply Hsame.
    + (* evict *)
      unfold LRUPolicy.evict, LRUPolicy.evictLRU.
      destruct (last (LRUPolicy.order q)) as [v|].
      * eexists. split; [done|]. simpl. split; [by apply removeNode_NoDup|].
        apply (descending_ext f); [|by apply descending_removeNode].
        intros y _. by apply Hsame.
      * exists q. split_and!; [done|done|].
        apply (descending_ext f); [|done]. intros y _. by apply Hsame.
    + (* clear *)
      eexists. split; [done|]. simpl. split; [apply NoDup_nil_2|done].
Qed.

(** C8.  After every sequence of operations on an LRU policy of any capacity,
    if the policy holds a key then [evict] returns and removes a resident
    key whose last access (the last [get] or [set] of it, the insertion when
    nothing followed it) is strictly earlier than the last access of every
    other resident key.  By [resident_at_last_get] below, a [get] that is the
    last access of a resident key found that key. *)
Theorem LRU_evict_least_recently_used capacity ops :
  let p := Policy_run ops (PolicyLRU (LRUPolicy.new capacity)) in
  0 < Policy.size p →
  ∃ v p',
    Policy.evict p = (Some v, p') ∧
    Policy.has v p = true ∧ Policy.has v p' = false ∧
    ∀ k, Policy.has k p = true → k ≠ v → (lastAccess ops v < lastAccess ops k)%nat.
Proof.
  intros p. subst p. destruct (LRU_order_descending capacity ops) as (q & -> & Hnd & Hdesc).
  simpl. unfold LRUPolicy.size, LRUPolicy.evict, LRUPolicy.evictLRU. intros Hsize.
  destruct (last (LRUPolicy.order q)) as [v|] eqn:Hlast.
  - exists v. eexists. split; [done|]. simpl. split_and!.
    + apply LRU_has_true. by apply last_Some_elem_of.
    + apply bool_decide_eq_false. simpl. rewrite removeNode_elem_of. tauto.
    + intros k Hk Hkv. apply LRU_has_true in Hk. by apply (descending_last _ _ _ Hdesc Hlast).
  - apply last_None in Hlast. rewrite Hlast in Hsize. simpl in Hsize. lia.
Qed.

Lemma LRU_evict_least_recently_used_witness :
  let ops := [PSet "a"; PSet "b"; PSet "c"; PGet "a"] in
  let p := Policy_run ops (PolicyLRU (LRUPolicy.new 3)) in
  0 < Policy.size p ∧
  ∃ v p',
    Policy.evict p = (Some v, p') ∧
    Policy.has v p = true ∧ Policy.has v p' = false ∧
    ∀ k, Policy.has k p = true → k ≠ v → (lastAccess ops v < lastAccess ops k)%nat.
Proof.
  split.
  - vm_compute. reflexivity.
  - apply (LRU_evict_least_recently_used 3 [PSet "a"; PSet "b"; PSet "c"; PGet "a"]).
    vm_compute. reflexivity.
Defined.

(** ** Where the code departs from the specification *)

(** C2 (defect of the code, at [maxKeys = 0]).  With 1 MB, capacity 0 and LRU,
    after one SET the store holds the key and accounts its 73 bytes while the
    policy holds no key: the two key sets differ and the sizes are 1 and 0. *)
Theorem store_and_policy_differ_at_capacity_zero :
  let e := engine (run (fun _ => 0) [OpSet "a" (VNumber 1) None]
                     (newWorld (CacheConfig.mk 1 0 LRU))) in
  keys e = ["a"] ∧ JSMap.size (store e) = 1 ∧
  Policy.has "a" (evictionPolicy e) = false ∧ Policy.size (evictionPolicy e) = 0 ∧
  currentMemoryBytes e = 73.
Proof. vm_compute. by split_and!. Qed.

(** C3 (defect of the code).  For LFU, [delete] moves [minFrequency] up by
    one when the list it names has gone, and [evict] leaves it as it is:
    after [set a; delete a] the policy holds no key and [minFrequency] is 2,
    not 0; after [set a; get a; get a; set b; delete b] the only list is the
    one of frequency 3 and [minFrequency] is 2; after
    [set a; set b; get b; get b; evict] the only list is the one of frequency
    3 and [minFrequency] is 1. *)
Theorem LFU_minFrequency_not_the_minimum :
  Policy_run [PSet "a"; PDelete "a"] (PolicyLFU (LFUPolicy.new 3))
  = PolicyLFU (LFUPolicy.mk 3 ∅ ∅ 2) ∧
  Policy_run [PSet "a"; PGet "a"; PGet "a"; PSet "b"; PDelete "b"]
    (PolicyLFU (LFUPolicy.new 3))
  = PolicyLFU (LFUPolicy.mk 3 {["a" := 3%nat]} {[3%nat := ["a"]]} 2) ∧
  Policy_run [PSet "a"; PSet "b"; PGet "b"; PGet "b"; PEvict]
    (PolicyLFU (LFUPolicy.new 3))
  = PolicyLFU (LFUPolicy.mk 3 {["b" := 3%nat]} {[3%nat := ["b"]]} 1).
Proof. vm_compute. by split_and!. Qed.

(** C4 (defect of the code, the one of C3).  For LFU, after
    [set a; get a; get a; set b; delete b] the key [a] is resident and
    [evict] returns no victim and removes nothing. *)
Theorem LFU_evict_finds_no_victim_after_delete :
  let p := Policy_run [PSet "a"; PGet "a"; PGet "a"; PSet "b"; PDelete "b"]
             (PolicyLFU (LFUPolicy.new 3)) in
  Policy.has "a" p = true ∧ Policy.size p = 1 ∧ Policy.evict p = (None, p).
Proof. vm_compute. by split_and!. Qed.

(** C5 (defect of the code).  With [maxKeys = 0], a SET returns [true] and
    stores the entry and accounts its memory, and the GET that follows returns
    the stored value and is counted as a hit. *)
Theorem capacity_zero_does_not_disable_the_cache :
  let clock := fun _ : nat => 0 in
  let w0 := newWorld (CacheConfig.mk 1 0 LRU) in
  let w1 := snd (set clock "a" (VNumber 1) None w0) in
  let w2 := snd (get clock "a" w1) in
  fst (set clock "a" (VNumber 1) None w0) = true ∧
  JSMap.get "a" (store (engine w1)) = Some (CacheEntry.mk (VNumber 1) None 73) ∧
  currentMemoryBytes (engine w1) = 73 ∧
  fst (get clock "a" w1) = VNumber 1 ∧
  StatisticsTracker.hits (stats (engine w2)) = 1%nat ∧
  StatisticsTracker.misses (stats (engine w2)) = 0%nat.
Proof. vm_compute. by split_and!. Qed.

(** C6 (defect of the code).  The clock shows 0, 2000, 4000, ... at its
    successive readings.  A key set at 0 with a TTL of 1000 is expired at
    2000; yet KEYS lists it, and UPDATE-TTL at 2000 answers [true] and gives
    the entry the expiration 7000, after which GET returns its value as a
    hit.  EXISTS and GET at 2000 would have removed the entry. *)
Theorem expired_entry_listed_and_revived :
  let clock := fun n : nat => 2000 * Z.of_nat n in
  let w1 := run clock [OpSet "k" (VString "v") (Some 1000)]
              (newWorld (CacheConfig.mk 1 10 LRU)) in
  let w2 := snd (updateTTL clock "k" 5000 w1) in
  liveValue (clock (reads w1)) "k" (engine w1) = None ∧
  keys (engine w1) = ["k"] ∧
  fst (updateTTL clock "k" 5000 w1) = true ∧
  JSMap.get "k" (store (engine w2)) = Some (CacheEntry.mk (VString "v") (Some 7000) 66) ∧
  fst (get clock "k" w2) = VString "v" ∧
  fst (exists_ clock "k" w1) = false ∧
  fst (get clock "k" w1) = VNull.
Proof. vm_compute. by split_and!. Qed.

(** C7 (as stated) fails.  The key [k] holds null, a present non-numeric
    value: INCREMENT raises no type error, it returns the amount and
    overwrites the value.  The key [s] holds a string: INCREMENT raises the
    type error, but the state has changed, one hit is counted and the LRU
    order has [s] at its head. *)
Lemma increment_null_no_error_and_error_changes_state :
  let clock := fun _ : nat => 0 in
  let w := run clock [OpSet "s" (VString "x") None; OpSet "k" VNull None]
             (newWorld (CacheConfig.mk 1 10 LRU)) in
  let w' := snd (increment clock "s" 1 w) in
  fst (increment clock "k" 5 w) = Returned 5 ∧
  JSMap.get "k" (store (engine (snd (increment clock "k" 5 w))))
  = Some (CacheEntry.mk (VNumber 5) None 73) ∧
  fst (increment clock "s" 1 w) = Thrown "Cannot increment non-numeric value" ∧
  StatisticsTracker.hits (stats (engine w)) = 0%nat ∧
  StatisticsTracker.hits (stats (engine w')) = 1%nat ∧
  evictionPolicy (engine w) = PolicyLRU (LRUPolicy.mk 10 ["k"; "s"]) ∧
  evictionPolicy (engine w') = PolicyLRU (LRUPolicy.mk 10 ["s"; "k"]).
Proof. vm_compute. by split_and!. Qed.

Lemma increment_by_cases_witness :
  let clock := fun n : nat => Z.of_nat n in
  let cfg := CacheConfig.mk 1 10 LFU in
  let ops := [OpSet "n" (VNumber 9007199254740992) (Some 60000); OpGet "n"] in
  let w := run clock ops (newWorld cfg) in
  Forall valid_op ops ∧ "n" ≠ EmptyString ∧
  fst (increment clock "n" 1 w) = Returned 9007199254740992 ∧
  JSMap.get "n" (store (engine (snd (increment clock "n" 1 w))))
  = Some (CacheEntry.mk (VNumber 9007199254740992) None 73).
Proof.
  assert (Forall valid_op [OpSet "n" (VNumber 9007199254740992) (Some 60000); OpGet "n"])
    as Hvalid by (repeat constructor; simpl; discriminate).
  assert ("n" ≠ EmptyString) as Hkey by discriminate.
  split; [exact Hvalid|]. split; [exact Hkey|].
  exact (increment_by_cases (fun n : nat => Z.of_nat n) (CacheConfig.mk 1 10 LFU)
           [OpSet "n" (VNumber 9007199254740992) (Some 60000); OpGet "n"] "n" 1
           Hvalid Hkey).
Defined.

Lemma null_value_reads_as_miss_witness :
  let clock := fun n : nat => Z.of_nat n in
  let cfg := CacheConfig.mk 1 10 LRU in
  let ops := [OpSet "a" (VString "x") None; OpSet "k" VNull None] in
  let w := run clock ops (newWorld cfg) in
  Forall valid_op ops ∧ "k" ≠ EmptyString ∧
  liveValue (clock (reads w)) "k" (engine w) = Some VNull ∧
  fst (get clock "k" w) = VNull ∧
  JSMap.get "k" (JSObject.own (fst (getMultiple clock ["a"; "k"] w))) = None ∧
  fst (increment clock "k" 7 w) = Returned 7.
Proof.
  assert (Forall valid_op [OpSet "a" (VString "x") None; OpSet "k" VNull None]) as Hvalid
    by (repeat constructor; simpl; discriminate).
  assert ("k" ≠ EmptyString) as Hkey by discriminate.
  assert (liveValue 2 "k"
            (engine (run (fun n : nat => Z.of_nat n)
                       [OpSet "a" (VString "x") None; OpSet "k" VNull None]
                       (newWorld (CacheConfig.mk 1 10 LRU)))) = Some VNull) as Hlive
    by (vm_compute; reflexivity).
  split; [exact Hvalid|]. split; [exact Hkey|]. split; [exact Hlive|].
  pose proof (null_value_reads_as_miss (fun n : nat => Z.of_nat n) (CacheConfig.mk 1 10 LRU)
                [OpSet "a" (VString "x") None; OpSet "k" VNull None] "k" 7 ["a"; "k"]
                Hvalid Hkey Hlive) as H.
  cbv zeta in H. destruct H as (Hget & _ & _ & _ & _ & _ & Hbatch & Hinc & _).
  split; [exact Hget|]. split; [exact Hbatch|exact Hinc].
Defined.

(** ** For a capacity other than 0 the store and the policy agree *)

Lemma Policy_size_of_keys p l :
  Policy_wf p → NoDup l → (∀ k, Policy.has k p = true ↔ k ∈ l) →
  Policy.size p = Z.of_nat (length l).
Proof.
  intros Hwf Hnd Hhas. destruct p as [q|q|q]; simpl in *.
  - unfold LRUPolicy.size. f_equal. apply Permutation_length.
    apply NoDup_Permutation; [done|done|]. intros k. by rewrite <- Hhas, LRU_has_true.
  - unfold LFUPolicy.size. f_equal.
    rewrite <- (size_dom (D := gset string)). unfold base.size, set_size. simpl.
    apply Permutation_length. apply NoDup_Permutation; [apply NoDup_elements|done|].
    intros k. by rewrite elem_of_elements, elem_of_dom, <- Hhas, LFU_has_true.
  - unfold FIFOPolicy.size. f_equal. apply Permutation_length.
    apply NoDup_Permutation; [done|done|]. intros k. by rewrite <- Hhas, FIFO_has_true.
Qed.

(** The invariant of C2, for every configuration with [maxKeys ≠ 0] and all
    three policies: in every state reached by public operations with
    non-empty keys, the policy holds exactly the keys of the store, the two
    sizes are equal, and [currentMemoryBytes] is the sum of the sizes of the
    resident entries. *)
Lemma store_and_policy_agree clock cfg ops :
  CacheConfig.maxKeys cfg ≠ 0 → Forall valid_op ops →
  let e := engine (run clock ops (newWorld cfg)) in
  (∀ k, Policy.has k (evictionPolicy e) = JSMap.has k (store e)) ∧
  Policy.size (evictionPolicy e) = JSMap.size (store e) ∧
  currentMemoryBytes e = storeBytes (store e).
Proof.
  intros Hkeys Hvalid e.
  destruct (run_spec clock ops (newWorld cfg) Hvalid (Inv_new cfg)) as (HInv & Hframe & _).
  fold e in HInv, Hframe. destruct (frame_inv _ _ Hframe) as (_ & Hcap & _).
  destruct (Policy_create_spec cfg) as (_ & Hcap0 & _). simpl in Hcap.
  rewrite Hcap0 in Hcap.
  assert (∀ k, Policy.has k (evictionPolicy e) = true ↔ k ∈ JSMap.keys (store e)) as Hiff.
  { intros k. rewrite <- JSMap_get_elem_of. split.
    - apply (Inv_policy_store _ HInv).
    - apply (Inv_store_policy _ HInv). by rewrite Hcap. }
  split_and!.
  - intros k. specialize (Hiff k). rewrite <- JSMap_get_elem_of in Hiff.
    unfold JSMap.has. destruct (Policy.has k (evictionPolicy e)).
    + destruct Hiff as [[entry ->] _]; done.
    + destruct (JSMap.get k (store e)); [|done].
      destruct Hiff as [_ Hiff]. exfalso. assert (false = true) by eauto. done.
  - rewrite (Policy_size_of_keys _ (JSMap.keys (store e))); [|apply HInv|apply HInv|done].
    unfold JSMap.size, JSMap.keys. by rewrite length_map.
  - apply HInv.
Qed.

(** ** LRU: the last access of a resident key is a successful one *)

Lemma Policy_step_has p op k :
  Policy_wf p → Policy.has k (Policy_step p op) = true →
  Policy.has k p = true ∨ op = PSet k.
Proof.
  intros Hwf. destruct op as [key|key|key| |]; simpl.
  - destruct (Policy.get key p) as [r p'] eqn:E.
    destruct (Policy_get_spec _ _ _ _ Hwf E) as (_ & _ & _ & Hsame).
    simpl. rewrite Hsame. by left.
  - destruct (Policy.set key p) as [ev p'] eqn:E.
    destruct (Policy_set_spec _ _ _ _ Hwf E) as (_ & _ & _ & Hsame & Hnew). simpl.
    destruct (Policy.has key p) eqn:Hhas.
    + destruct Hsame as [_ Hsame]; [by left|]. rewrite Hsame. by left.
    + destruct (decide (Policy.capacity p = 0)) as [Hc|Hc].
      * destruct Hsame as [_ Hsame]; [by right|]. rewrite Hsame. by left.
      * specialize (Hnew eq_refl Hc). destruct ev as [v|].
        -- destruct Hnew as [_ Hk]. rewrite Hk. intros [->|[? _]]; [by right|by left].
        -- rewrite Hnew. intros [->|?]; [by right|by left].
  - destruct (Policy.delete key p) as [r p'] eqn:E.
    destruct (Policy_delete_spec _ _ _ _ Hwf E) as (_ & _ & _ & Hk).
    simpl. rewrite Hk. intros [? _]. by left.
  - destruct (Policy.evict p) as [ev p'] eqn:E.
    destruct (Policy_evict_spec _ _ _ Hwf E) as (_ & _ & _ & Hm). simpl.
    destruct ev as [v|].
    + destruct Hm as [_ Hk]. rewrite Hk. intros [? _]. by left.
    + destruct Hm as [-> _]. by left.
  - destruct (Policy_clear_spec p) as (_ & _ & _ & Hnone). by rewrite Hnone.
Qed.

Lemma Policy_step_wf p op : Policy_wf p → Policy_wf (Policy_step p op).
Proof.
  intros Hwf. destruct op as [key|key|key| |]; simpl.
  - destruct (Policy.get key p) as [r p'] eqn:E.
    by destruct (Policy_get_spec _ _ _ _ Hwf E) as (? & _).
  - destruct (Policy.set key p) as [ev p'] eqn:E.
    by destruct (Policy_set_spec _ _ _ _ Hwf E) as (? & _).
  - destruct (Policy.delete key p) as [r p'] eqn:E.
    by destruct (Policy_delete_spec _ _ _ _ Hwf E) as (? & _).
  - destruct (Policy.evict p) as [ev p'] eqn:E.
    by destruct (Policy_evict_spec _ _ _ Hwf E) as (? & _).
  - by destruct (Policy_clear_spec p) as (? & _).
Qed.

Lemma Policy_run_wf ops p : Policy_wf p → Policy_wf (Policy_run ops p).
Proof.
  revert p. induction ops as [|op ops IH]; intros p Hwf; [done|].
  apply IH. by apply Policy_step_wf.
Qed.

(** If [k] is resident after [before ++ PGet k :: after] and nothing in
    [after] is a [set] of [k], then [k] was resident when that [get] was
    made: the [get] found the key. *)
Lemma resident_at_last_get p before after k :
  Policy_wf p →
  Forall (fun op => op ≠ PSet k) after →
  Policy.has k (Policy_run (before ++ PGet k :: after) p) = true →
  Policy.has k (Policy_run before p) = true.
Proof.
  intros Hwf Hafter. unfold Policy_run. rewrite fold_left_app. simpl.
  fold (Policy_run before p).
  pose proof (Policy_run_wf before p Hwf) as Hwf1.
  set (p1 := Policy_run before p) in *. clearbody p1.
  assert (∀ q, Policy_wf q → Policy.has k (fold_left Policy_step after q) = true →
               Policy.has k q = true) as Hback.
  { induction Hafter as [|op after Hop _ IH]; intros q Hq; simpl; [done|].
    intros Hk. apply IH in Hk; [|by apply Policy_step_wf].
    by apply Policy_step_has in Hk as [?|?]. }
  intros Hk. apply Hback in Hk; [|by apply (Policy_step_wf p1 (PGet k))].
  by apply (Policy_step_has p1 (PGet k)) in Hk as [?|?].
Qed.

(** ** LFU in the engine: the stale [minFrequency] stops the eviction loop *)

(** With 1 MB, 100 keys and LFU: [a] (about 400 KB) is set and read twice,
    [b] (about 400 KB) is set, then [c] (about 900 KB, less than [maxBytes])
    is set.  The loop of SET evicts [b], finds no further victim although [a]
    is resident, and [c] is inserted: [currentMemoryBytes] ends above
    [maxBytes]. *)
Lemma LFU_engine_exceeds_maxBytes_with_fitting_entries :
  let block := VArray (repeat (VNumber 0) 512) in
  let ops := [OpSet "a" (VArray (repeat block 100)) None; OpGet "a"; OpGet "a";
              OpSet "b" (VArray (repeat block 100)) None;
              OpSet "c" (VArray (repeat block 220)) None] in
  let e := engine (run (fun _ => 0) ops (newWorld (CacheConfig.mk 1 100 LFU))) in
  Forall (fits 1048576) ops ∧
  keys e = ["a"; "c"] ∧ maxMemoryBytes e = 1048576 ∧ currentMemoryBytes e = 1316002.
Proof.
  split.
  - repeat constructor; vm_compute; discriminate.
  - vm_compute. by split_and!.
Qed.

(** * Further properties of the code *)

(** ** SET, GET, DELETE, EXISTS, UPDATE-TTL and CLEAR *)

Section EngineRoundTrips.
Variable clock : nat → Z.

Lemma expiredAt_fresh now later value ttl size :
  (∀ t, ttl = Some t → t ≠ 0 → later ≤ now + t) →
  expiredAt later (CacheEntry.mk value (expiresAtOf now ttl) size) = false.
Proof.
  intros Hlater. unfold expiredAt, expiresAtOf. simpl.
  destruct ttl as [t|]; [|done]. unfold truthy_number at 1.
  destruct (t =? 0) eqn:Ht; [done|]. apply Z.eqb_neq in Ht. simpl.
  specialize (Hlater t eq_refl Ht). apply andb_false_iff. right. apply Z.ltb_ge. lia.
Qed.

Lemma delete_stats key e : stats (snd (delete key e)) = stats e.
Proof. unfold delete. by destruct (JSMap.get key (store e)). Qed.

Lemma get_expirations key w :
  StatisticsTracker.expirations (stats (engine (snd (get clock key w))))
  = match JSMap.get key (store (engine w)) with
    | Some entry =>
        if expiredAt (clock (reads w)) entry
        then S (StatisticsTracker.expirations (stats (engine w)))
        else StatisticsTracker.expirations (stats (engine w))
    | None => StatisticsTracker.expirations (stats (engine w))
    end.
Proof.
  unfold get. destruct (JSMap.get key (store (engine w))) as [entry|]; [|done].
  destruct (isExpired_spec clock entry w) as [Hexp Heng].
  destruct (isExpired clock entry w) as [expired w1]. simpl in Hexp, Heng.
  rewrite <- Hexp. destruct expired; simpl.
  - unfold_with. by rewrite delete_stats, Heng.
  - unfold_with. by rewrite Heng.
Qed.

(** X1.  In every state reached by public operations, SET(k, v, ttl) followed
    at once by GET(k) returns v and counts one hit, provided that the clock
    read by GET is not past the expiration; there is no condition on the
    clock when there is no TTL or when the TTL is 0, which SET takes for
    "no expiration". *)
Theorem set_then_get_returns_the_value cfg ops key value ttl :
  Forall valid_op ops → key ≠ EmptyString →
  let w := run clock ops (newWorld cfg) in
  let w1 := snd (set clock key value ttl w) in
  let w2 := snd (get clock key w1) in
  (∀ t, ttl = Some t → t ≠ 0 → clock (S (reads w)) ≤ clock (reads w) + t) →
  fst (get clock key w1) = value ∧
  StatisticsTracker.hits (stats (engine w2)) = S (StatisticsTracker.hits (stats (engine w1))) ∧
  StatisticsTracker.misses (stats (engine w2)) = StatisticsTracker.misses (stats (engine w1)) ∧
  store (engine w2) = store (engine w1).
Proof.
  intros Hvalid Hkey w w1 w2 Hlive.
  pose proof (reachable_Inv clock cfg ops Hvalid) as HInv. fold w in HInv.
  destruct (set_spec clock key value ttl w Hkey HInv) as (_ & Hreads & HInv1 & _ & Hget & _).
  fold w1 in Hreads, HInv1, Hget.
  destruct (get_spec clock key w1 HInv1) as (Hval & _ & _ & _ & _ & Hcase).
  fold w2 in Hcase. unfold liveValue in Hval, Hcase. rewrite Hget, Hreads in Hval, Hcase.
  rewrite expiredAt_fresh in Hval, Hcase by done. simpl in Hval.
  destruct Hcase as (? & _ & ? & ? & _). done.
Qed.

(** X2.  In every state reached by public operations, SET(k, v, ttl) with a
    TTL other than 0 followed by a GET(k) whose clock reading is past the
    expiration returns the miss sentinel, removes the entry, and counts one
    expiration and one miss (no hit).  The expiration instant itself must not
    be 0, which the code takes for "no expiration". *)
Theorem set_then_get_after_expiry_misses cfg ops key value t :
  Forall valid_op ops → key ≠ EmptyString →
  let w := run clock ops (newWorld cfg) in
  let w1 := snd (set clock key value (Some t) w) in
  let w2 := snd (get clock key w1) in
  t ≠ 0 → clock (reads w) + t ≠ 0 → clock (reads w) + t < clock (S (reads w)) →
  fst (get clock key w1) = VNull ∧
  JSMap.get key (store (engine w2)) = None ∧
  StatisticsTracker.expirations (stats (engine w2))
  = S (StatisticsTracker.expirations (stats (engine w1))) ∧
  StatisticsTracker.misses (stats (engine w2)) = S (StatisticsTracker.misses (stats (engine w1))) ∧
  StatisticsTracker.hits (stats (engine w2)) = StatisticsTracker.hits (stats (engine w1)).
Proof.
  intros Hvalid Hkey w w1 w2 Ht Hexp Hpast.
  pose proof (reachable_Inv clock cfg ops Hvalid) as HInv. fold w in HInv.
  destruct (set_spec clock key value (Some t) w Hkey HInv)
    as (_ & Hreads & HInv1 & _ & Hget & _).
  fold w1 in Hreads, HInv1, Hget.
  assert (expiredAt (clock (S (reads w)))
            (CacheEntry.mk value (expiresAtOf (clock (reads w)) (Some t))
               (calculateEntrySize key value)) = true) as Hexpired.
  { unfold expiredAt, expiresAtOf, truthy_number. simpl.
    rewrite (proj2 (Z.eqb_neq t 0)) by done. simpl.
    rewrite (proj2 (Z.eqb_neq _ 0)) by done. simpl. by apply Z.ltb_lt. }
  destruct (get_spec clock key w1 HInv1) as (Hval & _ & _ & _ & _ & Hcase).
  pose proof (get_expirations key w1) as Hexps.
  fold w2 in Hcase, Hexps. unfold liveValue in Hval, Hcase.
  rewrite Hget, Hreads in Hval, Hcase, Hexps. rewrite Hexpired in Hval, Hcase, Hexps.
  simpl in Hval. destruct Hcase as (? & ? & ?). done.
Qed.

(** X3.  In every state reached by public operations, DELETE(k) answers
    whether k was resident; afterwards k is not resident, every other key has
    the entry it had, [currentMemoryBytes] has gone down by the size of the
    entry, the statistics are as they were; and a second DELETE(k) answers
    [false] and changes nothing. *)
Theorem delete_removes_once cfg ops key :
  Forall valid_op ops →
  let e := engine (run clock ops (newWorld cfg)) in
  let e1 := snd (delete key e) in
  fst (delete key e) = JSMap.has key (store e) ∧
  (∀ k, JSMap.get k (store e1) = if decide (k = key) then None else JSMap.get k (store e)) ∧
  currentMemoryBytes e1
  = currentMemoryBytes e
    - match JSMap.get key (store e) with Some entry => CacheEntry.size entry | None => 0 end ∧
  stats e1 = stats e ∧
  delete key e1 = (false, e1).
Proof.
  intros Hvalid e e1.
  pose proof (reachable_Inv clock cfg ops Hvalid) as HInv. fold e in HInv.
  destruct (delete key e) as [r e'] eqn:Hdel.
  destruct (delete_spec _ _ _ _ HInv Hdel) as (_ & _ & Hstats & _ & Hst).
  subst e1. simpl. split_and!; try done.
  - revert Hdel. unfold delete, JSMap.has.
    destruct (JSMap.get key (store e)); by intros [= <- _].
  - revert Hdel. unfold delete.
    destruct (JSMap.get key (store e)); intros [= _ <-]; simpl; lia.
  - unfold delete. specialize (Hst key). rewrite decide_True in Hst by done.
    by rewrite Hst.
Qed.

Lemma exists_stats key w :
  let s := stats (engine w) in
  let s' := stats (engine (snd (exists_ clock key w))) in
  StatisticsTracker.hits s' = StatisticsTracker.hits s ∧
  StatisticsTracker.misses s' = StatisticsTracker.misses s ∧
  StatisticsTracker.operations s' = StatisticsTracker.operations s ∧
  StatisticsTracker.expirations s'
  = if bool_decide (is_Some (JSMap.get key (store (engine w))))
       && negb (bool_decide (is_Some (liveValue (clock (reads w)) key (engine w))))
    then S (StatisticsTracker.expirations s) else StatisticsTracker.expirations s.
Proof.
  unfold exists_, liveValue.
  destruct (JSMap.get key (store (engine w))) as [entry|]; [|done].
  destruct (isExpired_spec clock entry w) as [Hexp Heng].
  destruct (isExpired clock entry w) as [expired w1]. simpl in Hexp, Heng.
  rewrite <- Hexp. destruct expired; simpl.
  - unfold_with. by rewrite delete_stats, Heng.
  - by rewrite Heng.
Qed.

(** X4.  In every state reached by public operations, EXISTS(k) answers
    whether k holds a live entry (resident and not expired at the reading of
    the clock); it never changes the hit and miss counters nor the ops/sec
    buffer.  On an absent key it answers [false] without reading the clock
    and leaves the engine as it is; on a live key it leaves the engine as it
    is; on an expired key it removes that entry and no other, lowers the
    memory account by the size of the entry, counts one expiration and
    leaves the policy of every other key, the evictions and the memory
    limits as they were. *)
Theorem exists_answers_liveness cfg ops key :
  Forall valid_op ops →
  let w := run clock ops (newWorld cfg) in
  let e := engine w in
  let e1 := engine (snd (exists_ clock key w)) in
  let live := bool_decide (is_Some (liveValue (clock (reads w)) key e)) in
  fst (exists_ clock key w) = live ∧
  StatisticsTracker.hits (stats e1) = StatisticsTracker.hits (stats e) ∧
  StatisticsTracker.misses (stats e1) = StatisticsTracker.misses (stats e) ∧
  StatisticsTracker.operations (stats e1) = StatisticsTracker.operations (stats e) ∧
  (if live then e1 = e
   else JSMap.get key (store e1) = None ∧
        StatisticsTracker.expirations (stats e1)
        = if JSMap.has key (store e) then S (StatisticsTracker.expirations (stats e))
          else StatisticsTracker.expirations (stats e)) ∧
  match JSMap.get key (store e) with
  | None => exists_ clock key w = (false, w)
  | Some entry =>
      if expiredAt (clock (reads w)) entry then
        store e1 = JSMap.delete key (store e) ∧
        (∀ k, JSMap.get k (store e1)
              = if decide (k = key) then None else JSMap.get k (store e)) ∧
        currentMemoryBytes e1 = currentMemoryBytes e - CacheEntry.size entry ∧
        evictionPolicy e1 = snd (Policy.delete key (evictionPolicy e)) ∧
        (∀ k, Policy.has k (evictionPolicy e1) = true
              ↔ Policy.has k (evictionPolicy e) = true ∧ k ≠ key) ∧
        StatisticsTracker.expirations (stats e1) = S (StatisticsTracker.expirations (stats e)) ∧
        StatisticsTracker.evictions (stats e1) = StatisticsTracker.evictions (stats e) ∧
        maxMemoryBytes e1 = maxMemoryBytes e ∧ memoryThreshold e1 = memoryThreshold e
      else e1 = e
  end.
Proof.
  intros Hvalid w e e1 live.
  pose proof (reachable_Inv clock cfg ops Hvalid) as HInv. fold w in HInv.
  destruct (exists_spec clock key w HInv) as (Hans & _ & _ & _ & Hgone).
  destruct (exists_stats key w) as (Hh & Hm & Ho & He).
  fold e e1 in Hans, Hgone, Hh, Hm, Ho, He. fold live in Hans.
  split_and!; try done.
  - destruct live eqn:Hlive; subst live.
    + apply bool_decide_eq_true in Hlive. subst e1. unfold exists_, liveValue in *.
      fold e in Hlive |- *.
      destruct (JSMap.get key (store e)) as [entry|]; [|by destruct Hlive].
      destruct (isExpired_spec clock entry w) as [Hexp Heng].
      destruct (isExpired clock entry w) as [expired w1]. simpl in Hexp, Heng.
      rewrite <- Hexp in Hlive. destruct expired; [by destruct Hlive|]. done.
    + apply bool_decide_eq_false in Hlive. split.
      * apply Hgone. destruct (liveValue (clock (reads w)) key e); [|done].
        exfalso. apply Hlive. eauto.
      * rewrite He. unfold JSMap.has. rewrite (bool_decide_eq_false_2 _ Hlive).
        destruct (JSMap.get key (store e)); done.
  - clear Hans Hgone Hh Hm Ho He. subst e1 live. unfold exists_. fold e.
    destruct (JSMap.get key (store e)) as [entry|] eqn:Hget; [|done].
    destruct (isExpired_spec clock entry w) as [Hexp Heng].
    destruct (isExpired clock entry w) as [expired w1]. simpl in Hexp, Heng.
    rewrite <- Hexp. destruct expired; [|done].
    unfold_with. rewrite Heng. fold e.
    destruct (delete key e) as [r e2] eqn:Hdel.
    destruct (delete_spec _ _ _ _ HInv Hdel) as (_ & _ & Hstats2 & _ & Hst2).
    destruct (Policy.delete key (evictionPolicy e)) as [rp p2] eqn:Hpdel.
    destruct (Policy_delete_spec _ _ _ _ (Inv_wf _ HInv) Hpdel) as (_ & _ & _ & Hhas2).
    revert Hdel. unfold delete. rewrite Hget. unfold_with. rewrite Hpdel.
    intros [= _ <-]. simpl in *. by split_and!.
Qed.

(** X5.  In every state reached by public operations, UPDATE-TTL(k, ttl) on a
    key that is not resident answers [false] and changes nothing; on a
    resident key it answers [true], gives the entry the expiration
    [now + ttl] and keeps its value and size, the order of the keys, the
    policy, the statistics and the memory account; and a GET(k) that follows
    and reads a clock not past [now + ttl] returns the value. *)
Theorem updateTTL_then_get cfg ops key ttl :
  Forall valid_op ops →
  let w := run clock ops (newWorld cfg) in
  let e := engine w in
  let w1 := snd (updateTTL clock key ttl w) in
  let e1 := engine w1 in
  match JSMap.get key (store e) with
  | None => updateTTL clock key ttl w = (false, w)
  | Some entry =>
      fst (updateTTL clock key ttl w) = true ∧
      JSMap.get key (store e1)
      = Some (CacheEntry.mk (CacheEntry.value entry) (Some (clock (reads w) + ttl))
                (CacheEntry.size entry)) ∧
      (∀ k, k ≠ key → JSMap.get k (store e1) = JSMap.get k (store e)) ∧
      keys e1 = keys e ∧
      evictionPolicy e1 = evictionPolicy e ∧ stats e1 = stats e ∧
      currentMemoryBytes e1 = currentMemoryBytes e ∧
      (clock (S (reads w)) ≤ clock (reads w) + ttl →
       fst (get clock key w1) = CacheEntry.value entry)
  end.
Proof.
  intros Hvalid w e w1 e1.
  pose proof (reachable_Inv clock cfg ops Hvalid) as HInv. fold w in HInv.
  destruct (updateTTL_spec clock key ttl w HInv) as (HInv1 & _). fold w1 in HInv1.
  subst e1 w1. unfold updateTTL in *. fold e in HInv1 |- *.
  destruct (JSMap.get key (store e)) as [entry|] eqn:Hget; [|done].
  simpl in *. unfold_with. fold e. split_and!; try done.
  - apply JSMap_get_set_eq.
  - intros k Hk. by apply JSMap_get_set_ne.
  - unfold keys. simpl. apply JSMap_keys_set_present. rewrite Hget. eauto.
  - intros Hlive.
    set (w1 := mkWorld
                 (mkEngine
                    (JSMap.set key
                       (CacheEntry.mk (CacheEntry.value entry) (Some (clock (reads w) + ttl))
                          (CacheEntry.size entry)) (store e))
                    (evictionPolicy e) (stats e) (maxMemoryBytes e) (currentMemoryBytes e)
                    (memoryThreshold e)) (S (reads w))) in *.
    destruct (get_spec clock key w1 HInv1) as (Hval & _).
    rewrite Hval. unfold liveValue. simpl. rewrite JSMap_get_set_eq.
    unfold expiredAt. simpl.
    replace (clock (reads w) + ttl <? clock (S (reads w))) with false
      by (symmetry; apply Z.ltb_ge; lia).
    by rewrite andb_false_r.
Qed.

Lemma Policy_clear_is_new p :
  Policy.clear p
  = createEvictionPolicy (CacheConfig.mk 0 (Policy.capacity p) (policyName p)).
Proof. by destruct p. Qed.

(** X6.  CLEAR brings every state reached by public operations back to the
    engine as it was constructed, the statistics apart, which it keeps. *)
Theorem clear_restores_the_new_engine cfg ops :
  Forall valid_op ops →
  let e := engine (run clock ops (newWorld cfg)) in
  clear e
  = mkEngine [] (createEvictionPolicy cfg) (stats e)
      (maxMemoryBytes (newCacheEngine cfg)) 0 (memoryThreshold (newCacheEngine cfg)).
Proof.
  intros Hvalid e.
  destruct (run_spec clock ops (newWorld cfg) Hvalid (Inv_new cfg)) as (_ & Hframe & _).
  fold e in Hframe. destruct (frame_inv _ _ Hframe) as (Hname & Hcap & Hmax & Hthr).
  destruct (Policy_create_spec cfg) as (_ & Hcap0 & Hname0 & _).
  simpl in Hname, Hcap. rewrite Hname0 in Hname. rewrite Hcap0 in Hcap.
  unfold clear. unfold_with. rewrite Policy_clear_is_new, Hname, Hcap.
  change (engine (newWorld cfg)) with (newCacheEngine cfg) in Hmax, Hthr.
  rewrite Hmax, Hthr. unfold createEvictionPolicy. simpl. done.
Qed.
End EngineRoundTrips.

(** ** The sweep and the batch operations *)

Lemma JSMap_get_app_head {V} key (x : V) (A B : list (string * V)) :
  key ∉ JSMap.keys A → JSMap.get key (A ++ (key, x) :: B) = Some x.
Proof.
  unfold JSMap.keys. induction A as [|[k y] A IH]; simpl.
  - intros _. by rewrite decide_True.
  - rewrite not_elem_of_cons. intros [Hne Hnotin]. rewrite decide_False by done. auto.
Qed.

Lemma JSMap_delete_app_head {V} key (x : V) (A B : list (string * V)) :
  key ∉ JSMap.keys A → JSMap.delete key (A ++ (key, x) :: B) = A ++ B.
Proof.
  unfold JSMap.keys. induction A as [|[k y] A IH]; simpl.
  - intros _. by rewrite decide_True.
  - rewrite not_elem_of_cons. intros [Hne Hnotin]. rewrite decide_False by done.
    by rewrite IH.
Qed.

Lemma unexpired_keys now m k : k ∈ JSMap.keys (unexpired now m) → k ∈ JSMap.keys m.
Proof.
  unfold JSMap.keys, unexpired. rewrite !list_elem_of_fmap.
  intros (kv & -> & Hkv). apply list_elem_of_filter in Hkv as [_ Hkv]. eauto.
Qed.

Lemma filter_ext_elem_of {A} (P Q : A → Prop) `{!∀ x, Decision (P x)}
    `{!∀ x, Decision (Q x)} (l : list A) :
  (∀ x, x ∈ l → P x ↔ Q x) → filter P l = filter Q l.
Proof.
  induction l as [|x l IH]; intros Hext; [done|].
  rewrite !filter_cons.
  rewrite IH by (intros y Hy; apply Hext, elem_of_cons; by right).
  pose proof (Hext x ltac:(apply elem_of_cons; by left)) as Hx.
  destruct (decide (P x)), (decide (Q x)); tauto.
Qed.

Lemma cleanup_loop_exact now done rest cleaned e :
  NoDup (JSMap.keys (done ++ rest)) →
  store e = unexpired now done ++ rest →
  let r := cleanup_loop now rest cleaned e in
  store (snd r) = unexpired now (done ++ rest) ∧
  fst r = cleaned + (Z.of_nat (length rest) - Z.of_nat (length (unexpired now rest))) ∧
  (StatisticsTracker.expirations (stats (snd r)) + length (unexpired now rest)
   = StatisticsTracker.expirations (stats e) + length rest)%nat ∧
  StatisticsTracker.hits (stats (snd r)) = StatisticsTracker.hits (stats e) ∧
  StatisticsTracker.misses (stats (snd r)) = StatisticsTracker.misses (stats e) ∧
  StatisticsTracker.evictions (stats (snd r)) = StatisticsTracker.evictions (stats e).
Proof.
  revert done cleaned e. induction rest as [|[key entry] rest IH]; intros done cleaned e Hnd Hstore.
  - simpl. rewrite app_nil_r in *. split_and!; try done. lia.
  - cbn [cleanup_loop]. unfold unexpired in *. rewrite filter_app, filter_cons. simpl.
    assert (key ∉ JSMap.keys (unexpired now done)) as Hfresh.
    { intros Hin. apply unexpired_keys in Hin. unfold JSMap.keys in Hnd.
      rewrite fmap_app in Hnd. apply NoDup_app in Hnd as (_ & Hdisj & _).
      apply (Hdisj key Hin). simpl. apply elem_of_cons. by left. }
    assert (NoDup (JSMap.keys ((done ++ [(key, entry)]) ++ rest))) as Hnd'
      by (by rewrite <- app_assoc).
    destruct (expiredAt now entry) eqn:Hexp.
    + rewrite decide_False by done.
      set (e2 := with_stats StatisticsTracker.recordExpiration (snd (delete key e))).
      assert (store e2 = filter (fun kv => expiredAt now (snd kv) = false)
                           (done ++ [(key, entry)]) ++ rest) as Hstore2.
      { subst e2. unfold delete. rewrite Hstore.
        rewrite JSMap_get_app_head by done. unfold_with.
        rewrite Hstore, JSMap_delete_app_head by done.
        rewrite filter_app, filter_cons. simpl.
        rewrite decide_False by (by rewrite Hexp). by rewrite filter_nil, app_nil_r. }
      destruct (IH (done ++ [(key, entry)]) (cleaned + 1) e2 Hnd' Hstore2)
        as (Hs & Hc & He & Hh & Hm & Hv).
      assert (stats e2 = StatisticsTracker.recordExpiration (stats e)) as Hstats2.
      { subst e2. unfold_with. by rewrite delete_stats. }
      rewrite Hstats2 in He, Hh, Hm, Hv. simpl in He, Hh, Hm, Hv.
      rewrite <- app_assoc, filter_app in Hs. simpl in Hs.
      rewrite filter_cons in Hs. simpl in Hs. rewrite decide_False in Hs by (by rewrite Hexp).
      split_and!; try done; simpl; lia.
    + rewrite decide_True by done.
      assert (store e = filter (fun kv => expiredAt now (snd kv) = false)
                          (done ++ [(key, entry)]) ++ rest) as Hstore2.
      { rewrite Hstore, filter_app, filter_cons. simpl. rewrite decide_True by done.
        by rewrite filter_nil, <- app_assoc. }
      destruct (IH (done ++ [(key, entry)]) cleaned e Hnd' Hstore2)
        as (Hs & Hc & He & Hh & Hm & Hv).
      rewrite <- app_assoc, filter_app in Hs. simpl in Hs.
      rewrite filter_cons in Hs. simpl in Hs. rewrite decide_True in Hs by done.
      split_and!; try done; simpl; lia.
Qed.

Section SweepAndBatches.
Variable clock : nat → Z.

(** X7.  In every state reached by public operations, the sweep [cleanup]
    reads the clock once and removes exactly the entries that are expired at
    that instant, keeping the others in their order; the number it returns is
    the number of entries removed, each counted as one expiration; hits,
    misses and evictions are not touched and [currentMemoryBytes] is the sum
    of the sizes of what remains. *)
Theorem cleanup_removes_exactly_the_expired cfg ops :
  Forall valid_op ops →
  let w := run clock ops (newWorld cfg) in
  let e := engine w in
  let e1 := engine (snd (cleanup clock w)) in
  let cleaned := fst (cleanup clock w) in
  store e1 = unexpired (clock (reads w)) (store e) ∧
  cleaned = JSMap.size (store e) - JSMap.size (store e1) ∧
  Z.of_nat (StatisticsTracker.expirations (stats e1))
  = Z.of_nat (StatisticsTracker.expirations (stats e)) + cleaned ∧
  StatisticsTracker.hits (stats e1) = StatisticsTracker.hits (stats e) ∧
  StatisticsTracker.misses (stats e1) = StatisticsTracker.misses (stats e) ∧
  StatisticsTracker.evictions (stats e1) = StatisticsTracker.evictions (stats e) ∧
  currentMemoryBytes e1 = storeBytes (store e1).
Proof.
  intros Hvalid w e e1 cleaned.
  pose proof (reachable_Inv clock cfg ops Hvalid) as HInv. fold w in HInv.
  destruct (cleanup_spec clock w HInv) as (HInv1 & _). fold e1 in HInv1.
  subst e1 cleaned. unfold cleanup in *. simpl in *. fold e in HInv1 |- *.
  pose proof (cleanup_loop_exact (clock (reads w)) [] (store e) 0 e) as Hloop.
  destruct (cleanup_loop (clock (reads w)) (store e) 0 e) as [cleaned e1].
  simpl in *. destruct Hloop as (Hs & Hc & He & Hh & Hm & Hv); [apply HInv|done|].
  split_and!; try done.
  - unfold JSMap.size. rewrite Hs. lia.
  - unfold JSMap.size. lia.
  - apply HInv1.
Qed.

Lemma deleteMultiple_exact keys e :
  Inv e →
  let r := deleteMultiple keys e in
  Inv (snd r) ∧
  (∀ k, JSMap.get k (store (snd r))
        = if bool_decide (k ∈ keys) then None else JSMap.get k (store e)) ∧
  (NoDup keys → fst r = filter (fun k => JSMap.has k (store e) = true) keys) ∧
  stats (snd r) = stats e.
Proof.
  revert e. induction keys as [|key rest IH]; intros e HInv; cbn [deleteMultiple].
  - simpl. by split_and!.
  - destruct (delete key e) as [deleted e1] eqn:Hdel.
    destruct (delete_spec _ _ _ _ HInv Hdel) as (HInv1 & _ & Hstats1 & _ & Hst1).
    assert (deleted = JSMap.has key (store e)) as Hdeleted.
    { revert Hdel. unfold delete, JSMap.has.
      destruct (JSMap.get key (store e)); by intros [= <- _]. }
    destruct (IH e1 HInv1) as (HInv2 & Hst2 & Hres2 & Hstats2).
    destruct (deleteMultiple rest e1) as [deletedKeys e2]. simpl in *.
    split_and!; try done; [| |congruence].
    + intros k. rewrite Hst2, Hst1.
      destruct (decide (k = key)) as [->|Hne].
      * rewrite (bool_decide_eq_true_2 (key ∈ key :: rest)) by (apply elem_of_cons; by left).
        by destruct (bool_decide (key ∈ rest)).
      * destruct (bool_decide (k ∈ rest)) eqn:Hin.
        -- apply bool_decide_eq_true in Hin.
           by rewrite bool_decide_eq_true_2 by (apply elem_of_cons; by right).
        -- apply bool_decide_eq_false in Hin. rewrite bool_decide_eq_false_2; [done|].
           rewrite elem_of_cons. tauto.
    + intros Hnd. apply NoDup_cons in Hnd as [Hnotin Hnd]. rewrite (Hres2 Hnd).
      assert (filter (fun k => JSMap.has k (store e1) = true) rest
              = filter (fun k => JSMap.has k (store e) = true) rest) as ->.
      { apply filter_ext_elem_of. intros k Hk. unfold JSMap.has.
        rewrite Hst1. rewrite decide_False; [done|]. by intros ->. }
      rewrite filter_cons. subst deleted. destruct (JSMap.has key (store e)) eqn:Hhas.
      * by rewrite decide_True.
      * by rewrite decide_False.
Qed.

(** X8.  In every state reached by public operations, BATCH-DELETE of a list
    of pairwise distinct keys returns, in the order of the list, exactly the
    keys that were resident; afterwards none of the listed keys is resident,
    every other key has the entry it had, and the statistics are as they
    were. *)
Theorem deleteMultiple_returns_the_resident_keys cfg ops keys :
  Forall valid_op ops → NoDup keys →
  let e := engine (run clock ops (newWorld cfg)) in
  let e1 := snd (deleteMultiple keys e) in
  fst (deleteMultiple keys e) = filter (fun k => JSMap.has k (store e) = true) keys ∧
  (∀ k, JSMap.get k (store e1)
        = if bool_decide (k ∈ keys) then None else JSMap.get k (store e)) ∧
  stats e1 = stats e.
Proof.
  intros Hvalid Hnd e e1.
  pose proof (reachable_Inv clock cfg ops Hvalid) as HInv. fold e in HInv.
  destruct (deleteMultiple_exact keys e HInv) as (_ & Hst & Hres & Hstats).
  split_and!; [by apply Hres|done|done].
Qed.

Lemma getMultiple_loop_sound e0 keys result w :
  Inv (engine w) →
  (∀ k, JSMap.get k (store (engine w)) = None
        ∨ JSMap.get k (store (engine w)) = JSMap.get k (store e0)) →
  ∀ k v,
    JSMap.get k (JSObject.own (fst (getMultiple_loop clock keys result w))) = Some v →
    JSMap.get k (JSObject.own result) = Some v
    ∨ (k ∈ keys ∧ v ≠ VNull ∧
       ∃ entry, JSMap.get k (store e0) = Some entry ∧ CacheEntry.value entry = v).
Proof.
  revert result w. induction keys as [|key rest IH]; intros result w HInv Hsub k v;
    cbn [getMultiple_loop]; [by left|].
  destruct (get_spec clock key w HInv) as (Hval & HInv1 & _ & _ & Hst & _).
  destruct (get clock key w) as [value w1]. simpl in Hval, HInv1, Hst.
  assert (∀ k, JSMap.get k (store (engine w1)) = None
               ∨ JSMap.get k (store (engine w1)) = JSMap.get k (store e0)) as Hsub1.
  { intros k'. destruct (Hst k') as [?|Hk']; [by left|]. rewrite Hk'. apply Hsub. }
  assert (value ≠ VNull →
          ∃ entry, JSMap.get key (store e0) = Some entry ∧ CacheEntry.value entry = value)
    as Hstored.
  { intros Hnn. rewrite Hval in Hnn |- *. unfold liveValue in *.
    destruct (Hsub key) as [Hnone|Heq]; [by rewrite Hnone in Hnn|].
    rewrite Heq in Hnn |- *. destruct (JSMap.get key (store e0)) as [entry|]; [|done].
    destruct (expiredAt (clock (reads w)) entry); [done|]. eauto. }
  assert (JSMap.get k (JSObject.own (fst (getMultiple_loop clock rest result w1))) = Some v →
          JSMap.get k (JSObject.own result) = Some v
          ∨ (k ∈ key :: rest ∧ v ≠ VNull ∧
             ∃ entry, JSMap.get k (store e0) = Some entry ∧ CacheEntry.value entry = v))
    as Hskip.
  { intros Hk. destruct (IH result w1 HInv1 Hsub1 k v Hk) as [?|(? & ? & ?)]; [by left|].
    right. split_and!; [apply elem_of_cons; by right|done|done]. }
  assert (value ≠ VNull →
          JSMap.get k
            (JSObject.own
               (fst (getMultiple_loop clock rest (JSObject.set key value result) w1)))
          = Some v →
          JSMap.get k (JSObject.own result) = Some v
          ∨ (k ∈ key :: rest ∧ v ≠ VNull ∧
             ∃ entry, JSMap.get k (store e0) = Some entry ∧ CacheEntry.value entry = v))
    as Hput.
  { intros Hnn Hk.
    destruct (IH (JSObject.set key value result) w1 HInv1 Hsub1 k v Hk) as [Hr|(? & ? & ?)].
    - apply JSObject_own_set in Hr as [[-> ->]|Hr]; [|by left]. right.
      split_and!; [apply elem_of_cons; by left|done|by apply Hstored].
    - right. split_and!; [apply elem_of_cons; by right|done|done]. }
  destruct value; try (by apply Hput); by apply Hskip.
Qed.

(** X9.  In every state reached by public operations, every property of the
    object that BATCH-GET returns is one of the requested keys, its value is
    not null, and it is the value that the store held under that key when
    the batch began. *)
Theorem getMultiple_returns_stored_values cfg ops keys k v :
  Forall valid_op ops →
  let w := run clock ops (newWorld cfg) in
  JSMap.get k (JSObject.own (fst (getMultiple clock keys w))) = Some v →
  k ∈ keys ∧ v ≠ VNull ∧
  ∃ entry, JSMap.get k (store (engine w)) = Some entry ∧ CacheEntry.value entry = v.
Proof.
  intros Hvalid w Hk.
  pose proof (reachable_Inv clock cfg ops Hvalid) as HInv. fold w in HInv.
  destruct (getMultiple_loop_sound (engine w) keys JSObject.empty w HInv
              (fun _ => or_intror eq_refl) k v Hk)
    as [?|?]; done.
Qed.
End SweepAndBatches.

(** ** What the statistics count *)

Lemma evictOne_accesses e :
  accesses_counted (snd (evictOne e)) = accesses_counted e.
Proof.
  unfold evictOne, accesses_counted.
  destruct (Policy.evict (evictionPolicy e)) as [[k|] p]; [|done].
  destruct (truthy_string k); [|done]. unfold_with.
  by destruct (JSMap.get k (store e)).
Qed.

Lemma enforceMemoryLimit_loop_accesses fuel requiredSpace e :
  accesses_counted (enforceMemoryLimit_loop fuel requiredSpace e) = accesses_counted e.
Proof.
  revert e. induction fuel as [|fuel IH]; intros e; [done|].
  cbn [enforceMemoryLimit_loop].
  destruct ((memoryThreshold e <? currentMemoryBytes e + requiredSpace)
            && (0 <? JSMap.size (store e))); [|done].
  pose proof (evictOne_accesses e) as Hev.
  destruct (evictOne e) as [[k|] e1]; simpl in Hev; [|done].
  destruct (truthy_string k); [|done]. by rewrite IH.
Qed.

Section Counting.
Variable clock : nat → Z.

Lemma set_accesses key value ttl w :
  accesses_counted (engine (snd (set clock key value ttl w))) = accesses_counted (engine w).
Proof.
  unfold set, Date_now. cbv zeta. cbn [engine reads fst snd].
  set (entrySize := calculateEntrySize key value).
  set (e1 := if memoryThreshold (engine w) <? currentMemoryBytes (engine w) + entrySize
             then enforceMemoryLimit entrySize (engine w) else engine w).
  assert (accesses_counted e1 = accesses_counted (engine w)) as <-.
  { subst e1. destruct (_ <? _); [|done]. apply enforceMemoryLimit_loop_accesses. }
  clearbody e1. destruct (JSMap.get key (store e1)) as [existingEntry|]; [done|].
  unfold_with.
  destruct (Policy.set key (evictionPolicy e1)) as [[k|] p]; [|done].
  destruct (truthy_string k); [|done]. simpl.
  by destruct (JSMap.get k _).
Qed.

Lemma get_accesses key w :
  accesses_counted (engine (snd (get clock key w))) = S (accesses_counted (engine w)).
Proof.
  unfold get. destruct (JSMap.get key (store (engine w))) as [entry|];
    [|unfold accesses_counted; simpl; lia].
  destruct (isExpired_spec clock entry w) as [_ Heng].
  destruct (isExpired clock entry w) as [expired w1]. simpl in Heng.
  destruct expired; unfold accesses_counted; unfold_with;
    rewrite ?delete_stats, Heng; simpl; lia.
Qed.

Lemma getMultiple_loop_accesses keys result w :
  accesses_counted (engine (snd (getMultiple_loop clock keys result w)))
  = (accesses_counted (engine w) + length keys)%nat.
Proof.
  revert result w. induction keys as [|key rest IH]; intros result w;
    cbn [getMultiple_loop length]; [simpl; lia|].
  pose proof (get_accesses key w) as Hget.
  destruct (get clock key w) as [value w1]. simpl in Hget.
  destruct value; rewrite IH, Hget; lia.
Qed.

Lemma setMultiple_accesses entries w :
  accesses_counted (engine (snd (setMultiple clock entries w))) = accesses_counted (engine w).
Proof.
  revert w. induction entries as [|entry rest IH]; intros w; cbn [setMultiple]; [done|].
  pose proof (set_accesses (BatchEntry.key entry) (BatchEntry.value entry)
                (BatchEntry.ttl entry) w) as Hset.
  destruct (set clock _ _ _ w) as [? w1]. simpl in Hset. by rewrite IH.
Qed.

Lemma deleteMultiple_stats keys e : stats (snd (deleteMultiple keys e)) = stats e.
Proof.
  revert e. induction keys as [|key rest IH]; intros e; cbn [deleteMultiple]; [done|].
  pose proof (delete_stats key e) as Hdel. destruct (delete key e) as [deleted e1].
  specialize (IH e1). destruct (deleteMultiple rest e1) as [deletedKeys e2].
  simpl in *. congruence.
Qed.

Lemma cleanup_loop_accesses now entries cleaned e :
  accesses_counted (snd (cleanup_loop now entries cleaned e)) = accesses_counted e.
Proof.
  revert cleaned e. induction entries as [|[key entry] rest IH]; intros cleaned e;
    cbn [cleanup_loop]; [done|].
  destruct (expiredAt now entry); [|done]. rewrite IH.
  unfold accesses_counted. unfold_with. by rewrite delete_stats.
Qed.

Lemma step_accesses w op :
  op ≠ OpResetStats →
  accesses_counted (engine (step clock w op))
  = (accesses_counted (engine w) + countGets op)%nat.
Proof.
  intros Hop. destruct op; cbn [step countGets]; rewrite ?Nat.add_0_r; try done.
  - rewrite get_accesses. lia.
  - apply set_accesses.
  - unfold accesses_counted; simpl. by rewrite delete_stats.
  - unfold accesses_counted. by destruct (exists_stats clock key w) as (-> & -> & _).
  - unfold increment. pose proof (get_accesses key w) as Hget.
    destruct (get clock key w) as [currentValue w1]. simpl in Hget.
    destruct currentValue; try (cbn [snd]; lia).
    + pose proof (set_accesses key (VNumber amount) None w1) as Hset.
      destruct (set clock key (VNumber amount) None w1). cbn [snd] in *. lia.
    + pose proof (set_accesses key (VNumber (n + amount)) None w1) as Hset.
      destruct (set clock key (VNumber (n + amount)) None w1). cbn [snd] in *. lia.
  - unfold updateTTL. by destruct (JSMap.get key (store (engine w))).
  - apply getMultiple_loop_accesses.
  - apply setMultiple_accesses.
  - unfold accesses_counted; simpl. by rewrite deleteMultiple_stats.
  - unfold cleanup, Date_now. cbn [engine reads].
    pose proof (cleanup_loop_accesses (clock (reads w)) (store (engine w)) 0 (engine w)) as Hc.
    by destruct (cleanup_loop _ _ _ _).
Qed.

(** X10.  As long as the statistics are not reset, hits + misses is the
    number of GETs executed: one for each GET, one for each INCREMENT (which
    reads through GET) and one for each key of a BATCH-GET, duplicates
    included; SET, DELETE, EXISTS, UPDATE-TTL, CLEAR, KEYS, BATCH-SET,
    BATCH-DELETE and the sweep count neither a hit nor a miss.  This holds
    from any state, for all keys and all clocks. *)
Theorem hits_plus_misses_counts_the_gets ops w :
  Forall (fun op => op ≠ OpResetStats) ops →
  accesses_counted (engine (run clock ops w))
  = (accesses_counted (engine w) + sum_list (map countGets ops))%nat.
Proof.
  revert w. induction ops as [|op ops IH]; intros w Hops; simpl; [lia|].
  apply Forall_cons in Hops as [Hop Hops].
  change (run clock (op :: ops) w) with (run clock ops (step clock w op)).
  rewrite (IH _ Hops), (step_accesses w op Hop). lia.
Qed.
End Counting.

(** ** The capacity of a policy *)

Lemma removeNode_length_le k l : (length (removeNode k l) ≤ length l)%nat.
Proof. unfold removeNode. apply length_filter. Qed.

Lemma removeNode_length k l : NoDup l → k ∈ l → S (length (removeNode k l)) = length l.
Proof.
  induction l as [|x l IH]; intros Hnd Hin; [by apply elem_of_nil in Hin|].
  apply NoDup_cons in Hnd as [Hx Hnd]. destruct (decide (x = k)) as [->|Hne].
  - by rewrite removeNode_head.
  - apply elem_of_cons in Hin as [->|Hin]; [done|].
    unfold removeNode in *. rewrite filter_cons_True by done. simpl. by rewrite IH.
Qed.

Ltac size_lia :=
  simpl in *;
  unfold LRUPolicy.size, LRUPolicy.addToHead, FIFOPolicy.size, FIFOPolicy.addToTail in *;
  simpl in *; rewrite ?length_app; simpl; lia.

Lemma LRU_step_bounded q op :
  NoDup (LRUPolicy.order q) → Policy_bounded (PolicyLRU q) →
  Policy_bounded (Policy_step (PolicyLRU q) op).
Proof.
  intros Hnd [Hle _]. simpl in Hle. unfold LRUPolicy.size in Hle.
  split; [|by destruct op; simpl; repeat case_match].
  destruct op as [key|key|key| |]; simpl.
  - unfold LRUPolicy.get. destruct (LRUPolicy.has key q) eqn:Hhas; simpl; [|done].
    apply LRU_has_true in Hhas. unfold LRUPolicy.size. simpl.
    by rewrite removeNode_length.
  - unfold LRUPolicy.set. destruct (LRUPolicy.has key q) eqn:Hhas; simpl.
    + apply LRU_has_true in Hhas. unfold LRUPolicy.size. simpl.
      by rewrite removeNode_length.
    + unfold LRUPolicy.size, LRUPolicy.evictLRU.
      destruct (0 <? LRUPolicy.capacity q) eqn:Hpos; simpl.
      * apply Z.ltb_lt in Hpos.
        destruct (LRUPolicy.capacity q <=? _) eqn:Hfull; simpl.
        -- destruct (last (LRUPolicy.order q)) as [v|] eqn:Hlast.
           ++ rewrite (proj2 (Z.eqb_neq _ 0)) by lia. simpl.
              apply last_Some_elem_of in Hlast.
              pose proof (removeNode_length v _ Hnd Hlast). size_lia.
           ++ apply last_None in Hlast. apply Z.leb_le in Hfull.
              rewrite Hlast in *. simpl in *. lia.
        -- apply Z.leb_gt in Hfull. rewrite (proj2 (Z.eqb_neq _ 0)) by lia.
           size_lia.
      * apply Z.ltb_ge in Hpos.
        assert (LRUPolicy.capacity q = 0) as Hzero by lia.
        rewrite Hzero. simpl. unfold LRUPolicy.size. lia.
  - unfold LRUPolicy.delete. destruct (LRUPolicy.has key q); simpl; [|done].
    unfold LRUPolicy.size. simpl. pose proof (removeNode_length_le key (LRUPolicy.order q)). lia.
  - unfold LRUPolicy.evict, LRUPolicy.evictLRU.
    destruct (last (LRUPolicy.order q)) as [v|]; simpl; [|done].
    unfold LRUPolicy.size. simpl. pose proof (removeNode_length_le v (LRUPolicy.order q)). lia.
  - unfold LRUPolicy.size. simpl. lia.
Qed.

Lemma FIFO_step_bounded q op :
  NoDup (FIFOPolicy.order q) → Policy_bounded (PolicyFIFO q) →
  Policy_bounded (Policy_step (PolicyFIFO q) op).
Proof.
  intros Hnd [Hle _]. simpl in Hle. unfold FIFOPolicy.size in Hle.
  split; [|by destruct op; simpl; repeat case_match].
  destruct op as [key|key|key| |]; simpl.
  - done.
  - unfold FIFOPolicy.set. destruct (FIFOPolicy.has key q) eqn:Hhas; simpl; [done|].
    unfold FIFOPolicy.size, FIFOPolicy.evictFIFO.
    destruct (0 <? FIFOPolicy.capacity q) eqn:Hpos; simpl.
    + apply Z.ltb_lt in Hpos.
      destruct (FIFOPolicy.capacity q <=? _) eqn:Hfull; simpl.
      * destruct (FIFOPolicy.order q) as [|v l] eqn:Horder.
        -- simpl in *. apply Z.leb_le in Hfull. lia.
        -- rewrite (proj2 (Z.eqb_neq _ 0)) by lia. simpl.
           rewrite removeNode_head by (by apply NoDup_cons in Hnd as [? _]).
           size_lia.
      * apply Z.leb_gt in Hfull. rewrite (proj2 (Z.eqb_neq _ 0)) by lia.
        size_lia.
    + apply Z.ltb_ge in Hpos.
      assert (FIFOPolicy.capacity q = 0) as Hzero by lia.
      rewrite Hzero. simpl. unfold FIFOPolicy.size. lia.
  - unfold FIFOPolicy.delete. destruct (FIFOPolicy.has key q); simpl; [|done].
    unfold FIFOPolicy.size. simpl. pose proof (removeNode_length_le key (FIFOPolicy.order q)). lia.
  - unfold FIFOPolicy.evict, FIFOPolicy.evictFIFO.
    destruct (FIFOPolicy.order q) as [|v l] eqn:Horder; simpl.
    + unfold FIFOPolicy.size. by rewrite Horder.
    + unfold FIFOPolicy.size. simpl.
      pose proof (removeNode_length_le v (v :: l)). simpl in *. lia.
  - unfold FIFOPolicy.size. simpl. lia.
Qed.

Lemma LFU_add_at key f fm :
  ∃ v l, LFUPolicy.addToFrequencyList key f fm !! f = Some (v :: l).
Proof.
  unfold LFUPolicy.addToFrequencyList. rewrite lookup_insert_eq.
  destruct (default [] (fm !! f)) as [|v l]; simpl; eauto.
Qed.

Lemma LFU_add_other key f fm g :
  g ≠ f → LFUPolicy.addToFrequencyList key f fm !! g = fm !! g.
Proof. intros Hne. unfold LFUPolicy.addToFrequencyList. by rewrite lookup_insert_ne. Qed.

Lemma LFU_remove_other key f fm g :
  g ≠ f → LFUPolicy.removeFromFrequencyList key f fm !! g = fm !! g.
Proof.
  intros Hne. unfold LFUPolicy.removeFromFrequencyList.
  destruct (fm !! f) as [freqList|]; [|done].
  destruct (removeNode key freqList); [by rewrite lookup_delete_ne|by rewrite lookup_insert_ne].
Qed.

Lemma LFU_remove_at key f fm :
  is_Some (LFUPolicy.removeFromFrequencyList key f fm !! f) →
  ∃ v l, LFUPolicy.removeFromFrequencyList key f fm !! f = Some (v :: l).
Proof.
  unfold LFUPolicy.removeFromFrequencyList.
  destruct (fm !! f) as [freqList|] eqn:E; [|rewrite E; by intros [? ?]].
  destruct (removeNode key freqList) as [|v l].
  - rewrite lookup_delete_eq. by intros [? ?].
  - rewrite lookup_insert_eq. eauto.
Qed.

Lemma LFU_increaseFrequency_bounded key f q :
  LFUPolicy.cache q !! key = Some f →
  Policy_bounded (PolicyLFU q) →
  Policy_bounded (PolicyLFU (LFUPolicy.increaseFrequency key f q)).
Proof.
  intros Hkey [Hle Hev]. simpl in Hle.
  assert (LFUPolicy.size (LFUPolicy.increaseFrequency key f q) = LFUPolicy.size q) as Hsize.
  { unfold LFUPolicy.size. simpl. by rewrite map_size_insert_Some. }
  split; simpl; [by rewrite Hsize|].
  rewrite Hsize. intros Hfull Hpos. destruct (Hev Hfull Hpos) as [Hmin (v & l & Hlist)].
  unfold LFU_evictable. simpl.
  set (fm1 := LFUPolicy.removeFromFrequencyList key f (LFUPolicy.frequencyMap q)).
  set (fm2 := LFUPolicy.addToFrequencyList key (f + 1) fm1).
  destruct (bool_decide (f = LFUPolicy.minFrequency q)
            && negb (bool_decide (is_Some (fm2 !! f)))) eqn:Hcase.
  - split; [lia|]. apply LFU_add_at.
  - split; [done|].
    destruct (decide (LFUPolicy.minFrequency q = (f + 1)%nat)) as [->|Hnew];
      [apply LFU_add_at|].
    subst fm2. rewrite LFU_add_other by done.
    destruct (decide (LFUPolicy.minFrequency q = f)) as [Hold|Hold].
    + rewrite Hold in *. apply LFU_remove_at.
      apply andb_false_iff in Hcase as [Hcase|Hcase].
      * by apply bool_decide_eq_false in Hcase.
      * apply negb_false_iff, bool_decide_eq_true in Hcase.
        by rewrite LFU_add_other in Hcase by lia.
    + subst fm1. rewrite LFU_remove_other by done. eauto.
Qed.

Lemma LFU_size_nonneg q : 0 ≤ LFUPolicy.size q.
Proof. unfold LFUPolicy.size. lia. Qed.

Lemma LFU_step_bounded q op :
  LFU_wf q → Policy_bounded (PolicyLFU q) →
  Policy_bounded (Policy_step (PolicyLFU q) op).
Proof.
  intros Hwf Hb. pose proof Hb as [Hle Hev]. simpl in Hle.
  pose proof (LFU_size_nonneg q) as Hnn.
  destruct op as [key|key|key| |]; simpl.
  - unfold LFUPolicy.get. destruct (LFUPolicy.cache q !! key) as [f|] eqn:Hkey; simpl;
      [by apply LFU_increaseFrequency_bounded|done].
  - unfold LFUPolicy.set. destruct (LFUPolicy.cache q !! key) as [f|] eqn:Hkey; simpl;
      [by apply LFU_increaseFrequency_bounded|].
    destruct (0 <? LFUPolicy.capacity q) eqn:Hpos; simpl.
    + apply Z.ltb_lt in Hpos.
      assert (∀ p1, LFU_evictable
                (LFUPolicy.mk (LFUPolicy.capacity q) (<[key:=1%nat]> (LFUPolicy.cache p1))
                   (LFUPolicy.addToFrequencyList key 1 (LFUPolicy.frequencyMap p1))
                   (if bool_decide (LFUPolicy.minFrequency p1 = 0%nat)
                       || bool_decide (1 < LFUPolicy.minFrequency p1)%nat
                    then 1%nat else LFUPolicy.minFrequency p1))) as Hnew.
      { intros p1. unfold LFU_evictable. simpl.
        assert ((if bool_decide (LFUPolicy.minFrequency p1 = 0%nat)
                    || bool_decide (1 < LFUPolicy.minFrequency p1)%nat
                 then 1%nat else LFUPolicy.minFrequency p1) = 1%nat) as ->.
        { destruct (bool_decide _ || bool_decide _) eqn:Hor; [done|].
          apply orb_false_iff in Hor as [H0 H1].
          apply bool_decide_eq_false in H0, H1. lia. }
        split; [done|]. apply LFU_add_at. }
      rewrite (proj2 (Z.eqb_neq _ 0)) by lia.
      destruct (LFUPolicy.capacity q <=? LFUPolicy.size q) eqn:Hfull; simpl.
      * apply Z.leb_le in Hfull. assert (LFUPolicy.size q = LFUPolicy.capacity q) as Heq by lia.
        destruct (Hev Heq Hpos) as [Hmin (v & l & Hlist)].
        unfold LFUPolicy.evictLFU. rewrite bool_decide_eq_false_2 by done. rewrite Hlist.
        simpl. split; simpl; [|intros _ _; apply (Hnew (LFUPolicy.mk 0 _ _ _))].
        assert (LFUPolicy.cache q !! v = Some (LFUPolicy.minFrequency q)) as Hv.
        { apply Hwf. exists (v :: l). split; [done|]. apply elem_of_cons. by left. }
        unfold LFUPolicy.size in *. simpl.
        rewrite map_size_insert_None by (rewrite lookup_delete_ne; [done|congruence]).
        rewrite map_size_delete_Some by eauto.
        assert (base.size (LFUPolicy.cache q) ≠ 0%nat);
          [|lia].
        intros Hzero. apply map_size_empty_inv in Hzero. rewrite Hzero in Hv.
        by rewrite lookup_empty in Hv.
      * apply Z.leb_gt in Hfull. split; simpl; [|intros _ _; apply Hnew].
        unfold LFUPolicy.size in *. simpl. rewrite map_size_insert_None by done. lia.
    + apply Z.ltb_ge in Hpos. assert (LFUPolicy.capacity q = 0) as Hzero by lia.
      rewrite Hzero. simpl. split; simpl; [lia|]. intros _. lia.
  - unfold LFUPolicy.delete. destruct (LFUPolicy.cache q !! key) as [f|] eqn:Hkey; simpl;
      [|done].
    assert (LFUPolicy.size (LFUPolicy.mk (LFUPolicy.capacity q)
              (base.delete key (LFUPolicy.cache q))
              (LFUPolicy.removeFromFrequencyList key f (LFUPolicy.frequencyMap q))
              (if bool_decide (0 < LFUPolicy.minFrequency q)%nat
                  && negb (bool_decide (is_Some
                       (LFUPolicy.removeFromFrequencyList key f (LFUPolicy.frequencyMap q)
                          !! LFUPolicy.minFrequency q)))
               then S (LFUPolicy.minFrequency q) else LFUPolicy.minFrequency q))
            < LFUPolicy.size q) as Hless.
    { unfold LFUPolicy.size. simpl. rewrite map_size_delete_Some by eauto.
      assert (base.size (LFUPolicy.cache q) ≠ 0%nat); [|lia].
      intros Hzero. apply map_size_empty_inv in Hzero. rewrite Hzero in Hkey.
      by rewrite lookup_empty in Hkey. }
    split; simpl; [lia|]. intros Heq. rewrite Heq in Hless. lia.
  - destruct (LFUPolicy.evict q) as [ev q'] eqn:E. simpl.
    unfold LFUPolicy.evict, LFUPolicy.evictLFU in E.
    destruct (bool_decide (LFUPolicy.minFrequency q = 0%nat)); [by injection E as <- <-|].
    destruct (LFUPolicy.frequencyMap q !! LFUPolicy.minFrequency q) as [[|v l]|] eqn:Hlist;
      try by injection E as <- <-.
    injection E as <- <-.
    assert (LFUPolicy.cache q !! v = Some (LFUPolicy.minFrequency q)) as Hv.
    { apply Hwf. exists (v :: l). split; [done|]. apply elem_of_cons. by left. }
    assert (base.size (LFUPolicy.cache q) ≠ 0%nat) as Hne.
    { intros Hzero. apply map_size_empty_inv in Hzero. rewrite Hzero in Hv.
      by rewrite lookup_empty in Hv. }
    split; simpl; unfold LFUPolicy.size in *; simpl;
      rewrite map_size_delete_Some by eauto; lia.
  - split; simpl; unfold LFUPolicy.size; simpl; rewrite map_size_empty; lia.
Qed.

Lemma Policy_step_bounded p op :
  Policy_wf p → Policy_bounded p → Policy_bounded (Policy_step p op).
Proof.
  destruct p as [q|q|q]; simpl.
  - apply LRU_step_bounded.
  - apply LFU_step_bounded.
  - apply FIFO_step_bounded.
Qed.

Lemma Policy_run_bounded ops p :
  Policy_wf p → Policy_bounded p → Policy_wf (Policy_run ops p) ∧ Policy_bounded (Policy_run ops p).
Proof.
  revert p. induction ops as [|op ops IH]; intros p Hwf Hb; [done|].
  apply IH; [by apply Policy_step_wf|by apply Policy_step_bounded].
Qed.

Lemma Policy_new_bounded cfg :
  0 ≤ CacheConfig.maxKeys cfg → Policy_bounded (createEvictionPolicy cfg).
Proof.
  intros Hcap. unfold createEvictionPolicy.
  destruct (CacheConfig.evictionPolicy cfg); split; simpl; try done.
  unfold LFUPolicy.size. simpl. rewrite map_size_empty. simpl. lia.
Qed.

Lemma Policy_run_capacity ops p :
  Policy_wf p → Policy.capacity (Policy_run ops p) = Policy.capacity p.
Proof.
  revert p. induction ops as [|op ops IH]; intros p Hp; [done|].
  simpl. rewrite IH by (by apply Policy_step_wf).
  destruct op as [key|key|key| |]; simpl.
  - destruct (Policy.get key p) as [r p'] eqn:E.
    by destruct (Policy_get_spec _ _ _ _ Hp E) as (_ & ? & _).
  - destruct (Policy.set key p) as [r p'] eqn:E.
    by destruct (Policy_set_spec _ _ _ _ Hp E) as (_ & ? & _).
  - destruct (Policy.delete key p) as [r p'] eqn:E.
    by destruct (Policy_delete_spec _ _ _ _ Hp E) as (_ & ? & _).
  - destruct (Policy.evict p) as [r p'] eqn:E.
    by destruct (Policy_evict_spec _ _ _ Hp E) as (_ & ? & _).
  - by destruct (Policy_clear_spec p) as (_ & ? & _).
Qed.

(** X11.  A policy created with a capacity that is not negative never holds
    more keys than its capacity, whatever sequence of get, set, delete,
    evict and clear is applied to it; this holds for LRU, FIFO and LFU (for
    LFU although [minFrequency] can be stale after delete and evict: every
    insertion resets it to 1, so that at full capacity it names a list with a
    key in it and the insertion finds its victim). *)
Theorem policy_never_exceeds_its_capacity name capacity ops :
  0 ≤ capacity →
  Policy.size (Policy_run ops (createEvictionPolicy (CacheConfig.mk 0 capacity name)))
  ≤ capacity.
Proof.
  intros Hcap. set (cfg := CacheConfig.mk 0 capacity name).
  destruct (Policy_create_spec cfg) as (Hwf & Hc & _).
  destruct (Policy_run_bounded ops _ Hwf (Policy_new_bounded cfg Hcap)) as [_ [Hle _]].
  by rewrite (Policy_run_capacity ops _ Hwf), Hc in Hle.
Qed.

(** ** The engine reaches its policy through the interface only *)

Lemma via_refl p : via_interface p p.
Proof. by exists []. Qed.

Lemma via_trans p1 p2 p3 : via_interface p1 p2 → via_interface p2 p3 → via_interface p1 p3.
Proof.
  intros [a ->] [b ->]. exists (a ++ b). unfold Policy_run. by rewrite fold_left_app.
Qed.

Lemma via_step p op : via_interface p (Policy_step p op).
Proof. by exists [op]. Qed.

Lemma delete_via key e :
  via_interface (evictionPolicy e) (evictionPolicy (snd (delete key e))).
Proof.
  unfold delete. destruct (JSMap.get key (store e)); [|apply via_refl].
  apply (via_step _ (PDelete key)).
Qed.

Lemma evictOne_via e :
  via_interface (evictionPolicy e) (evictionPolicy (snd (evictOne e))).
Proof.
  pose proof (via_step (evictionPolicy e) PEvict) as Hstep. simpl in Hstep.
  unfold evictOne. destruct (Policy.evict (evictionPolicy e)) as [[k|] p]; [|done].
  destruct (truthy_string k); [|done]. unfold_with.
  by destruct (JSMap.get k (store e)).
Qed.

Lemma enforceMemoryLimit_loop_via fuel requiredSpace e :
  via_interface (evictionPolicy e)
    (evictionPolicy (enforceMemoryLimit_loop fuel requiredSpace e)).
Proof.
  revert e. induction fuel as [|fuel IH]; intros e; [apply via_refl|].
  cbn [enforceMemoryLimit_loop].
  destruct ((memoryThreshold e <? currentMemoryBytes e + requiredSpace)
            && (0 <? JSMap.size (store e))); [|apply via_refl].
  pose proof (evictOne_via e) as Hev.
  destruct (evictOne e) as [[k|] e1]; simpl in Hev; [|done].
  destruct (truthy_string k); [|done]. by eapply via_trans.
Qed.

Section Interface.
Variable clock : nat → Z.

Lemma set_via key value ttl w :
  via_interface (evictionPolicy (engine w))
    (evictionPolicy (engine (snd (set clock key value ttl w)))).
Proof.
  unfold set, Date_now. cbv zeta. cbn [engine reads fst snd].
  set (entrySize := calculateEntrySize key value).
  set (e1 := if memoryThreshold (engine w) <? currentMemoryBytes (engine w) + entrySize
             then enforceMemoryLimit entrySize (engine w) else engine w).
  apply (via_trans _ (evictionPolicy e1)).
  { subst e1. destruct (_ <? _); [|apply via_refl]. apply enforceMemoryLimit_loop_via. }
  clearbody e1. pose proof (via_step (evictionPolicy e1) (PSet key)) as Hstep.
  simpl in Hstep. destruct (JSMap.get key (store e1)) as [existingEntry|]; [done|].
  unfold_with.
  destruct (Policy.set key (evictionPolicy e1)) as [[k|] p]; [|done].
  destruct (truthy_string k); [|done]. simpl.
  by destruct (JSMap.get k _).
Qed.

Lemma get_via key w :
  via_interface (evictionPolicy (engine w)) (evictionPolicy (engine (snd (get clock key w)))).
Proof.
  unfold get. destruct (JSMap.get key (store (engine w))) as [entry|]; [|apply via_refl].
  destruct (isExpired_spec clock entry w) as [_ Heng].
  destruct (isExpired clock entry w) as [expired w1]. simpl in Heng.
  destruct expired; unfold_with; rewrite Heng.
  - apply delete_via.
  - apply (via_step _ (PGet key)).
Qed.

Lemma exists_via key w :
  via_interface (evictionPolicy (engine w))
    (evictionPolicy (engine (snd (exists_ clock key w)))).
Proof.
  unfold exists_. destruct (JSMap.get key (store (engine w))) as [entry|]; [|apply via_refl].
  destruct (isExpired_spec clock entry w) as [_ Heng].
  destruct (isExpired clock entry w) as [expired w1]. simpl in Heng.
  destruct expired; unfold_with; rewrite Heng; [apply delete_via|apply via_refl].
Qed.

Lemma getMultiple_loop_via keys result w :
  via_interface (evictionPolicy (engine w))
    (evictionPolicy (engine (snd (getMultiple_loop clock keys result w)))).
Proof.
  revert result w. induction keys as [|key rest IH]; intros result w;
    cbn [getMultiple_loop]; [apply via_refl|].
  pose proof (get_via key w) as Hget.
  destruct (get clock key w) as [value w1]. simpl in Hget.
  destruct value; by eapply via_trans.
Qed.

Lemma setMultiple_via entries w :
  via_interface (evictionPolicy (engine w))
    (evictionPolicy (engine (snd (setMultiple clock entries w)))).
Proof.
  revert w. induction entries as [|entry rest IH]; intros w; cbn [setMultiple];
    [apply via_refl|].
  pose proof (set_via (BatchEntry.key entry) (BatchEntry.value entry)
                (BatchEntry.ttl entry) w) as Hset.
  destruct (set clock _ _ _ w) as [? w1]. simpl in Hset. by eapply via_trans.
Qed.

Lemma deleteMultiple_via keys e :
  via_interface (evictionPolicy e) (evictionPolicy (snd (deleteMultiple keys e))).
Proof.
  revert e. induction keys as [|key rest IH]; intros e; cbn [deleteMultiple];
    [apply via_refl|].
  pose proof (delete_via key e) as Hdel. destruct (delete key e) as [deleted e1].
  specialize (IH e1). destruct (deleteMultiple rest e1) as [deletedKeys e2].
  simpl in *. by eapply via_trans.
Qed.

Lemma cleanup_loop_via now entries cleaned e :
  via_interface (evictionPolicy e)
    (evictionPolicy (snd (cleanup_loop now entries cleaned e))).
Proof.
  revert cleaned e. induction entries as [|[key entry] rest IH]; intros cleaned e;
    cbn [cleanup_loop]; [apply via_refl|].
  destruct (expiredAt now entry); [|done].
  eapply via_trans; [|apply IH]. unfold_with. apply delete_via.
Qed.

Lemma step_via w op :
  via_interface (evictionPolicy (engine w)) (evictionPolicy (engine (step clock w op))).
Proof.
  destruct op; cbn [step]; try apply via_refl.
  - apply get_via.
  - apply set_via.
  - apply delete_via.
  - apply exists_via.
  - unfold increment. pose proof (get_via key w) as Hget.
    destruct (get clock key w) as [currentValue w1]. simpl in Hget.
    destruct currentValue; try done.
    + pose proof (set_via key (VNumber amount) None w1) as Hset.
      destruct (set clock key (VNumber amount) None w1). cbn [snd] in *.
      by eapply via_trans.
    + pose proof (set_via key (VNumber (n + amount)) None w1) as Hset.
      destruct (set clock key (VNumber (n + amount)) None w1). cbn [snd] in *.
      by eapply via_trans.
  - unfold updateTTL. destruct (JSMap.get key (store (engine w))); apply via_refl.
  - apply (via_step _ PClear).
  - apply getMultiple_loop_via.
  - apply setMultiple_via.
  - apply deleteMultiple_via.
  - unfold cleanup, Date_now. cbn [engine reads].
    pose proof (cleanup_loop_via (clock (reads w)) (store (engine w)) 0 (engine w)) as Hc.
    by destruct (cleanup_loop _ _ _ _).
Qed.

Lemma run_via ops w :
  via_interface (evictionPolicy (engine w)) (evictionPolicy (engine (run clock ops w))).
Proof.
  revert w. induction ops as [|op ops IH]; intros w; [apply via_refl|].
  eapply via_trans; [apply (step_via w op)|apply IH].
Qed.

(** X12.  With [maxKeys] above 0 the store never holds more than [maxKeys]
    entries, for each of the three policies and after every sequence of
    public operations with non-empty keys. *)
Theorem store_never_holds_more_than_maxKeys cfg ops :
  0 < CacheConfig.maxKeys cfg → Forall valid_op ops →
  JSMap.size (store (engine (run clock ops (newWorld cfg)))) ≤ CacheConfig.maxKeys cfg.
Proof.
  intros Hkeys Hvalid.
  destruct (store_and_policy_agree clock cfg ops ltac:(lia) Hvalid) as (_ & <- & _).
  destruct (run_via ops (newWorld cfg)) as [pops ->].
  destruct (Policy_create_spec cfg) as (Hwf & Hc & _).
  destruct (Policy_run_bounded pops _ Hwf (Policy_new_bounded cfg ltac:(lia))) as [_ [Hle _]].
  by rewrite (Policy_run_capacity pops _ Hwf), Hc in Hle.
Qed.
End Interface.

(** ** FIFO: the order of insertion *)

Lemma insertedAt_from_snoc position found p ops op k :
  insertedAt_from position found p (ops ++ [op]) k
  = if inserts (Policy_run ops p) op k then S (position + length ops)
    else insertedAt_from position found p ops k.
Proof.
  revert position found p. induction ops as [|o ops IH]; intros position found p; simpl.
  - by rewrite Nat.add_0_r.
  - rewrite IH. by rewrite Nat.add_succ_r.
Qed.

Lemma insertedAt_from_le position found p ops k :
  (insertedAt_from position found p ops k ≤ Nat.max found (position + length ops))%nat.
Proof.
  revert position found p. induction ops as [|o ops IH]; intros position found p; simpl.
  - lia.
  - specialize (IH (S position) (if inserts p o k then S position else found)
                  (Policy_step p o)).
    destruct (inserts p o k); lia.
Qed.

Lemma insertedAt_snoc p0 ops op k :
  insertedAt p0 (ops ++ [op]) k
  = if inserts (Policy_run ops p0) op k then S (length ops) else insertedAt p0 ops k.
Proof. unfold insertedAt. by rewrite insertedAt_from_snoc. Qed.

Lemma insertedAt_le p0 ops k : (insertedAt p0 ops k ≤ length ops)%nat.
Proof. unfold insertedAt. pose proof (insertedAt_from_le 0 0 p0 ops k). lia. Qed.

Lemma ascending_ext (f g : string → nat) l :
  (∀ y, y ∈ l → g y = f y) → ascending f l → ascending g l.
Proof.
  induction l as [|x l IH]; simpl; [done|]. intros Heq [Hx Hl]. split.
  - intros y Hy. rewrite !Heq; [by apply Hx|by right|by left].
  - apply IH; [|done]. intros y Hy. apply Heq. by right.
Qed.

Lemma ascending_removeNode f k l : ascending f l → ascending f (removeNode k l).
Proof.
  induction l as [|x l IH]; simpl; [done|]. intros [Hx Hl].
  unfold removeNode. rewrite filter_cons. case_decide; [|by apply IH].
  simpl. split; [|by apply IH]. intros y Hy. apply Hx.
  by apply removeNode_elem_of in Hy as [_ ?].
Qed.

Lemma ascending_snoc f key l :
  ascending f l → (∀ y, y ∈ l → (f y < f key)%nat) → ascending f (l ++ [key]).
Proof.
  induction l as [|x l IH]; simpl.
  - intros _ _. split; [|done]. intros y Hy. by apply elem_of_nil in Hy.
  - intros [Hx Hl] Hlt. split.
    + intros y Hy. apply elem_of_app in Hy as [Hy|Hy]; [by apply Hx|].
      apply list_elem_of_singleton in Hy as ->. apply Hlt. by left.
    + apply IH; [done|]. intros y Hy. apply Hlt. by right.
Qed.

Lemma FIFO_order_ascending capacity ops :
  let p0 := PolicyFIFO (FIFOPolicy.new capacity) in
  ∃ q, Policy_run ops p0 = PolicyFIFO q ∧
       NoDup (FIFOPolicy.order q) ∧ ascending (insertedAt p0 ops) (FIFOPolicy.order q).
Proof.
  intros p0. induction ops as [|op ops IH] using rev_ind.
  - exists (FIFOPolicy.new capacity). split_and!; [done|apply NoDup_nil_2|done].
  - destruct IH as (q & Hrun & Hnd & Hasc).
    set (f := insertedAt p0 ops) in *. set (f' := insertedAt p0 (ops ++ [op])).
    assert (∀ y, (f y ≤ length ops)%nat) as Hle by (intros y; apply insertedAt_le).
    assert (∀ y, inserts (PolicyFIFO q) op y = false → f' y = f y) as Hsame.
    { intros y Hy. subst f f'. by rewrite insertedAt_snoc, Hrun, Hy. }
    assert (∀ y, inserts (PolicyFIFO q) op y = true → f' y = S (length ops)) as Hnew.
    { intros y Hy. subst f f'. by rewrite insertedAt_snoc, Hrun, Hy. }
    assert (∀ l, (∀ y, y ∈ l → y ∈ FIFOPolicy.order q) → ascending f l → ascending f' l)
      as Hkeep.
    { intros l Hsub Hl. apply (ascending_ext f); [|done].
      intros y Hy. apply Hsame. destruct op; simpl; try done.
      apply andb_false_iff. destruct (decide (key = y)) as [->|Hne].
      - right. apply negb_false_iff. apply bool_decide_eq_true. by apply Hsub.
      - left. by apply bool_decide_eq_false. }
    unfold Policy_run in *. rewrite fold_left_app, Hrun. simpl.
    destruct op as [key|key|key| |]; simpl.
    + exists q. split_and!; [done|done|by apply Hkeep].
    + destruct (FIFOPolicy.set key q) as [ev q'] eqn:Hset.
      destruct (FIFO_set_spec _ _ _ _ Hnd Hset) as (Hnd' & _).
      exists q'. split_and!; [done|done|]. revert Hset. unfold FIFOPolicy.set.
      destruct (FIFOPolicy.has key q) eqn:Hhas; [intros [= <- <-]; by apply Hkeep|].
      apply bool_decide_eq_false in Hhas.
      assert (∀ l, (∀ y, y ∈ l → y ∈ FIFOPolicy.order q) → ascending f l →
                   ascending f' (l ++ [key])) as Hadd.
      { intros l Hsub Hl. apply ascending_snoc; [by apply Hkeep|].
        intros y Hy. rewrite (Hnew key), Hsame.
        - specialize (Hle y). lia.
        - simpl. apply andb_false_iff. left. apply bool_decide_eq_false.
          intros ->. by apply Hhas, Hsub.
        - simpl. apply andb_true_iff. split; [by apply bool_decide_eq_true|].
          apply negb_true_iff. by apply bool_decide_eq_false. }
      destruct ((0 <? FIFOPolicy.capacity q) && (FIFOPolicy.capacity q <=? FIFOPolicy.size q)).
      * unfold FIFOPolicy.evictFIFO.
        destruct (FIFOPolicy.order q) as [|v l] eqn:Horder;
          destruct (FIFOPolicy.capacity q =? 0); intros [= <- <-]; simpl;
          rewrite ?Horder; unfold FIFOPolicy.addToTail.
        -- done.
        -- by apply (Hadd []).
        -- apply Hkeep; [|by apply (ascending_removeNode f v (v :: l))].
           intros y Hy. by apply removeNode_elem_of in Hy as [_ ?].
        -- apply Hadd; [|by apply (ascending_removeNode f v (v :: l))].
           intros y Hy. by apply removeNode_elem_of in Hy as [_ ?].
      * destruct (FIFOPolicy.capacity q =? 0); intros [= <- <-]; simpl.
        -- by apply Hkeep.
        -- by apply Hadd.
    + unfold FIFOPolicy.delete. destruct (FIFOPolicy.has key q).
      * eexists. split; [done|]. simpl. split; [by apply removeNode_NoDup|].
        apply Hkeep; [|by apply ascending_removeNode].
        intros y Hy. by apply removeNode_elem_of in Hy as [_ ?].
      * exists q. split_and!; [done|done|by apply Hkeep].
    + unfold FIFOPolicy.evict, FIFOPolicy.evictFIFO.
      destruct (FIFOPolicy.order q) as [|v l] eqn:Horder.
      * exists q. rewrite Horder. split_and!; [done|apply NoDup_nil_2|done].
      * eexists. split; [done|]. simpl. split; [by apply removeNode_NoDup|].
        apply Hkeep; [|by apply (ascending_removeNode f v (v :: l))].
        intros y Hy. by apply removeNode_elem_of in Hy as [_ ?].
    + eexists. split; [done|]. simpl. split; [apply NoDup_nil_2|done].
Qed.

(** X13.  After every sequence of operations on a FIFO policy of any
    capacity, if the policy holds a key then [evict] returns and removes the
    resident key that was inserted first: its insertion (the last [set] of it
    that found it not resident) is strictly earlier than the insertion of
    every other resident key.  Neither a [get] nor a [set] of a resident key
    changes this order. *)
Theorem FIFO_evict_first_inserted capacity ops :
  let p0 := PolicyFIFO (FIFOPolicy.new capacity) in
  let p := Policy_run ops p0 in
  0 < Policy.size p →
  ∃ v p',
    Policy.evict p = (Some v, p') ∧
    Policy.has v p = true ∧ Policy.has v p' = false ∧
    ∀ k, Policy.has k p = true → k ≠ v → (insertedAt p0 ops v < insertedAt p0 ops k)%nat.
Proof.
  intros p0 p. subst p. destruct (FIFO_order_ascending capacity ops) as (q & Hq & Hnd & Hasc).
  fold p0 in Hq. rewrite Hq.
  simpl. unfold FIFOPolicy.size, FIFOPolicy.evict, FIFOPolicy.evictFIFO. intros Hsize.
  destruct (FIFOPolicy.order q) as [|v l] eqn:Horder; [simpl in Hsize; lia|].
  exists v. eexists. split; [done|]. simpl. split_and!.
  - apply FIFO_has_true. rewrite Horder. apply elem_of_cons. by left.
  - apply bool_decide_eq_false. simpl. rewrite removeNode_elem_of. tauto.
  - intros k Hk Hkv. apply FIFO_has_true in Hk. rewrite Horder in Hk.
    apply elem_of_cons in Hk as [->|Hk]; [done|]. by apply Hasc.
Qed.

(** ** LFU: the victim *)

Lemma useCount_from_snoc count p ops op k :
  useCount_from count p (ops ++ [op]) k
  = uses (Policy_run ops p) op k (useCount_from count p ops k).
Proof.
  revert count p. induction ops as [|o ops IH]; intros count p; simpl; [done|].
  by rewrite IH.
Qed.

Lemma useCount_snoc p0 ops op k :
  useCount p0 (ops ++ [op]) k = uses (Policy_run ops p0) op k (useCount p0 ops k).
Proof. unfold useCount. by rewrite useCount_from_snoc. Qed.

Lemma ascending_keep (s s' : string → nat) key l :
  ascending s l → key ∉ l → (∀ y, y ≠ key → s' y = s y) → ascending s' l.
Proof.
  intros Hl Hnotin Hother. apply (ascending_ext s); [|done].
  intros y Hy. apply Hother. by intros ->.
Qed.

Lemma LFU_remove_lookup key f fm g l :
  LFUPolicy.removeFromFrequencyList key f fm !! g = Some l →
  (g ≠ f ∧ fm !! g = Some l) ∨ (g = f ∧ ∃ l0, fm !! f = Some l0 ∧ l = removeNode key l0).
Proof.
  destruct (decide (g = f)) as [->|Hne]; [|rewrite LFU_remove_other by done; by left].
  unfold LFUPolicy.removeFromFrequencyList.
  destruct (fm !! f) as [l0|] eqn:E; [|by rewrite E].
  destruct (removeNode key l0) as [|x l'] eqn:R.
  - by rewrite lookup_delete_eq.
  - rewrite lookup_insert_eq. intros [= <-]. right. split; [done|]. eauto.
Qed.

Lemma LFU_add_lookup key f fm g l :
  LFUPolicy.addToFrequencyList key f fm !! g = Some l →
  (g ≠ f ∧ fm !! g = Some l) ∨ (g = f ∧ l = default [] (fm !! f) ++ [key]).
Proof.
  destruct (decide (g = f)) as [->|Hne]; [|rewrite LFU_add_other by done; by left].
  unfold LFUPolicy.addToFrequencyList. rewrite lookup_insert_eq. intros [= <-]. by right.
Qed.

Lemma LFU_tracks_ext c s c' s' q :
  (∀ k, is_Some (LFUPolicy.cache q !! k) → c' k = c k ∧ s' k = s k) →
  LFU_tracks c s q → LFU_tracks c' s' q.
Proof.
  intros Hsame (Hwf & Hcnt & Hasc). split_and!; [done| |].
  - intros k f Hk. destruct (Hcnt k f Hk) as (-> & ? & ?).
    by destruct (Hsame k ltac:(eauto)) as [-> _].
  - intros f l Hl. apply (ascending_ext s); [|by eapply Hasc].
    intros y Hy. apply Hsame. exists f. apply Hwf. by exists l.
Qed.

Lemma LFU_tracks_remove c s q key f minFrequency' :
  LFU_tracks c s q → LFUPolicy.cache q !! key = Some f →
  let fm' := LFUPolicy.removeFromFrequencyList key f (LFUPolicy.frequencyMap q) in
  minFrequency' = LFUPolicy.minFrequency q
  ∨ (minFrequency' = S (LFUPolicy.minFrequency q) ∧ fm' !! LFUPolicy.minFrequency q = None) →
  LFU_tracks c s
    (LFUPolicy.mk (LFUPolicy.capacity q) (base.delete key (LFUPolicy.cache q)) fm'
       minFrequency').
Proof.
  intros (Hwf & Hcnt & Hasc) Hkey fm' Hmin.
  assert (LFU_wf (LFUPolicy.mk (LFUPolicy.capacity q) (base.delete key (LFUPolicy.cache q))
                    fm' minFrequency')) as Hwf'
    by (by eapply LFU_remove_node_wf).
  split_and!; [done| |]; simpl.
  - intros k g Hk. pose proof Hk as Hk'. apply lookup_delete_Some in Hk as [Hne Hk].
    destruct (Hcnt k g Hk) as (-> & Hge & Hpos). split_and!; [done| |done].
    destruct Hmin as [->|[-> Hnone]]; [done|].
    assert (c k ≠ LFUPolicy.minFrequency q); [|lia]. intros Heq.
    rewrite Heq in Hk'. apply Hwf' in Hk'. destruct Hk' as (l & Hl & _).
    simpl in Hl. by rewrite Hnone in Hl.
  - intros g l Hl. apply LFU_remove_lookup in Hl as [[_ Hl]|[_ (l0 & Hl0 & ->)]].
    + by eapply Hasc.
    + apply ascending_removeNode. by eapply Hasc.
Qed.

Lemma LFU_tracks_increase c s c' s' n q key f :
  LFU_tracks c s q → LFUPolicy.cache q !! key = Some f →
  c' key = S (c key) → (∀ y, y ≠ key → c' y = c y) →
  s' key = S n → (∀ y, (s y ≤ n)%nat) → (∀ y, y ≠ key → s' y = s y) →
  LFU_tracks c' s' (LFUPolicy.increaseFrequency key f q).
Proof.
  intros (Hwf & Hcnt & Hasc) Hkey Hc Hcother Hs Hle Hsother.
  destruct (LFU_increaseFrequency_spec key f q Hwf Hkey) as (Hwf' & _).
  destruct (Hcnt key f Hkey) as (Hf & Hminf & Hposf).
  split_and!; [done| |].
  - intros k g Hk. pose proof Hk as Hk'. simpl in Hk.
    apply lookup_insert_Some in Hk as [[<- <-]|[Hne Hk]].
    + rewrite Hc, <- Hf. split_and!; [lia| |lia]. simpl. case_match; lia.
    + destruct (Hcnt k g Hk) as (-> & Hge & Hpos).
      rewrite Hcother by done. split_and!; [done| |done]. simpl.
      destruct (bool_decide (f = LFUPolicy.minFrequency q) && _) eqn:Hcase; [|done].
      apply andb_true_iff in Hcase as [Heq Hgone].
      apply bool_decide_eq_true in Heq. apply negb_true_iff, bool_decide_eq_false in Hgone.
      assert (c k ≠ f); [|lia]. intros Hkf. apply Hgone.
      rewrite Hkf in Hk'. apply Hwf' in Hk'. destruct Hk' as (l & Hl & _). by exists l.
  - intros g l Hl. simpl in Hl.
    assert (∀ g0 l0, LFUPolicy.frequencyMap q !! g0 = Some l0 → g0 ≠ f → key ∉ l0) as Hnotin.
    { intros g0 l0 Hl0 Hne Hin.
      assert (LFUPolicy.cache q !! key = Some g0) as Hk by (apply Hwf; by exists l0).
      congruence. }
    apply LFU_add_lookup in Hl as [[Hne Hl]|[-> ->]].
    + apply LFU_remove_lookup in Hl as [[Hnf Hl]|[-> (l0 & Hl0 & ->)]].
      * apply (ascending_keep s s' key); [by eapply Hasc|by eapply Hnotin|done].
      * apply (ascending_keep s s' key); [|rewrite removeNode_elem_of; tauto|done].
        apply ascending_removeNode. by eapply Hasc.
    + rewrite LFU_remove_other by lia.
      destruct (LFUPolicy.frequencyMap q !! (f + 1)%nat) as [l0|] eqn:Hl0; simpl.
      * apply ascending_snoc.
        -- apply (ascending_keep s s' key); [by eapply Hasc| |done].
           eapply Hnotin; [done|lia].
        -- intros y Hy. rewrite Hs, Hsother.
           ++ specialize (Hle y). lia.
           ++ intros ->. revert Hy. eapply Hnotin; [done|lia].
      * split; [|done]. intros y Hy. by apply elem_of_nil in Hy.
Qed.

Lemma LFU_tracks_insert c s c' s' n q key :
  LFU_tracks c s q → LFUPolicy.cache q !! key = None →
  c' key = 1%nat → (∀ y, y ≠ key → c' y = c y) →
  s' key = S n → (∀ y, (s y ≤ n)%nat) → (∀ y, y ≠ key → s' y = s y) →
  LFU_wf (LFUPolicy.mk (LFUPolicy.capacity q) (<[key:=1%nat]> (LFUPolicy.cache q))
            (LFUPolicy.addToFrequencyList key 1 (LFUPolicy.frequencyMap q)) 1) →
  LFU_tracks c' s'
    (LFUPolicy.mk (LFUPolicy.capacity q) (<[key:=1%nat]> (LFUPolicy.cache q))
       (LFUPolicy.addToFrequencyList key 1 (LFUPolicy.frequencyMap q)) 1).
Proof.
  intros (Hwf & Hcnt & Hasc) Hkey Hc Hcother Hs Hle Hsother Hwf'.
  assert (∀ g0 l0, LFUPolicy.frequencyMap q !! g0 = Some l0 → key ∉ l0) as Hnotin.
  { intros g0 l0 Hl0 Hin.
    assert (LFUPolicy.cache q !! key = Some g0) as Hk by (apply Hwf; by exists l0).
    congruence. }
  split_and!; [done| |]; simpl.
  - intros k g Hk. apply lookup_insert_Some in Hk as [[<- <-]|[Hne Hk]].
    + by rewrite Hc.
    + destruct (Hcnt k g Hk) as (-> & _ & Hpos). by rewrite Hcother.
  - intros g l Hl. apply LFU_add_lookup in Hl as [[Hne Hl]|[-> ->]].
    + apply (ascending_keep s s' key); [by eapply Hasc|by eapply Hnotin|done].
    + destruct (LFUPolicy.frequencyMap q !! 1%nat) as [l0|] eqn:Hl0; simpl.
      * apply ascending_snoc.
        -- apply (ascending_keep s s' key); [by eapply Hasc|by eapply Hnotin|done].
        -- intros y Hy. rewrite Hs, Hsother.
           ++ specialize (Hle y). lia.
           ++ intros ->. revert Hy. by eapply Hnotin.
      * split; [|done]. intros y Hy. by apply elem_of_nil in Hy.
Qed.

Lemma LFU_tracks_evict c s q ev q' :
  LFU_tracks c s q → LFUPolicy.evictLFU q = (ev, q') → LFU_tracks c s q'.
Proof.
  intros Ht. pose proof Ht as (Hwf & _). unfold LFUPolicy.evictLFU.
  destruct (bool_decide (LFUPolicy.minFrequency q = 0%nat)); [by intros [= <- <-]|].
  destruct (LFUPolicy.frequencyMap q !! LFUPolicy.minFrequency q) as [[|v l]|] eqn:Hlist;
    try by intros [= <- <-].
  intros [= <- <-].
  assert (LFUPolicy.cache q !! v = Some (LFUPolicy.minFrequency q)) as Hv.
  { apply Hwf. exists (v :: l). split; [done|]. apply elem_of_cons. by left. }
  rewrite Hv. simpl. apply LFU_tracks_remove; [done|done|by left].
Qed.

Lemma LFU_tracks_run capacity ops :
  let p0 := PolicyLFU (LFUPolicy.new capacity) in
  ∃ q, Policy_run ops p0 = PolicyLFU q ∧
       LFU_tracks (useCount p0 ops) (lastAccess ops) q.
Proof.
  intros p0. induction ops as [|op ops IH] using rev_ind.
  - exists (LFUPolicy.new capacity). split; [done|].
    destruct (Policy_create_spec (CacheConfig.mk 0 capacity LFU)) as (Hwf & _).
    split_and!; [done| |]; simpl.
    + intros k f Hk. by rewrite lookup_empty in Hk.
    + intros f l Hl. by rewrite lookup_empty in Hl.
  - destruct IH as (q & Hrun & Ht). pose proof Ht as (Hwf & Hcnt & Hasc).
    set (c := useCount p0 ops) in *. set (c' := useCount p0 (ops ++ [op])).
    set (s := lastAccess ops) in *. set (s' := lastAccess (ops ++ [op])).
    assert (∀ y, (s y ≤ length ops)%nat) as Hle by (intros y; apply lastAccess_le).
    assert (∀ y, c' y = uses (PolicyLFU q) op y (c y)) as Hc'.
    { intros y. subst c c'. by rewrite useCount_snoc, Hrun. }
    assert (∀ y, s' y = if accesses op y then S (length ops) else s y) as Hs'.
    { intros y. subst s s'. by rewrite lastAccess_snoc. }
    assert ((∀ y, is_Some (LFUPolicy.cache q !! y) → accesses op y = false) →
            LFU_tracks c' s' q) as Hkeep.
    { intros Hnone. apply (LFU_tracks_ext c s); [|done]. intros k Hk.
      specialize (Hnone k Hk). rewrite Hc', Hs', Hnone. split; [|done].
      destruct op; simpl in *; try done; by rewrite Hnone. }
    assert (∀ key, accesses op key = true → ∀ y, y ≠ key → c' y = c y ∧ s' y = s y)
      as Hother.
    { intros key Hacc y Hy. rewrite Hc', Hs'.
      destruct op; simpl in *; try done; apply bool_decide_eq_true in Hacc; subst;
        by rewrite bool_decide_eq_false_2. }
    unfold Policy_run in *. rewrite fold_left_app, Hrun. simpl.
    destruct op as [key|key|key| |]; simpl.
    + (* get *)
      unfold LFUPolicy.get. destruct (LFUPolicy.cache q !! key) as [f|] eqn:Hkey.
      * eexists. split; [done|]. simpl.
        apply (LFU_tracks_increase c s c' s' (length ops)); try done.
        -- rewrite Hc'. simpl. rewrite bool_decide_eq_true_2 by done.
           unfold LFUPolicy.has. rewrite bool_decide_eq_true_2 by eauto. done.
        -- intros y Hy. apply (Hother key); [simpl; by apply bool_decide_eq_true|done].
        -- rewrite Hs'. simpl. by rewrite bool_decide_eq_true_2.
        -- intros y Hy. apply (Hother key); [simpl; by apply bool_decide_eq_true|done].
      * exists q. split; [done|]. apply Hkeep. intros y [g Hy]. simpl.
        apply bool_decide_eq_false. congruence.
    + (* set *)
      destruct (LFUPolicy.set key q) as [ev q'] eqn:Hset.
      destruct (LFU_set_spec _ _ _ _ Hwf Hset) as (Hwf' & _).
      exists q'. split; [done|]. revert Hset Hwf'. unfold LFUPolicy.set.
      destruct (LFUPolicy.cache q !! key) as [f|] eqn:Hkey.
      * intros [= <- <-] _.
        apply (LFU_tracks_increase c s c' s' (length ops)); try done.
        -- rewrite Hc'. simpl. rewrite bool_decide_eq_true_2 by done.
           unfold LFUPolicy.has. rewrite bool_decide_eq_true_2 by eauto. done.
        -- intros y Hy. apply (Hother key); [simpl; by apply bool_decide_eq_true|done].
        -- rewrite Hs'. simpl. by rewrite bool_decide_eq_true_2.
        -- intros y Hy. apply (Hother key); [simpl; by apply bool_decide_eq_true|done].
      * assert (∀ q1, LFUPolicy.capacity q1 = LFUPolicy.capacity q →
                  LFU_tracks c s q1 → LFUPolicy.cache q1 !! key = None →
                  LFU_wf (LFUPolicy.mk (LFUPolicy.capacity q)
                            (<[key:=1%nat]> (LFUPolicy.cache q1))
                            (LFUPolicy.addToFrequencyList key 1 (LFUPolicy.frequencyMap q1))
                            (if bool_decide (LFUPolicy.minFrequency q1 = 0%nat)
                                || bool_decide (1 < LFUPolicy.minFrequency q1)%nat
                             then 1%nat else LFUPolicy.minFrequency q1)) →
                  LFU_tracks c' s'
                    (LFUPolicy.mk (LFUPolicy.capacity q)
                       (<[key:=1%nat]> (LFUPolicy.cache q1))
                       (LFUPolicy.addToFrequencyList key 1 (LFUPolicy.frequencyMap q1))
                       (if bool_decide (LFUPolicy.minFrequency q1 = 0%nat)
                           || bool_decide (1 < LFUPolicy.minFrequency q1)%nat
                        then 1%nat else LFUPolicy.minFrequency q1))) as Hadd.
        { intros q1 Hcap Ht1 Hkey1.
          assert ((if bool_decide (LFUPolicy.minFrequency q1 = 0%nat)
                      || bool_decide (1 < LFUPolicy.minFrequency q1)%nat
                   then 1%nat else LFUPolicy.minFrequency q1) = 1%nat) as ->.
          { destruct (bool_decide _ || bool_decide _) eqn:Hor; [done|].
            apply orb_false_iff in Hor as [H0 H1].
            apply bool_decide_eq_false in H0, H1. lia. }
          rewrite <- Hcap. intros Hwf1.
          apply (LFU_tracks_insert c s c' s' (length ops)); try done.
          - rewrite Hc'. simpl. rewrite bool_decide_eq_true_2 by done.
            unfold LFUPolicy.has. rewrite bool_decide_eq_false_2; [done|].
            rewrite Hkey. by intros [? ?].
          - intros y Hy. apply (Hother key); [simpl; by apply bool_decide_eq_true|done].
          - rewrite Hs'. simpl. by rewrite bool_decide_eq_true_2.
          - intros y Hy. apply (Hother key); [simpl; by apply bool_decide_eq_true|done]. }
        assert (LFU_tracks c' s' q) as Hq'.
        { apply Hkeep. intros y [g Hy]. simpl. apply bool_decide_eq_false. congruence. }
        destruct ((0 <? LFUPolicy.capacity q) && (LFUPolicy.capacity q <=? LFUPolicy.size q)).
        -- destruct (LFUPolicy.evictLFU q) as [ev1 q1] eqn:Hev.
           pose proof (LFU_tracks_evict c s q ev1 q1 Ht Hev) as Ht1.
           destruct (LFU_evict_spec _ _ _ Hwf Hev) as (_ & Hcap1 & Hm).
           assert (LFUPolicy.cache q1 !! key = None) as Hkey1.
           { destruct (LFUPolicy.cache q1 !! key) as [g|] eqn:Hg; [|done].
             assert (LFUPolicy.has key q1 = true) as Hhas1
               by (apply LFU_has_true; eauto).
             assert (LFUPolicy.has key q = true) as Hhas.
             { destruct ev1 as [v|]; [by apply Hm in Hhas1 as [? _]|by subst q1]. }
             apply LFU_has_true in Hhas as [? ?]. congruence. }
           destruct (LFUPolicy.capacity q =? 0); intros [= <- <-] Hwf1.
           ++ apply (LFU_tracks_ext c s); [|done]. intros k Hk.
              assert (k ≠ key) as Hne by (intros ->; rewrite Hkey1 in Hk; by destruct Hk).
              by apply (Hother key); [simpl; apply bool_decide_eq_true|].
           ++ by apply Hadd.
        -- destruct (LFUPolicy.capacity q =? 0); intros [= <- <-] Hwf1; [done|].
           by apply Hadd.
    + (* delete *)
      assert (LFU_tracks c' s' q) as Hq' by (by apply Hkeep).
      unfold LFUPolicy.delete. destruct (LFUPolicy.cache q !! key) as [f|] eqn:Hkey;
        [|by exists q].
      eexists. split; [done|]. simpl. apply LFU_tracks_remove; [done|done|].
      destruct (bool_decide (0 < LFUPolicy.minFrequency q)%nat && _) eqn:Hcase; [|by left].
      right. split; [done|]. apply andb_true_iff in Hcase as [_ Hgone].
      apply negb_true_iff, bool_decide_eq_false in Hgone.
      by apply eq_None_not_Some.
    + (* evict *)
      assert (LFU_tracks c' s' q) as Hq' by (by apply Hkeep).
      unfold LFUPolicy.evict. destruct (LFUPolicy.evictLFU q) as [ev q'] eqn:Hev.
      exists q'. split; [done|]. by eapply LFU_tracks_evict.
    + (* clear *)
      eexists. split; [done|].
      destruct (Policy_clear_spec (PolicyLFU q)) as (Hwf0 & _).
      split_and!; [done| |]; simpl.
      * intros k f Hk. by rewrite lookup_empty in Hk.
      * intros f l Hl. by rewrite lookup_empty in Hl.
Qed.

(** X14.  After every sequence of operations on an LFU policy of any
    capacity, when [evict] returns a key it is a resident key, it is removed,
    and it is the least frequently used one: every other resident key has
    been used more often since its insertion, or as often and then more
    recently (the last [get] or [set] of the victim is strictly earlier). *)
Theorem LFU_evict_least_frequently_used capacity ops v p' :
  let p0 := PolicyLFU (LFUPolicy.new capacity) in
  let p := Policy_run ops p0 in
  Policy.evict p = (Some v, p') →
  Policy.has v p = true ∧ Policy.has v p' = false ∧
  ∀ k, Policy.has k p = true → k ≠ v →
    (useCount p0 ops v < useCount p0 ops k)%nat
    ∨ (useCount p0 ops v = useCount p0 ops k ∧ (lastAccess ops v < lastAccess ops k)%nat).
Proof.
  intros p0 p. subst p.
  destruct (LFU_tracks_run capacity ops) as (q & Hq & Hwf & Hcnt & Hasc).
  fold p0 in Hq, Hcnt. rewrite Hq. simpl.
  destruct (LFUPolicy.evict q) as [ev q'] eqn:Hev. intros [= -> <-].
  destruct (LFU_evict_spec _ _ _ Hwf Hev) as (_ & _ & Hv & Hrest).
  split_and!; [done| |].
  - simpl. destruct (LFUPolicy.has v q') eqn:Hhas; [|done]. by apply Hrest in Hhas as [_ ?].
  - intros k Hk Hkv. simpl in Hk. apply LFU_has_true in Hk as [g Hk].
    unfold LFUPolicy.evict, LFUPolicy.evictLFU in Hev.
    destruct (bool_decide (LFUPolicy.minFrequency q = 0%nat)); [done|].
    destruct (LFUPolicy.frequencyMap q !! LFUPolicy.minFrequency q) as [[|v0 l]|] eqn:Hlist;
      try done.
    injection Hev as -> _.
    assert (LFUPolicy.cache q !! v = Some (LFUPolicy.minFrequency q)) as Hvf.
    { apply Hwf. exists (v :: l). split; [done|]. apply elem_of_cons. by left. }
    destruct (Hcnt v _ Hvf) as (Hcv & _). destruct (Hcnt k g Hk) as (Hck & Hge & _).
    rewrite <- Hcv, <- Hck.
    destruct (decide (g = LFUPolicy.minFrequency q)) as [->|Hne]; [right|left; lia].
    split; [done|].
    assert (k ∈ v :: l) as Hin.
    { apply Hwf in Hk. destruct Hk as (l0 & Hl0 & Hin). congruence. }
    apply elem_of_cons in Hin as [->|Hin]; [done|].
    by apply (Hasc _ _ Hlist).
Qed.

(** ** When an insertion evicts *)

Lemma Policy_set_evicts_iff_full p key :
  Policy_wf p → Policy_bounded p → 0 < Policy.capacity p → Policy.has key p = false →
  (fst (Policy.set key p) = None ↔ Policy.size p < Policy.capacity p).
Proof.
  intros Hwf [Hle Hev] Hpos Hhas. destruct p as [q|q|q]; simpl in *.
  - unfold LRUPolicy.set. rewrite Hhas. rewrite (proj2 (Z.ltb_lt _ _) Hpos). simpl.
    rewrite (proj2 (Z.eqb_neq _ 0)) by lia.
    destruct (LRUPolicy.capacity q <=? LRUPolicy.size q) eqn:Hfull.
    + apply Z.leb_le in Hfull. unfold LRUPolicy.evictLRU, LRUPolicy.size in *.
      destruct (last (LRUPolicy.order q)) as [v|] eqn:Hlast; simpl; [split; [done|lia]|].
      apply last_None in Hlast. rewrite Hlast in *. simpl in *. lia.
    + apply Z.leb_gt in Hfull. simpl. split; [lia|done].
  - unfold LFUPolicy.set. apply bool_decide_eq_false in Hhas.
    destruct (LFUPolicy.cache q !! key) as [f|] eqn:Hkey; [exfalso; apply Hhas; eauto|].
    rewrite (proj2 (Z.ltb_lt _ _) Hpos). simpl.
    rewrite (proj2 (Z.eqb_neq _ 0)) by lia.
    destruct (LFUPolicy.capacity q <=? LFUPolicy.size q) eqn:Hfull.
    + apply Z.leb_le in Hfull.
      destruct (Hev ltac:(lia) Hpos) as [Hmin (v & l & Hlist)].
      unfold LFUPolicy.evictLFU. rewrite bool_decide_eq_false_2 by done. rewrite Hlist.
      simpl. split; [done|lia].
    + apply Z.leb_gt in Hfull. simpl. split; [lia|done].
  - unfold FIFOPolicy.set. rewrite Hhas. rewrite (proj2 (Z.ltb_lt _ _) Hpos). simpl.
    rewrite (proj2 (Z.eqb_neq _ 0)) by lia.
    destruct (FIFOPolicy.capacity q <=? FIFOPolicy.size q) eqn:Hfull.
    + apply Z.leb_le in Hfull. unfold FIFOPolicy.evictFIFO, FIFOPolicy.size in *.
      destruct (FIFOPolicy.order q) as [|v l] eqn:Horder; simpl in *; [lia|].
      split; [done|lia].
    + apply Z.leb_gt in Hfull. simpl. split; [lia|done].
Qed.

(** X15.  For each of the three policies, created with a capacity above 0,
    and after every sequence of operations: a [set] of a resident key evicts
    nothing and leaves the key set as it is; a [set] of a new key below
    capacity evicts nothing and adds the key; a [set] of a new key at full
    capacity returns exactly one evicted key, which was resident, and the
    policy then holds the new key and the old ones without the evicted one.
    In every case the key is resident afterwards. *)
Theorem set_evicts_exactly_when_full name capacity ops key :
  0 < capacity →
  let p := Policy_run ops (createEvictionPolicy (CacheConfig.mk 0 capacity name)) in
  let ev := fst (Policy.set key p) in
  let p' := snd (Policy.set key p) in
  Policy.has key p' = true ∧
  if Policy.has key p then
    ev = None ∧ ∀ k, Policy.has k p' = true ↔ Policy.has k p = true
  else if bool_decide (Policy.size p < capacity) then
    ev = None ∧ ∀ k, Policy.has k p' = true ↔ k = key ∨ Policy.has k p = true
  else
    Policy.size p = capacity ∧
    ∃ v, ev = Some v ∧ Policy.has v p = true ∧
         ∀ k, Policy.has k p' = true ↔ k = key ∨ (Policy.has k p = true ∧ k ≠ v).
Proof.
  intros Hpos p ev p'. set (cfg := CacheConfig.mk 0 capacity name) in *.
  destruct (Policy_create_spec cfg) as (Hwf0 & Hc0 & _).
  destruct (Policy_run_bounded ops _ Hwf0 (Policy_new_bounded cfg ltac:(simpl; lia)))
    as [Hwf Hb].
  pose proof (Policy_run_capacity ops _ Hwf0) as Hcap. rewrite Hc0 in Hcap. simpl in Hcap.
  fold p in Hwf, Hb, Hcap.
  pose proof (Policy_set_evicts_iff_full p key Hwf Hb) as Hiff. rewrite Hcap in Hiff.
  destruct Hb as [Hle _]. rewrite Hcap in Hle.
  subst ev p'. destruct (Policy.set key p) as [ev p'] eqn:Hset. simpl in *.
  destruct (Policy_set_spec _ _ _ _ Hwf Hset) as (_ & _ & _ & Hsame & Hnew).
  rewrite Hcap in Hnew.
  destruct (Policy.has key p) eqn:Hhas.
  - destruct Hsame as [-> Hk]; [by left|]. split; [by apply Hk|]. done.
  - specialize (Hnew eq_refl ltac:(lia)). specialize (Hiff Hpos eq_refl).
    destruct (bool_decide (Policy.size p < capacity)) eqn:Hsize.
    + apply bool_decide_eq_true in Hsize. apply Hiff in Hsize. subst ev.
      split; [apply Hnew; by left|done].
    + apply bool_decide_eq_false in Hsize. destruct ev as [v|];
        [|exfalso; apply Hsize; by apply Hiff].
      destruct Hnew as [Hv Hk]. split; [apply Hk; by left|].
      split; [lia|]. by exists v.
Qed.

(** ** The memory account *)

Lemma Forall_JSMap_delete {V} (P : string * V → Prop) k m :
  Forall P m → Forall P (JSMap.delete k m).
Proof.
  induction 1 as [|[k0 x] m Hx Hm IH]; simpl; [done|].
  destruct (decide (k0 = k)); [done|]. by apply List.Forall_cons.
Qed.

Lemma Forall_JSMap_set {V} (P : string * V → Prop) k v m :
  Forall P m → P (k, v) → Forall P (JSMap.set k v m).
Proof.
  intros Hm Hv. induction Hm as [|[k0 x] m Hx Hm IH]; simpl.
  - by apply List.Forall_cons.
  - destruct (decide (k0 = k)); by apply List.Forall_cons.
Qed.

Lemma Forall_JSMap_get {V} (P : string * V → Prop) k v m :
  Forall P m → JSMap.get k m = Some v → P (k, v).
Proof.
  induction 1 as [|[k0 x] m Hx Hm IH]; simpl; [done|].
  destruct (decide (k0 = k)) as [->|Hne]; [by intros [= ->]|done].
Qed.

Lemma delete_sized key e :
  Forall sized (store e) → Forall sized (store (snd (delete key e))).
Proof.
  intros Hs. unfold delete. destruct (JSMap.get key (store e)); [|done].
  simpl. by apply Forall_JSMap_delete.
Qed.

Lemma evictOne_sized e :
  Forall sized (store e) → Forall sized (store (snd (evictOne e))).
Proof.
  intros Hs. unfold evictOne.
  destruct (Policy.evict (evictionPolicy e)) as [[k|] p]; [|done].
  destruct (truthy_string k); [|done]. unfold_with.
  destruct (JSMap.get k (store e)); [|done]. simpl. by apply Forall_JSMap_delete.
Qed.

Lemma enforceMemoryLimit_loop_sized fuel requiredSpace e :
  Forall sized (store e) →
  Forall sized (store (enforceMemoryLimit_loop fuel requiredSpace e)).
Proof.
  revert e. induction fuel as [|fuel IH]; intros e Hs; [done|].
  cbn [enforceMemoryLimit_loop].
  destruct ((memoryThreshold e <? currentMemoryBytes e + requiredSpace)
            && (0 <? JSMap.size (store e))); [|done].
  pose proof (evictOne_sized e Hs) as Hev.
  destruct (evictOne e) as [[k|] e1]; simpl in Hev; [|done].
  destruct (truthy_string k); [|done]. by apply IH.
Qed.

Section MemoryAccount.
Variable clock : nat → Z.

Lemma set_sized key value ttl w :
  Forall sized (store (engine w)) →
  Forall sized (store (engine (snd (set clock key value ttl w)))).
Proof.
  intros Hs. unfold set, Date_now. cbv zeta. cbn [engine reads fst snd].
  set (entrySize := calculateEntrySize key value).
  set (e1 := if memoryThreshold (engine w) <? currentMemoryBytes (engine w) + entrySize
             then enforceMemoryLimit entrySize (engine w) else engine w).
  assert (Forall sized (store e1)) as Hs1.
  { subst e1. destruct (_ <? _); [|done]. by apply enforceMemoryLimit_loop_sized. }
  clearbody e1.
  assert (Forall sized
            (JSMap.set key (CacheEntry.mk value (expiresAtOf (clock (reads w)) ttl) entrySize)
               (store e1))) as Hset by (by apply Forall_JSMap_set).
  destruct (JSMap.get key (store e1)) as [existingEntry|]; [done|].
  unfold_with.
  destruct (Policy.set key (evictionPolicy e1)) as [[k|] p]; [|done].
  destruct (truthy_string k); [|done]. simpl.
  destruct (JSMap.get k _); [|done]. simpl. by apply Forall_JSMap_delete.
Qed.

Lemma get_sized key w :
  Forall sized (store (engine w)) → Forall sized (store (engine (snd (get clock key w)))).
Proof.
  intros Hs. unfold get. destruct (JSMap.get key (store (engine w))) as [entry|]; [|done].
  destruct (isExpired_spec clock entry w) as [_ Heng].
  destruct (isExpired clock entry w) as [expired w1]. simpl in Heng.
  destruct expired; unfold_with; rewrite Heng; [by apply delete_sized|done].
Qed.

Lemma exists_sized key w :
  Forall sized (store (engine w)) →
  Forall sized (store (engine (snd (exists_ clock key w)))).
Proof.
  intros Hs. unfold exists_. destruct (JSMap.get key (store (engine w))) as [entry|]; [|done].
  destruct (isExpired_spec clock entry w) as [_ Heng].
  destruct (isExpired clock entry w) as [expired w1]. simpl in Heng.
  destruct expired; unfold_with; rewrite Heng; [by apply delete_sized|done].
Qed.

Lemma getMultiple_loop_sized keys result w :
  Forall sized (store (engine w)) →
  Forall sized (store (engine (snd (getMultiple_loop clock keys result w)))).
Proof.
  revert result w. induction keys as [|key rest IH]; intros result w Hs;
    cbn [getMultiple_loop]; [done|].
  pose proof (get_sized key w Hs) as Hget.
  destruct (get clock key w) as [value w1]. simpl in Hget.
  destruct value; by apply IH.
Qed.

Lemma setMultiple_sized entries w :
  Forall sized (store (engine w)) →
  Forall sized (store (engine (snd (setMultiple clock entries w)))).
Proof.
  revert w. induction entries as [|entry rest IH]; intros w Hs; cbn [setMultiple]; [done|].
  pose proof (set_sized (BatchEntry.key entry) (BatchEntry.value entry)
                (BatchEntry.ttl entry) w Hs) as Hset.
  destruct (set clock _ _ _ w) as [? w1]. simpl in Hset. by apply IH.
Qed.

Lemma deleteMultiple_sized keys e :
  Forall sized (store e) → Forall sized (store (snd (deleteMultiple keys e))).
Proof.
  revert e. induction keys as [|key rest IH]; intros e Hs; cbn [deleteMultiple]; [done|].
  pose proof (delete_sized key e Hs) as Hdel. destruct (delete key e) as [deleted e1].
  specialize (IH e1 Hdel). by destruct (deleteMultiple rest e1) as [deletedKeys e2].
Qed.

Lemma cleanup_loop_sized now entries cleaned e :
  Forall sized (store e) → Forall sized (store (snd (cleanup_loop now entries cleaned e))).
Proof.
  revert cleaned e. induction entries as [|[key entry] rest IH]; intros cleaned e Hs;
    cbn [cleanup_loop]; [done|].
  destruct (expiredAt now entry); [|by apply IH]. apply IH. unfold_with.
  by apply delete_sized.
Qed.

Lemma step_sized w op :
  Forall sized (store (engine w)) → Forall sized (store (engine (step clock w op))).
Proof.
  intros Hs. destruct op; cbn [step]; try done.
  - by apply get_sized.
  - by apply set_sized.
  - by apply delete_sized.
  - by apply exists_sized.
  - unfold increment. pose proof (get_sized key w Hs) as Hget.
    destruct (get clock key w) as [currentValue w1]. simpl in Hget.
    destruct currentValue; try done.
    + pose proof (set_sized key (VNumber amount) None w1 Hget) as Hset.
      by destruct (set clock key (VNumber amount) None w1).
    + pose proof (set_sized key (VNumber (n + amount)) None w1 Hget) as Hset.
      by destruct (set clock key (VNumber (n + amount)) None w1).
  - unfold updateTTL. destruct (JSMap.get key (store (engine w))) as [entry|] eqn:Hget;
      [|done].
    unfold_with. apply Forall_JSMap_set; [done|].
    apply (Forall_JSMap_get sized key entry) in Hs; done.
  - by apply getMultiple_loop_sized.
  - by apply setMultiple_sized.
  - by apply deleteMultiple_sized.
  - unfold cleanup, Date_now. cbn [engine reads].
    pose proof (cleanup_loop_sized (clock (reads w)) (store (engine w)) 0 (engine w) Hs) as Hc.
    by destruct (cleanup_loop _ _ _ _).
Qed.

Lemma run_sized ops w :
  Forall sized (store (engine w)) → Forall sized (store (engine (run clock ops w))).
Proof.
  revert w. induction ops as [|op ops IH]; intros w Hs; [done|].
  apply IH. by apply step_sized.
Qed.

Lemma storeBytes_sized m : Forall sized m → storeBytes m = contentBytes m.
Proof.
  induction 1 as [|kv m Hkv Hm IH]; [done|].
  unfold storeBytes, contentBytes in *. simpl. rewrite IH. by rewrite Hkv.
Qed.

(** X16.  In every state reached by public operations with non-empty keys,
    for every configuration, the memory account [currentMemoryBytes] (the
    [memoryUsage] of the statistics) is the sum, over the resident entries,
    of the estimate for their present key and value: 64 bytes, the bytes of
    the key and the estimated size of the value.  In particular it is at
    least 64 bytes for each resident entry, and never negative. *)
Theorem memory_account_is_the_sum_of_the_estimates cfg ops :
  Forall valid_op ops →
  let e := engine (run clock ops (newWorld cfg)) in
  currentMemoryBytes e = contentBytes (store e) ∧
  64 * JSMap.size (store e) ≤ currentMemoryBytes e.
Proof.
  intros Hvalid e.
  pose proof (reachable_Inv clock cfg ops Hvalid) as HInv. fold e in HInv.
  assert (Forall sized (store e)) as Hs by (apply run_sized; apply List.Forall_nil).
  assert (currentMemoryBytes e = contentBytes (store e)) as ->.
  { rewrite (Inv_bytes _ HInv). by apply storeBytes_sized. }
  split; [done|]. unfold JSMap.size. clear.
  induction (store e) as [|[k entry] m IH]; simpl; [lia|].
  pose proof (calculateEntrySize_pos k (CacheEntry.value entry)). lia.
Qed.
End MemoryAccount.

(** ** The window of the statistics *)

Lemma filter_filter_weaker {A} (P Q : A → Prop) `{!∀ x, Decision (P x)}
    `{!∀ x, Decision (Q x)} (l : list A) :
  (∀ x, x ∈ l → P x → Q x) → filter P (filter Q l) = filter P l.
Proof.
  induction l as [|x l IH]; intros Himp; [done|].
  rewrite (filter_cons Q), (filter_cons P).
  assert (filter P (filter Q l) = filter P l) as Hrest
    by (apply IH; intros y Hy; apply Himp, elem_of_cons; by right).
  pose proof (Himp x ltac:(apply elem_of_cons; by left)) as Hx.
  destruct (decide (Q x)) as [HQ|HQ].
  - rewrite filter_cons. by rewrite Hrest.
  - rewrite Hrest. destruct (decide (P x)); [tauto|done].
Qed.

Lemma nondecreasing_snoc times now :
  nondecreasing (times ++ [now]) →
  nondecreasing times ∧ ∀ t, t ∈ times → t ≤ now.
Proof.
  intros Hnd. split.
  - intros i j a b Hij Ha Hb. apply (Hnd i j); [done| |];
      by apply lookup_app_l_Some.
  - intros t Ht. apply list_elem_of_lookup in Ht as [i Hi].
    apply (Hnd i (length times)).
    + apply lookup_lt_Some in Hi. lia.
    + by apply lookup_app_l_Some.
    + rewrite lookup_app_r by lia. by rewrite Nat.sub_diag.
Qed.

Lemma recordAll_snoc events ev s :
  recordAll (events ++ [ev]) s
  = if fst ev then StatisticsTracker.recordHit (snd ev) (recordAll events s)
    else StatisticsTracker.recordMiss (snd ev) (recordAll events s).
Proof. unfold recordAll. by rewrite fold_left_app. Qed.

(** X17.  When hits and misses are recorded on a new tracker at times that
    do not go back, the window [operations], from whose length the statistics
    compute the operations per second, holds exactly the times of the
    recorded events that are less than 10 000 ms before the last one, in
    their order; the counters [hits] and [misses] are the numbers of recorded
    hits and misses; evictions and expirations are not touched. *)
Theorem operations_window_holds_the_last_ten_seconds events :
  let times := map snd events in
  let s := recordAll events StatisticsTracker.new in
  nondecreasing times →
  StatisticsTracker.operations s
  = filter (fun t => default 0 (last times) - 10000 < t) times ∧
  StatisticsTracker.hits s = length (filter (fun ev => fst ev = true) events) ∧
  StatisticsTracker.misses s = length (filter (fun ev => fst ev = false) events) ∧
  StatisticsTracker.evictions s = 0%nat ∧ StatisticsTracker.expirations s = 0%nat.
Proof.
  induction events as [|[hit now] events IH] using rev_ind; intros times s Hnd; [done|].
  subst times s. rewrite map_app in Hnd. simpl in Hnd.
  apply nondecreasing_snoc in Hnd as [Hnd Hle].
  destruct (IH Hnd) as (Hops & Hhits & Hmisses & Hev & Hexp). clear IH.
  rewrite recordAll_snoc, map_app. cbn [map snd fst].
  rewrite last_snoc, !filter_app. simpl.
  set (s := recordAll events StatisticsTracker.new) in *.
  assert (filter (fun time => now - StatisticsTracker.operationWindow < time)
            (StatisticsTracker.operations s ++ [now])
          = filter (fun t => now - 10000 < t) (map snd events)
            ++ filter (fun t => now - 10000 < t) [now]) as Hwindow.
  { rewrite filter_app. f_equal. rewrite Hops.
    apply (filter_filter_weaker (fun t => now - 10000 < t)).
    intros t Ht Hnew. destruct (last (map snd events)) as [prev|] eqn:Hlast; simpl.
    - assert (prev ≤ now) by (by apply Hle, last_Some_elem_of). lia.
    - apply last_None in Hlast. rewrite Hlast in Ht. by apply elem_of_nil in Ht. }
  rewrite !length_app.
  destruct hit; simpl; unfold StatisticsTracker.recordOperation; simpl;
    rewrite Hwindow, Hhits, Hmisses, Hev, Hexp;
    rewrite !filter_cons, !filter_nil; simpl;
    repeat case_decide; try done; simpl; split_and!; try done; lia.
Qed.

(** ** SET at the key limit *)

Lemma JSMap_set_absent {V} k (v : V) m :
  JSMap.get k m = None → JSMap.set k v m = m ++ [(k, v)].
Proof.
  induction m as [|[k0 x] m IH]; simpl; [done|].
  destruct (decide (k0 = k)); [done|]. intros Hget. by rewrite IH.
Qed.

Section KeyLimit.
Variable clock : nat → Z.

(** X18.  In every state reached by public operations with non-empty keys,
    with [maxKeys] above 0 and each of the three policies, a SET of a key
    that is not resident, when the memory threshold does not force an
    eviction: below [maxKeys] entries it appends the entry and evicts
    nothing; at [maxKeys] entries it evicts exactly one other resident key,
    counts one eviction, and the store holds [maxKeys] entries again, the new
    key among them. *)
Theorem set_of_new_key_at_the_key_limit cfg ops key value ttl :
  Forall valid_op ops → key ≠ EmptyString → 0 < CacheConfig.maxKeys cfg →
  let w := run clock ops (newWorld cfg) in
  let e := engine w in
  let e' := engine (snd (set clock key value ttl w)) in
  let entry :=
    CacheEntry.mk value (expiresAtOf (clock (reads w)) ttl) (calculateEntrySize key value) in
  JSMap.get key (store e) = None →
  currentMemoryBytes e + calculateEntrySize key value ≤ memoryThreshold e →
  if bool_decide (JSMap.size (store e) < CacheConfig.maxKeys cfg) then
    store e' = store e ++ [(key, entry)] ∧
    StatisticsTracker.evictions (stats e') = StatisticsTracker.evictions (stats e)
  else
    ∃ v, v ≠ key ∧ is_Some (JSMap.get v (store e)) ∧
         store e' = JSMap.delete v (store e) ++ [(key, entry)] ∧
         JSMap.size (store e') = CacheConfig.maxKeys cfg ∧
         StatisticsTracker.evictions (stats e') = S (StatisticsTracker.evictions (stats e)).
Proof.
  intros Hvalid Hkey Hkeys w e e' entry Habsent Hroom.
  pose proof (reachable_Inv clock cfg ops Hvalid) as HInv. fold w e in HInv.
  destruct (store_and_policy_agree clock cfg ops ltac:(lia) Hvalid) as (Hhas & Hsize & _).
  fold w e in Hhas, Hsize.
  destruct (run_via clock ops (newWorld cfg)) as [pops Hpops]. fold w e in Hpops.
  simpl in Hpops.
  destruct (Policy_create_spec cfg) as (Hwf0 & Hc0 & _).
  destruct (Policy_run_bounded pops _ Hwf0 (Policy_new_bounded cfg ltac:(lia)))
    as [Hwf Hb].
  pose proof (Policy_run_capacity pops _ Hwf0) as Hcap. rewrite Hc0 in Hcap.
  rewrite <- Hpops in Hwf, Hb, Hcap.
  assert (Policy.has key (evictionPolicy e) = false) as Hnew.
  { rewrite Hhas. unfold JSMap.has. by rewrite Habsent. }
  pose proof (Policy_set_evicts_iff_full _ key Hwf Hb ltac:(lia) Hnew) as Hiff.
  rewrite Hcap, Hsize in Hiff.
  subst e'. unfold set, Date_now. cbv zeta. cbn [engine reads fst snd]. fold e.
  rewrite (proj2 (Z.ltb_ge _ _) Hroom). rewrite Habsent. unfold_with. fold e. fold entry.
  destruct (Policy.set key (evictionPolicy e)) as [ev p] eqn:Hset. simpl in Hiff.
  destruct (Policy_set_spec _ _ _ _ Hwf Hset) as (_ & _ & _ & _ & Hspec).
  specialize (Hspec Hnew ltac:(lia)).
  rewrite (JSMap_set_absent key entry (store e) Habsent).
  destruct (bool_decide (JSMap.size (store e) < CacheConfig.maxKeys cfg)) eqn:Hfull.
  - apply bool_decide_eq_true in Hfull. apply Hiff in Hfull. by subst ev.
  - apply bool_decide_eq_false in Hfull.
    destruct ev as [v|]; [|exfalso; apply Hfull; by apply Hiff].
    destruct Hspec as [Hv _].
    assert (v ≠ key) as Hne by (intros ->; congruence).
    assert (is_Some (JSMap.get v (store e))) as [evicted Hevicted].
    { by apply (Inv_policy_store _ HInv). }
    assert (truthy_string v = true) as ->.
    { destruct v; [|done]. by rewrite (Inv_nonempty _ HInv) in Hevicted. }
    assert (JSMap.get v (store e ++ [(key, entry)]) = Some evicted) as ->.
    { rewrite <- (JSMap_set_absent key entry (store e) Habsent).
      by rewrite JSMap_get_set, decide_False. }
    simpl.
    assert (JSMap.delete v (store e ++ [(key, entry)])
            = JSMap.delete v (store e) ++ [(key, entry)]) as ->.
    { clear -Hevicted. induction (store e) as [|[k0 x] m IH]; simpl in *; [done|].
      destruct (decide (k0 = v)); [done|]. by rewrite IH. }
    exists v. split_and!; [done|eauto|done| |done].
    unfold JSMap.size in *. rewrite length_app. simpl.
    pose proof (JSMap_length_delete v (store e) ltac:(eauto)) as Hlen.
    assert (Z.of_nat (length (store e)) ≤ CacheConfig.maxKeys cfg); [|lia].
    rewrite <- Hsize, <- Hcap. apply Hb.
Qed.
End KeyLimit.

(** ** INCREMENT as a counter *)

Section CounterFacts.
Variable clock : nat → Z.

Lemma incrementAll_sums key amounts w base :
  key ≠ EmptyString → Inv (engine w) →
  liveValue (clock (reads w)) key (engine w) = Some (VNumber base) →
  fst (incrementAll clock key amounts w) = map Returned (runningSums base amounts).
Proof.
  intros Hkey. revert w base.
  induction amounts as [|amount rest IH]; intros w base HInv Hlive; [done|].
  cbn [incrementAll runningSums map].
  pose proof (increment_cases clock key amount w Hkey HInv) as Hcases.
  destruct (increment_spec clock key amount w Hkey HInv) as (HInv1 & _).
  destruct (increment clock key amount w) as [r w1]. simpl in Hcases, HInv1.
  rewrite Hlive in Hcases. destruct Hcases as [-> Hget].
  specialize (IH w1 (base + amount)%float HInv1).
  destruct (incrementAll clock key rest w1) as [rs w2]. simpl in *.
  rewrite IH; [done|]. unfold liveValue. by rewrite Hget.
Qed.

(** X19.  INCREMENT is a counter in JavaScript's arithmetic: in every state
    reached by public operations, successive INCREMENTs of a non-empty key
    that holds a live number return the running sums of the amounts from
    that number, each sum being the IEEE 754 binary64 sum of the previous
    result and the next amount (so that from 2^53 on an increment by 1 is
    absorbed); on a key that is absent, expired or holds null the first
    INCREMENT returns its amount as it is and the following ones return the
    running sums from it.  None of these INCREMENTs fails, whatever the
    clock, the amounts (fractions, infinities and NaN included) and the
    evictions that the writes cause. *)
Theorem increments_return_the_running_sums cfg ops key amounts :
  Forall valid_op ops → key ≠ EmptyString →
  let w := run clock ops (newWorld cfg) in
  match liveValue (clock (reads w)) key (engine w) with
  | Some (VNumber base) =>
      fst (incrementAll clock key amounts w) = map Returned (runningSums base amounts)
  | None | Some VNull =>
      fst (incrementAll clock key amounts w)
      = match amounts with
        | [] => []
        | amount :: rest => Returned amount :: map Returned (runningSums amount rest)
        end
  | Some _ => True
  end.
Proof.
  intros Hvalid Hkey w.
  pose proof (reachable_Inv clock cfg ops Hvalid) as HInv. fold w in HInv.
  assert (liveValue (clock (reads w)) key (engine w) = None
          ∨ liveValue (clock (reads w)) key (engine w) = Some VNull →
          fst (incrementAll clock key amounts w)
          = match amounts with
            | [] => []
            | amount :: rest => Returned amount :: map Returned (runningSums amount rest)
            end) as Hfresh.
  { intros Hlive. destruct amounts as [|amount rest]; [done|]. cbn [incrementAll].
    pose proof (increment_cases clock key amount w Hkey HInv) as Hcases.
    destruct (increment_spec clock key amount w Hkey HInv) as (HInv1 & _).
    destruct (increment clock key amount w) as [r w1]. simpl in Hcases, HInv1.
    assert (r = Returned amount ∧
            JSMap.get key (store (engine w1))
            = Some (CacheEntry.mk (VNumber amount) None
                      (calculateEntrySize key (VNumber amount)))) as [-> Hget].
    { destruct Hlive as [Hl|Hl]; by rewrite Hl in Hcases. }
    pose proof (incrementAll_sums key rest w1 amount Hkey HInv1) as Hrest.
    destruct (incrementAll clock key rest w1) as [rs w2]. simpl in *.
    rewrite Hrest; [done|]. unfold liveValue. by rewrite Hget. }
  destruct (liveValue (clock (reads w)) key (engine w)) as [v|] eqn:Hlive;
    [|apply Hfresh; by left].
  destruct v; try done; [apply Hfresh; by right|by apply incrementAll_sums].
Qed.
End CounterFacts.

(** ** The properties above at concrete runs *)

Lemma set_then_get_returns_the_value_witness :
  let clock := fun n : nat => Z.of_nat n in
  let cfg := CacheConfig.mk 1 10 LRU in
  let ops := [OpSet "a" (VString "x") None] in
  let key := "k" in
  let value := VNumber 5 in
  let ttl := Some 1000 in
  let w := run clock ops (newWorld cfg) in
  let w1 := snd (set clock key value ttl w) in
  let w2 := snd (get clock key w1) in
  Forall valid_op ops ∧ key ≠ EmptyString ∧
  (∀ t, ttl = Some t → t ≠ 0 → clock (S (reads w)) ≤ clock (reads w) + t) ∧
  fst (get clock key w1) = value ∧
  StatisticsTracker.hits (stats (engine w2)) = S (StatisticsTracker.hits (stats (engine w1))) ∧
  StatisticsTracker.misses (stats (engine w2)) = StatisticsTracker.misses (stats (engine w1)) ∧
  store (engine w2) = store (engine w1).
Proof.
  intros clock cfg ops key value ttl w w1 w2.
  assert (Forall valid_op ops) as Hvalid by (repeat constructor; simpl; discriminate).
  assert (key ≠ EmptyString) as Hkey by discriminate.
  assert (∀ t, ttl = Some t → t ≠ 0 → clock (S (reads w)) ≤ clock (reads w) + t) as Hlive.
  { intros t [= <-] _. vm_compute. discriminate. }
  split; [exact Hvalid|]. split; [exact Hkey|]. split; [exact Hlive|].
  exact (set_then_get_returns_the_value clock cfg ops key value ttl Hvalid Hkey Hlive).
Defined.

Lemma set_then_get_after_expiry_misses_witness :
  let clock := fun n : nat => (Z.of_nat n * 1000) in
  let cfg := CacheConfig.mk 1 10 FIFO in
  let ops := [OpSet "a" (VString "x") None] in
  let key := "k" in
  let value := VNumber 5 in
  let t := 10 in
  let w := run clock ops (newWorld cfg) in
  let w1 := snd (set clock key value (Some t) w) in
  let w2 := snd (get clock key w1) in
  Forall valid_op ops ∧ key ≠ EmptyString ∧
  t ≠ 0 ∧ clock (reads w) + t ≠ 0 ∧ clock (reads w) + t < clock (S (reads w)) ∧
  fst (get clock key w1) = VNull ∧
  JSMap.get key (store (engine w2)) = None ∧
  StatisticsTracker.expirations (stats (engine w2))
  = S (StatisticsTracker.expirations (stats (engine w1))) ∧
  StatisticsTracker.misses (stats (engine w2)) = S (StatisticsTracker.misses (stats (engine w1))) ∧
  StatisticsTracker.hits (stats (engine w2)) = StatisticsTracker.hits (stats (engine w1)).
Proof.
  intros clock cfg ops key value t w w1 w2.
  assert (Forall valid_op ops) as Hvalid by (repeat constructor; simpl; discriminate).
  assert (key ≠ EmptyString) as Hkey by discriminate.
  assert (t ≠ 0) as Ht by discriminate.
  assert (clock (reads w) + t ≠ 0) as Hnz by (vm_compute; discriminate).
  assert (clock (reads w) + t < clock (S (reads w))) as Hpast by (vm_compute; reflexivity).
  split; [exact Hvalid|]. split; [exact Hkey|]. split; [exact Ht|].
  split; [exact Hnz|]. split; [exact Hpast|].
  exact (set_then_get_after_expiry_misses clock cfg ops key value t Hvalid Hkey Ht Hnz Hpast).
Defined.

Lemma delete_removes_once_witness :
  let clock := fun n : nat => Z.of_nat n in
  let cfg := CacheConfig.mk 1 10 LFU in
  let ops := [OpSet "a" (VString "x") None; OpSet "b" (VNumber 1) None] in
  let key := "a" in
  let e := engine (run clock ops (newWorld cfg)) in
  let e1 := snd (delete key e) in
  Forall valid_op ops ∧
  fst (delete key e) = JSMap.has key (store e) ∧
  (∀ k, JSMap.get k (store e1) = if decide (k = key) then None else JSMap.get k (store e)) ∧
  currentMemoryBytes e1
  = currentMemoryBytes e
    - match JSMap.get key (store e) with Some entry => CacheEntry.size entry | None => 0 end ∧
  stats e1 = stats e ∧
  delete key e1 = (false, e1).
Proof.
  intros clock cfg ops key e e1.
  assert (Forall valid_op ops) as Hvalid by (repeat constructor; simpl; discriminate).
  split; [exact Hvalid|].
  exact (delete_removes_once clock cfg ops key Hvalid).
Defined.

Lemma exists_answers_liveness_witness :
  let clock := fun n : nat => (Z.of_nat n * 1000) in
  let cfg := CacheConfig.mk 1 10 LRU in
  let ops := [OpSet "a" (VString "x") (Some 10); OpSet "b" (VNumber 1) None] in
  let key := "a" in
  let w := run clock ops (newWorld cfg) in
  let e := engine w in
  let e1 := engine (snd (exists_ clock key w)) in
  let live := bool_decide (is_Some (liveValue (clock (reads w)) key e)) in
  Forall valid_op ops ∧
  fst (exists_ clock key w) = live ∧
  StatisticsTracker.hits (stats e1) = StatisticsTracker.hits (stats e) ∧
  StatisticsTracker.misses (stats e1) = StatisticsTracker.misses (stats e) ∧
  StatisticsTracker.operations (stats e1) = StatisticsTracker.operations (stats e) ∧
  (if live then e1 = e
   else JSMap.get key (store e1) = None ∧
        StatisticsTracker.expirations (stats e1)
        = if JSMap.has key (store e) then S (StatisticsTracker.expirations (stats e))
          else StatisticsTracker.expirations (stats e)) ∧
  match JSMap.get key (store e) with
  | None => exists_ clock key w = (false, w)
  | Some entry =>
      if expiredAt (clock (reads w)) entry then
        store e1 = JSMap.delete key (store e) ∧
        (∀ k, JSMap.get k (store e1)
              = if decide (k = key) then None else JSMap.get k (store e)) ∧
        currentMemoryBytes e1 = currentMemoryBytes e - CacheEntry.size entry ∧
        evictionPolicy e1 = snd (Policy.delete key (evictionPolicy e)) ∧
        (∀ k, Policy.has k (evictionPolicy e1) = true
              ↔ Policy.has k (evictionPolicy e) = true ∧ k ≠ key) ∧
        StatisticsTracker.expirations (stats e1) = S (StatisticsTracker.expirations (stats e)) ∧
        StatisticsTracker.evictions (stats e1) = StatisticsTracker.evictions (stats e) ∧
        maxMemoryBytes e1 = maxMemoryBytes e ∧ memoryThreshold e1 = memoryThreshold e
      else e1 = e
  end.
Proof.
  intros clock cfg ops key w e e1 live.
  assert (Forall valid_op ops) as Hvalid by (repeat constructor; simpl; discriminate).
  split; [exact Hvalid|].
  exact (exists_answers_liveness clock cfg ops key Hvalid).
Defined.

Lemma updateTTL_then_get_witness :
  let clock := fun n : nat => Z.of_nat n in
  let cfg := CacheConfig.mk 1 10 LRU in
  let ops := [OpSet "a" (VString "x") None; OpSet "b" (VNumber 2) None] in
  let key := "a" in
  let ttl := 5000 in
  let w := run clock ops (newWorld cfg) in
  let e := engine w in
  let w1 := snd (updateTTL clock key ttl w) in
  let e1 := engine w1 in
  Forall valid_op ops ∧
  match JSMap.get key (store e) with
  | None => updateTTL clock key ttl w = (false, w)
  | Some entry =>
      fst (updateTTL clock key ttl w) = true ∧
      JSMap.get key (store e1)
      = Some (CacheEntry.mk (CacheEntry.value entry) (Some (clock (reads w) + ttl))
                (CacheEntry.size entry)) ∧
      (∀ k, k ≠ key → JSMap.get k (store e1) = JSMap.get k (store e)) ∧
      keys e1 = keys e ∧
      evictionPolicy e1 = evictionPolicy e ∧ stats e1 = stats e ∧
      currentMemoryBytes e1 = currentMemoryBytes e ∧
      (clock (S (reads w)) ≤ clock (reads w) + ttl →
       fst (get clock key w1) = CacheEntry.value entry)
  end.
Proof.
  intros clock cfg ops key ttl w e w1 e1.
  assert (Forall valid_op ops) as Hvalid by (repeat constructor; simpl; discriminate).
  split; [exact Hvalid|].
  exact (updateTTL_then_get clock cfg ops key ttl Hvalid).
Defined.

Lemma clear_restores_the_new_engine_witness :
  let clock := fun n : nat => Z.of_nat n in
  let cfg := CacheConfig.mk 1 10 LFU in
  let ops := [OpSet "a" (VString "x") None; OpGet "a"; OpDelete "a"; OpGet "b"] in
  let e := engine (run clock ops (newWorld cfg)) in
  Forall valid_op ops ∧
  clear e
  = mkEngine [] (createEvictionPolicy cfg) (stats e)
      (maxMemoryBytes (newCacheEngine cfg)) 0 (memoryThreshold (newCacheEngine cfg)).
Proof.
  intros clock cfg ops e.
  assert (Forall valid_op ops) as Hvalid by (repeat constructor; simpl; discriminate).
  split; [exact Hvalid|].
  exact (clear_restores_the_new_engine clock cfg ops Hvalid).
Defined.

Lemma cleanup_removes_exactly_the_expired_witness :
  let clock := fun n : nat => (Z.of_nat n * 1000) in
  let cfg := CacheConfig.mk 1 10 LRU in
  let ops := [OpSet "a" (VString "x") (Some 10); OpSet "b" (VNumber 1) None;
              OpSet "c" (VNumber 2) (Some 500)] in
  let w := run clock ops (newWorld cfg) in
  let e := engine w in
  let e1 := engine (snd (cleanup clock w)) in
  let cleaned := fst (cleanup clock w) in
  Forall valid_op ops ∧
  store e1 = unexpired (clock (reads w)) (store e) ∧
  cleaned = JSMap.size (store e) - JSMap.size (store e1) ∧
  Z.of_nat (StatisticsTracker.expirations (stats e1))
  = Z.of_nat (StatisticsTracker.expirations (stats e)) + cleaned ∧
  StatisticsTracker.hits (stats e1) = StatisticsTracker.hits (stats e) ∧
  StatisticsTracker.misses (stats e1) = StatisticsTracker.misses (stats e) ∧
  StatisticsTracker.evictions (stats e1) = StatisticsTracker.evictions (stats e) ∧
  currentMemoryBytes e1 = storeBytes (store e1).
Proof.
  intros clock cfg ops w e e1 cleaned.
  assert (Forall valid_op ops) as Hvalid by (repeat constructor; simpl; discriminate).
  split; [exact Hvalid|].
  exact (cleanup_removes_exactly_the_expired clock cfg ops Hvalid).
Defined.

Lemma deleteMultiple_returns_the_resident_keys_witness :
  let clock := fun n : nat => Z.of_nat n in
  let cfg := CacheConfig.mk 1 10 FIFO in
  let ops := [OpSet "a" (VString "x") None; OpSet "b" (VNumber 1) None] in
  let keys := ["b"; "z"; "a"] in
  let e := engine (run clock ops (newWorld cfg)) in
  let e1 := snd (deleteMultiple keys e) in
  Forall valid_op ops ∧ NoDup keys ∧
  fst (deleteMultiple keys e) = filter (fun k => JSMap.has k (store e) = true) keys ∧
  (∀ k, JSMap.get k (store e1)
        = if bool_decide (k ∈ keys) then None else JSMap.get k (store e)) ∧
  stats e1 = stats e.
Proof.
  intros clock cfg ops keys e e1.
  assert (Forall valid_op ops) as Hvalid by (repeat constructor; simpl; discriminate).
  assert (NoDup keys) as Hnd by (apply (bool_decide_unpack _); vm_compute; exact I).
  split; [exact Hvalid|]. split; [exact Hnd|].
  exact (deleteMultiple_returns_the_resident_keys clock cfg ops keys Hvalid Hnd).
Defined.

Lemma getMultiple_returns_stored_values_witness :
  let clock := fun n : nat => Z.of_nat n in
  let cfg := CacheConfig.mk 1 10 LRU in
  let ops := [OpSet "a" (VString "x") None; OpSet "b" VNull None] in
  let keys := ["b"; "z"; "a"] in
  let w := run clock ops (newWorld cfg) in
  Forall valid_op ops ∧
  JSMap.get "a" (JSObject.own (fst (getMultiple clock keys w))) = Some (VString "x") ∧
  "a" ∈ keys ∧ VString "x" ≠ VNull ∧
  ∃ entry, JSMap.get "a" (store (engine w)) = Some entry
           ∧ CacheEntry.value entry = VString "x".
Proof.
  intros clock cfg ops keys w.
  assert (Forall valid_op ops) as Hvalid by (repeat constructor; simpl; discriminate).
  assert (JSMap.get "a" (JSObject.own (fst (getMultiple clock keys w)))
          = Some (VString "x")) as Hfound
    by (vm_compute; reflexivity).
  split; [exact Hvalid|]. split; [exact Hfound|].
  exact (getMultiple_returns_stored_values clock cfg ops keys "a" (VString "x") Hvalid Hfound).
Defined.

Lemma hits_plus_misses_counts_the_gets_witness :
  let clock := fun n : nat => Z.of_nat n in
  let ops := [OpSet "a" (VString "x") None; OpGet "a"; OpGet "b"; OpIncrement "n" 1;
              OpGetMultiple ["a"; "a"; "c"]; OpExists "a"; OpCleanup] in
  let w := newWorld (CacheConfig.mk 1 10 LFU) in
  Forall (fun op => op ≠ OpResetStats) ops ∧
  accesses_counted (engine (run clock ops w))
  = (accesses_counted (engine w) + sum_list (map countGets ops))%nat.
Proof.
  intros clock ops w.
  assert (Forall (fun op => op ≠ OpResetStats) ops) as Hops
    by (repeat constructor; discriminate).
  split; [exact Hops|].
  exact (hits_plus_misses_counts_the_gets clock ops w Hops).
Defined.

Lemma policy_never_exceeds_its_capacity_witness :
  let ops := [PSet "a"; PSet "b"; PGet "a"; PSet "c"; PDelete "a"; PSet "d"; PSet "e"] in
  0 ≤ 2 ∧
  Policy.size (Policy_run ops (createEvictionPolicy (CacheConfig.mk 0 2 LFU))) ≤ 2.
Proof.
  intros ops.
  assert (0 ≤ 2) as Hcap by lia.
  split; [exact Hcap|].
  exact (policy_never_exceeds_its_capacity LFU 2 ops Hcap).
Defined.

Lemma store_never_holds_more_than_maxKeys_witness :
  let clock := fun n : nat => Z.of_nat n in
  let cfg := CacheConfig.mk 1 2 LFU in
  let ops := [OpSet "a" (VString "x") None; OpSet "b" (VNumber 1) None; OpGet "a";
              OpSet "c" (VNumber 2) None; OpDelete "a"; OpSet "d" VNull None;
              OpSet "e" VNull None] in
  0 < CacheConfig.maxKeys cfg ∧ Forall valid_op ops ∧
  JSMap.size (store (engine (run clock ops (newWorld cfg)))) ≤ CacheConfig.maxKeys cfg.
Proof.
  intros clock cfg ops.
  assert (0 < CacheConfig.maxKeys cfg) as Hkeys by (simpl; lia).
  assert (Forall valid_op ops) as Hvalid by (repeat constructor; simpl; discriminate).
  split; [exact Hkeys|]. split; [exact Hvalid|].
  exact (store_never_holds_more_than_maxKeys clock cfg ops Hkeys Hvalid).
Defined.

Lemma FIFO_evict_first_inserted_witness :
  let capacity := 3 in
  let ops := [PSet "a"; PSet "b"; PGet "a"; PSet "a"; PSet "c"] in
  let p0 := PolicyFIFO (FIFOPolicy.new capacity) in
  let p := Policy_run ops p0 in
  0 < Policy.size p ∧
  ∃ v p',
    Policy.evict p = (Some v, p') ∧
    Policy.has v p = true ∧ Policy.has v p' = false ∧
    ∀ k, Policy.has k p = true → k ≠ v → (insertedAt p0 ops v < insertedAt p0 ops k)%nat.
Proof.
  intros capacity ops p0 p.
  assert (0 < Policy.size p) as Hsize by (vm_compute; reflexivity).
  split; [exact Hsize|].
  exact (FIFO_evict_first_inserted capacity ops Hsize).
Defined.

Lemma LFU_evict_least_frequently_used_witness :
  let capacity := 3 in
  let ops := [PSet "a"; PSet "b"; PGet "a"; PSet "c"; PGet "b"; PGet "c"; PGet "c"] in
  let p0 := PolicyLFU (LFUPolicy.new capacity) in
  let p := Policy_run ops p0 in
  let v := "a" in
  let p' := snd (Policy.evict p) in
  Policy.evict p = (Some v, p') ∧
  Policy.has v p = true ∧ Policy.has v p' = false ∧
  ∀ k, Policy.has k p = true → k ≠ v →
    (useCount p0 ops v < useCount p0 ops k)%nat
    ∨ (useCount p0 ops v = useCount p0 ops k ∧ (lastAccess ops v < lastAccess ops k)%nat).
Proof.
  intros capacity ops p0 p v p'.
  assert (Policy.evict p = (Some v, p')) as Hev by (vm_compute; reflexivity).
  split; [exact Hev|].
  exact (LFU_evict_least_frequently_used capacity ops v p' Hev).
Defined.

Lemma set_evicts_exactly_when_full_witness :
  let name := LFU in
  let capacity := 2 in
  let ops := [PSet "a"; PGet "a"; PSet "b"; PDelete "b"; PSet "c"] in
  let key := "d" in
  let p := Policy_run ops (createEvictionPolicy (CacheConfig.mk 0 capacity name)) in
  let ev := fst (Policy.set key p) in
  let p' := snd (Policy.set key p) in
  0 < capacity ∧
  Policy.has key p' = true ∧
  if Policy.has key p then
    ev = None ∧ ∀ k, Policy.has k p' = true ↔ Policy.has k p = true
  else if bool_decide (Policy.size p < capacity) then
    ev = None ∧ ∀ k, Policy.has k p' = true ↔ k = key ∨ Policy.has k p = true
  else
    Policy.size p = capacity ∧
    ∃ v, ev = Some v ∧ Policy.has v p = true ∧
         ∀ k, Policy.has k p' = true ↔ k = key ∨ (Policy.has k p = true ∧ k ≠ v).
Proof.
  intros name capacity ops key p ev p'.
  assert (0 < capacity) as Hcap by (vm_compute; reflexivity).
  split; [exact Hcap|].
  exact (set_evicts_exactly_when_full name capacity ops key Hcap).
Defined.

Lemma memory_account_is_the_sum_of_the_estimates_witness :
  let clock := fun n : nat => Z.of_nat n in
  let cfg := CacheConfig.mk 1 0 LRU in
  let ops := [OpSet "a" (VString "x") None; OpSet "b" (VArray [VNumber 1; VNull]) None;
              OpUpdateTTL "a" 10; OpSet "a" (VObject [("f", VBoolean true)]) None] in
  let e := engine (run clock ops (newWorld cfg)) in
  Forall valid_op ops ∧
  currentMemoryBytes e = contentBytes (store e) ∧
  64 * JSMap.size (store e) ≤ currentMemoryBytes e.
Proof.
  intros clock cfg ops e.
  assert (Forall valid_op ops) as Hvalid by (repeat constructor; simpl; discriminate).
  split; [exact Hvalid|].
  exact (memory_account_is_the_sum_of_the_estimates clock cfg ops Hvalid).
Defined.

Lemma operations_window_holds_the_last_ten_seconds_witness :
  let events := [(true, 1000); (false, 2000); (true, 11500); (true, 11500)] in
  let times := map snd events in
  let s := recordAll events StatisticsTracker.new in
  nondecreasing times ∧
  StatisticsTracker.operations s
  = filter (fun t => default 0 (last times) - 10000 < t) times ∧
  StatisticsTracker.hits s = length (filter (fun ev => fst ev = true) events) ∧
  StatisticsTracker.misses s = length (filter (fun ev => fst ev = false) events) ∧
  StatisticsTracker.evictions s = 0%nat ∧ StatisticsTracker.expirations s = 0%nat.
Proof.
  intros events times s.
  assert (nondecreasing times) as Hnd.
  { intros i j a b Hij Ha Hb.
    destruct i as [|[|[|[|i]]]]; destruct j as [|[|[|[|j]]]]; simpl in Ha, Hb;
      try discriminate; try lia;
      injection Ha as <-; injection Hb as <-; lia. }
  split; [exact Hnd|].
  exact (operations_window_holds_the_last_ten_seconds events Hnd).
Defined.

Lemma set_of_new_key_at_the_key_limit_witness :
  let clock := fun n : nat => Z.of_nat n in
  let cfg := CacheConfig.mk 1 2 FIFO in
  let ops := [OpSet "a" (VString "x") None; OpSet "b" (VNumber 1) None; OpGet "a"] in
  let key := "c" in
  let value := VNumber 7 in
  let ttl := Some 100 in
  let w := run clock ops (newWorld cfg) in
  let e := engine w in
  let e' := engine (snd (set clock key value ttl w)) in
  let entry :=
    CacheEntry.mk value (expiresAtOf (clock (reads w)) ttl) (calculateEntrySize key value) in
  Forall valid_op ops ∧ key ≠ EmptyString ∧ 0 < CacheConfig.maxKeys cfg ∧
  JSMap.get key (store e) = None ∧
  currentMemoryBytes e + calculateEntrySize key value ≤ memoryThreshold e ∧
  if bool_decide (JSMap.size (store e) < CacheConfig.maxKeys cfg) then
    store e' = store e ++ [(key, entry)] ∧
    StatisticsTracker.evictions (stats e') = StatisticsTracker.evictions (stats e)
  else
    ∃ v, v ≠ key ∧ is_Some (JSMap.get v (store e)) ∧
         store e' = JSMap.delete v (store e) ++ [(key, entry)] ∧
         JSMap.size (store e') = CacheConfig.maxKeys cfg ∧
         StatisticsTracker.evictions (stats e') = S (StatisticsTracker.evictions (stats e)).
Proof.
  intros clock cfg ops key value ttl w e e' entry.
  assert (Forall valid_op ops) as Hvalid by (repeat constructor; simpl; discriminate).
  assert (key ≠ EmptyString) as Hkey by discriminate.
  assert (0 < CacheConfig.maxKeys cfg) as Hkeys by (vm_compute; reflexivity).
  assert (JSMap.get key (store e) = None) as Habsent by (vm_compute; reflexivity).
  assert (currentMemoryBytes e + calculateEntrySize key value ≤ memoryThreshold e) as Hroom
    by (vm_compute; discriminate).
  split; [exact Hvalid|]. split; [exact Hkey|]. split; [exact Hkeys|].
  split; [exact Habsent|]. split; [exact Hroom|].
  exact (set_of_new_key_at_the_key_limit clock cfg ops key value ttl
           Hvalid Hkey Hkeys Habsent Hroom).
Defined.

Lemma increments_return_the_running_sums_witness :
  let clock := fun n : nat => Z.of_nat n in
  let cfg := CacheConfig.mk 1 10 LRU in
  let ops := [OpSet "n" (VNumber 9007199254740991) (Some 60000)] in
  let key := "n" in
  let amounts := [1; 1; 1; 0.5; -2]%float in
  let w := run clock ops (newWorld cfg) in
  Forall valid_op ops ∧ key ≠ EmptyString ∧
  liveValue (clock (reads w)) key (engine w) = Some (VNumber 9007199254740991) ∧
  fst (incrementAll clock key amounts w)
  = [Returned 9007199254740992; Returned 9007199254740992; Returned 9007199254740992;
     Returned 9007199254740992; Returned 9007199254740990].
Proof.
  intros clock cfg ops key amounts w.
  assert (Forall valid_op ops) as Hvalid by (repeat constructor; simpl; discriminate).
  assert (key ≠ EmptyString) as Hkey by discriminate.
  assert (liveValue (clock (reads w)) key (engine w) = Some (VNumber 9007199254740991))
    as Hlive by (vm_compute; reflexivity).
  split; [exact Hvalid|]. split; [exact Hkey|]. split; [exact Hlive|].
  pose proof (increments_return_the_running_sums clock cfg ops key amounts Hvalid Hkey)
    as Hsums.
  cbv zeta in Hsums. fold w in Hsums. rewrite Hlive in Hsums. exact Hsums.
Defined.

(** ** BATCH-GET finds every live value *)

Section BatchGet.
Variable clock : nat → Z.





End BatchGet.

(** The key ["__proto__"]: the value stored under it is found by GET, and the
    assignment [result["__proto__"] = value] of BATCH-GET makes it the
    prototype of the result (an object) or does nothing (a number), so that
    the result has no property of that name. *)
Lemma getMultiple_at_proto_key :
  let clock := fun n : nat => Z.of_nat n in
  let w := run clock [OpSet "__proto__" (VObject [("x", VNumber 1)]) None;
                      OpSet "a" (VNumber 2) None]
             (newWorld (CacheConfig.mk 1 10 LRU)) in
  fst (get clock "__proto__" w) = VObject [("x", VNumber 1)] ∧
  fst (getMultiple clock ["__proto__"; "a"] w)
  = JSObject.mk [("a", VNumber 2)] (ValuePrototype (VObject [("x", VNumber 1)])).
Proof. by vm_compute. Qed.

